(** * YSO plotting tool: association statistics, bootstrap intervals and
      chord-diagram layout

    A shallow embedding of the effect-size code
    ([generate_cachai_effect_sizes.py], [generate_improved_visualizations.py]),
    of the bootstrap confidence interval and the matplotlib chord layout
    ([generate_comprehensive_visualizations.py]) and of the network chord
    drawing and label fix-up ([generate_fixed_visualizations.py]).

    Numbers.  Python floats are idealised: every value obtained by
    rational arithmetic is a [Q], and the result of [np.sqrt] is a real
    number [R].  Integer counts are [Z].  A raised Python exception is
    [None]. *)

From Stdlib Require Import List Bool Arith ZArith QArith Qabs Qminmax Qround.
From Stdlib Require Import Psatz Reals Ratan Qreals Permutation Sorted.
From Stdlib Require String.
Import ListNotations.
Import String.StringSyntax.
Delimit Scope string_scope with string.

Set Implicit Arguments.

(* ================================================================== *)
(** * Definitions *)
(* ================================================================== *)

(** ** Exceptions as [option] *)

Definition bind {A B : Type} (m : option A) (f : A -> option B) : option B :=
  match m with
  | Some a => f a
  | None => None
  end.

Notation "x <- m ;; k" := (bind m (fun x => k))
  (at level 61, m at next level, right associativity).

Fixpoint mapM {A B : Type} (f : A -> option B) (l : list A) : option (list B) :=
  match l with
  | [] => Some []
  | a :: l' => b <- f a ;; bs <- mapM f l' ;; Some (b :: bs)
  end.

(** ** Sums and element-wise operations on rows *)

Definition sumZ (l : list Z) : Z := fold_right Z.add 0%Z l.

Definition sumQ (l : list Q) : Q := fold_right Qplus 0%Q l.

Fixpoint zip_with {A B C : Type} (f : A -> B -> C) (l1 : list A) (l2 : list B)
  : list C :=
  match l1, l2 with
  | a :: l1', b :: l2' => f a b :: zip_with f l1' l2'
  | _, _ => []
  end.

(** ** pandas: categorical series and [pd.crosstab]

    A categorical series is the list of its category codes.  The frame
    returned by [pd.crosstab(x, y)] has one row per distinct value of [x]
    and one column per distinct value of [y], both in sorted order, and
    holds the number of positions at which the pair occurs. *)

Module Pandas.

Definition Series := list nat.

Record DataFrame := mkDataFrame {
  index : list nat;
  columns : list nat;
  values : list (list Z)
}.

Fixpoint insert_unique (a : nat) (l : list nat) : list nat :=
  match l with
  | [] => [a]
  | b :: l' =>
      if a <? b then a :: b :: l'
      else if a =? b then b :: l'
      else b :: insert_unique a l'
  end.

(** The sorted distinct values of a series. *)
Definition unique (l : list nat) : list nat := fold_right insert_unique [] l.

Definition pair_eqb (p q : nat * nat) : bool :=
  (fst p =? fst q) && (snd p =? snd q).

Definition count_pair (r c : nat) (obs : list (nat * nat)) : Z :=
  Z.of_nat (length (filter (pair_eqb (r, c)) obs)).

Definition crosstab (x y : Series) : DataFrame :=
  let obs := combine x y in
  let rows := unique (map fst obs) in
  let cols := unique (map snd obs) in
  mkDataFrame rows cols
    (map (fun r => map (fun c => count_pair r c obs) cols) rows).

(** [df.shape] *)
Definition shape (df : DataFrame) : nat * nat :=
  (length (index df), length (columns df)).

(** [df.sum().sum()] *)
Definition sum_sum (df : DataFrame) : Z := sumZ (map sumZ (values df)).

(** [s.iloc[indices].values]; an index out of range raises. *)
Definition iloc (s : Series) (indices : list nat) : option (list nat) :=
  mapM (nth_error s) indices.

(** [s.nunique()] *)
Definition nunique (s : Series) : nat := length (unique s).

End Pandas.

(** ** scipy: [chi2_contingency]

    The statistic returned by [scipy.stats.chi2_contingency(observed)]
    with its default arguments, for a two-dimensional table of counts. *)

Module Scipy.

Local Open Scope Q_scope.

Fixpoint col_sums (m : list (list Z)) : list Z :=
  match m with
  | [] => []
  | [r] => r
  | r :: rs => zip_with Z.add r (col_sums rs)
  end.

Definition row_sums (m : list (list Z)) : list Z := map sumZ m.

Definition total (m : list (list Z)) : Z := sumZ (row_sums m).

(** [expected_freq]: the outer product of the margins over the total. *)
Definition expected_freq (m : list (list Z)) : list (list Q) :=
  map (fun r => map (fun c => inject_Z (r * c) / inject_Z (total m))
                    (col_sums m))
      (row_sums m).

(** [observed.size] and the degrees of freedom
    [size - sum(shape) + ndim - 1]. *)
Definition size (m : list (list Z)) : Z :=
  (Z.of_nat (length m) * Z.of_nat (length (hd [] m)))%Z.

Definition dof (m : list (list Z)) : Z :=
  (size m - (Z.of_nat (length m) + Z.of_nat (length (hd [] m))) + 2 - 1)%Z.

(** [np.sign] *)
Definition sign (q : Q) : Q :=
  match q ?= 0 with
  | Lt => -(1)
  | Eq => 0
  | Gt => 1
  end.

(** Yates' continuity correction of one observed cell: it moves towards
    the expected value by at most one half. *)
Definition yates (o e : Q) : Q :=
  let diff := e - o in
  o + Qmin (1 # 2) (Qabs diff) * sign diff.

(** One term of Pearson's statistic. *)
Definition term (o e : Q) : Q := (o - e) * (o - e) / e.

(** [power_divergence(f_obs, f_exp, lambda_=1)] summed over every cell. *)
Definition pearson (obs exp : list (list Q)) : Q :=
  sumQ (map (fun p => sumQ (zip_with term (fst p) (snd p))) (combine obs exp)).

Definition to_float (m : list (list Z)) : list (list Q) :=
  map (map inject_Z) m.

Definition any_negative (m : list (list Z)) : bool :=
  existsb (existsb (fun v => (v <? 0)%Z)) m.

Definition any_zero (e : list (list Q)) : bool :=
  existsb (existsb (fun v => Qeq_bool v 0)) e.

(** [chi2_contingency(observed)[0]]: a [ValueError] for a negative count,
    an empty table or a zero expected frequency; the statistic is [0]
    when there is no degree of freedom, and Yates' correction applies
    exactly when there is one. *)
Definition chi2_contingency (observed : list (list Z)) : option Q :=
  if any_negative observed then None
  else if (size observed =? 0)%Z then None
  else
    let expected := expected_freq observed in
    if any_zero expected then None
    else if (dof observed =? 0)%Z then Some 0
    else if (dof observed =? 1)%Z then
      Some (pearson (map (fun p => zip_with yates (fst p) (snd p))
                         (combine (to_float observed) expected))
                    expected)
    else Some (pearson (to_float observed) expected).

End Scipy.

(** ** Effect sizes ([generate_cachai_effect_sizes.py]) *)

Import Pandas.

(** [min(confusion_matrix.shape) - 1] *)
Definition min_dim_of (df : DataFrame) : Z :=
  (Z.of_nat (Nat.min (fst (shape df)) (snd (shape df))) - 1)%Z.

Definition cramers_v (x y : Series) : option R :=
  let confusion_matrix := crosstab x y in
  chi2 <- Scipy.chi2_contingency (values confusion_matrix) ;;
  let n := sum_sum confusion_matrix in
  let min_dim := min_dim_of confusion_matrix in
  if (min_dim =? 0)%Z then Some 0%R
  else Some (sqrt (Q2R (chi2 / inject_Z (n * min_dim)))).

Definition phi_coefficient (x y : Series) : option R :=
  let confusion_matrix := crosstab x y in
  chi2 <- Scipy.chi2_contingency (values confusion_matrix) ;;
  let n := sum_sum confusion_matrix in
  Some (sqrt (Q2R (chi2 / inject_Z n))).

(** ** numpy: [np.percentile] and the legacy global random state *)

Module Numpy.

Fixpoint insert (a : R) (l : list R) : list R :=
  match l with
  | [] => [a]
  | b :: l' => if Rle_dec a b then a :: l else b :: insert a l'
  end.

(** [np.sort] *)
Definition sort (l : list R) : list R := fold_right insert [] l.

(** Linear interpolation between the two order statistics around a
    virtual index: the index is split into its floor and its fractional
    part [gamma]; the upper neighbour is clipped to the last position. *)
Definition interpolate (s : list R) (virtual_index : Q) : R :=
  let previous := Qfloor virtual_index in
  let next := Z.min (previous + 1) (Z.of_nat (length s - 1)) in
  let gamma := (virtual_index - inject_Z previous)%Q in
  let lo := nth (Z.to_nat previous) s 0%R in
  let hi := nth (Z.to_nat next) s 0%R in
  (lo + Q2R gamma * (hi - lo))%R.

(** [np.percentile(a, q)] with the default method: the virtual index is
    [(n - 1) * q / 100].  A percentile outside [[0, 100]] raises; an
    empty array has no percentile. *)
Definition percentile (a : list R) (q : Q) : option R :=
  if Qle_bool 0 q && Qle_bool q 100 then
    match a with
    | [] => None
    | _ :: _ =>
        let n := length a in
        Some (interpolate (sort a)
                          (inject_Z (Z.of_nat (n - 1)) * (q / 100))%Q)
    end
  else None.

(** The global [RandomState] behind [np.random.seed] and
    [np.random.choice(a, size=size, replace=True)].  [choice] returns
    [None] when the call does not return. *)
Class RandomState := {
  rng_state : Type;
  seed : Z -> rng_state;
  choice : nat -> nat -> rng_state -> option (list nat * rng_state)
}.

(** The documented behaviour of [choice] on a non-empty population:
    it returns [size] indices below [a]. *)
Definition choice_returns (RS : RandomState) : Prop :=
  forall (a size : nat) (st : rng_state),
    (0 < a)%nat ->
    exists l st', choice a size st = Some (l, st') /\
                  length l = size /\ Forall (fun i => (i < a)%nat) l.

End Numpy.

(** ** The generator of the legacy random state: MT19937

    [np.random.seed(s)] with an integer calls [mt19937_seed];
    [choice] without weights is [randint(0, a, size)], which draws each
    index by masked rejection from successive 32-bit outputs. *)

Module MT19937.

Local Open Scope Z_scope.
Local Unset Implicit Arguments.

Definition N : nat := 624.
Definition M : nat := 397.
Definition MATRIX_A : Z := 0x9908b0df.
Definition UPPER_MASK : Z := 0x80000000.
Definition LOWER_MASK : Z := 0x7fffffff.

Record state := mkState { key : list Z; pos : nat }.

Fixpoint upd (i : nat) (v : Z) (l : list Z) : list Z :=
  match l, i with
  | [], _ => []
  | _ :: l', O => v :: l'
  | a :: l', S i' => a :: upd i' v l'
  end.

(** [mt19937_seed]: Knuth's linear recurrence fills the key. *)
Fixpoint seed_fill (count : nat) (position : Z) (s : Z) : list Z :=
  match count with
  | O => []
  | S count' =>
      s :: seed_fill count' (position + 1)
             (Z.land (1812433253 * Z.lxor s (Z.shiftr s 30) + position + 1)
                     0xffffffff)
  end.

Definition mt19937_seed (s : Z) : state :=
  mkState (seed_fill N 0 (Z.land s 0xffffffff)) N.

(** One step of the in-place regeneration:
    [y = (key[i] & UPPER) | (key[j] & LOWER);
     key[i] = key[k] ^ (y >> 1) ^ (-(y & 1) & MATRIX_A)]. *)
Definition twist (k0 : list Z) (i j k : nat) : list Z :=
  let y := Z.lor (Z.land (nth i k0 0) UPPER_MASK) (Z.land (nth j k0 0) LOWER_MASK) in
  upd i (Z.lxor (Z.lxor (nth k k0 0) (Z.shiftr y 1))
                (if Z.odd y then MATRIX_A else 0)) k0.

Definition mt19937_gen (k0 : list Z) : list Z :=
  let k1 := fold_left (fun k i => twist k i (i + 1) (i + M)) (seq 0 (N - M)) k0 in
  let k2 := fold_left (fun k i => twist k i (i + 1) (i + M - N))
                      (seq (N - M) (M - 1)) k1 in
  twist k2 (N - 1) 0 (M - 1).

Definition temper (y : Z) : Z :=
  let y := Z.lxor y (Z.shiftr y 11) in
  let y := Z.lxor y (Z.land (Z.shiftl y 7) 0x9d2c5680) in
  let y := Z.lxor y (Z.land (Z.shiftl y 15) 0xefc60000) in
  Z.lxor y (Z.shiftr y 18).

Definition mt19937_next (st : state) : Z * state :=
  let st := if (pos st =? N)%nat then mkState (mt19937_gen (key st)) 0 else st in
  (temper (nth (pos st) (key st) 0), mkState (key st) (S (pos st))).

(** [gen_mask]: the smallest mask [2^k - 1] covering [max]. *)
Definition gen_mask (max : Z) : Z :=
  let m := max in
  let m := Z.lor m (Z.shiftr m 1) in
  let m := Z.lor m (Z.shiftr m 2) in
  let m := Z.lor m (Z.shiftr m 4) in
  let m := Z.lor m (Z.shiftr m 8) in
  let m := Z.lor m (Z.shiftr m 16) in
  Z.lor m (Z.shiftr m 32).

(** [buffered_bounded_masked_uint32]: rejection sampling under the mask;
    [fuel] bounds the number of attempts. *)
Fixpoint bounded_masked (fuel : nat) (rng mask : Z) (st : state)
  : option (Z * state) :=
  match fuel with
  | O => None
  | S fuel' =>
      let (v, st') := mt19937_next st in
      let val := Z.land v mask in
      if val <=? rng then Some (val, st') else bounded_masked fuel' rng mask st'
  end.

Definition attempts : nat := 4096.

(** [random_bounded_uint64_fill] for a range below [2^32]. *)
Fixpoint bounded_fill (cnt : nat) (rng : Z) (st : state)
  : option (list nat * state) :=
  match cnt with
  | O => Some ([], st)
  | S cnt' =>
      if rng =? 0 then
        match bounded_fill cnt' rng st with
        | Some (l, st') => Some (0%nat :: l, st')
        | None => None
        end
      else
        match bounded_masked attempts rng (gen_mask rng) st with
        | Some (v, st1) =>
            match bounded_fill cnt' rng st1 with
            | Some (l, st2) => Some (Z.to_nat v :: l, st2)
            | None => None
            end
        | None => None
        end
  end.

(** [RandomState.choice(a, size)] with replacement and no weights is
    [randint(0, a, size)]; an empty population raises unless no sample
    is taken. *)
Definition choice (a size : nat) (st : state) : option (list nat * state) :=
  if (a =? 0)%nat && negb (size =? 0)%nat then None
  else bounded_fill size (Z.of_nat a - 1) st.

End MT19937.


#[export] Instance MT19937_RandomState : Numpy.RandomState := {
  rng_state := MT19937.state;
  seed := MT19937.mt19937_seed;
  choice := MT19937.choice
}.

(** A total random source: a linear congruential generator reduced
    modulo the population size. *)

Module LCG.

Definition next (s : Z) : Z := ((1103515245 * s + 12345) mod 2147483648)%Z.

Fixpoint draws (a size : nat) (s : Z) : list nat * Z :=
  match size with
  | O => ([], s)
  | S size' =>
      let s' := next s in
      let (l, s'') := draws a size' s' in
      (Z.to_nat (s' mod Z.of_nat a) :: l, s'')
  end.

Definition choice (a size : nat) (s : Z) : option (list nat * Z) :=
  if (a =? 0)%nat && negb (size =? 0)%nat then None
  else Some (draws a size s).

End LCG.

Definition LCG_RandomState : Numpy.RandomState := {|
  Numpy.rng_state := Z;
  Numpy.seed := fun s => s;
  Numpy.choice := LCG.choice
|}.

(** ** Bootstrap confidence interval
       ([generate_comprehensive_visualizations.py]) *)

Section Bootstrap.

Context {RS : Numpy.RandomState}.

(** One pass of the resampling loop: the drawn indices select the same
    positions of both series. *)
Definition v_boot (x y : Series) (min_dim : Z) (indices : list nat)
  : option R :=
  x_boot <- iloc x indices ;;
  y_boot <- iloc y indices ;;
  let cm_boot := crosstab x_boot y_boot in
  chi2_boot <- Scipy.chi2_contingency (values cm_boot) ;;
  Some (if (0 <? min_dim)%Z
        then sqrt (Q2R (chi2_boot / inject_Z (Z.of_nat (length x) * min_dim)))
        else 0%R).

Fixpoint bootstrap_loop (k : nat) (x y : Series) (min_dim : Z)
         (st : Numpy.rng_state) : option (list R * Numpy.rng_state) :=
  match k with
  | O => Some ([], st)
  | S k' =>
      r <- Numpy.choice (length x) (length x) st ;;
      v <- v_boot x y min_dim (fst r) ;;
      rest <- bootstrap_loop k' x y min_dim (snd r) ;;
      Some (v :: fst rest, snd rest)
  end.

(** [cramers_v_with_ci(x, y, confidence)]: the point estimate, the
    interval, and the global random state it leaves behind. *)
Definition cramers_v_with_ci (x y : Series) (confidence : Q)
           (st : Numpy.rng_state)
  : option ((R * (R * R)) * Numpy.rng_state) :=
  let confusion_matrix := crosstab x y in
  chi2_stat <- Scipy.chi2_contingency (values confusion_matrix) ;;
  let n := sum_sum confusion_matrix in
  let min_dim := min_dim_of confusion_matrix in
  if (min_dim =? 0)%Z then Some ((0%R, (0%R, 0%R)), st)
  else
    let v := sqrt (Q2R (chi2_stat / inject_Z (n * min_dim))) in
    let st := Numpy.seed 42 in
    boot <- bootstrap_loop 1000 x y min_dim st ;;
    let v_bootstrap := fst boot in
    let alpha := ((1 - confidence) / 2)%Q in
    ci_lower <- Numpy.percentile v_bootstrap (alpha * 100) ;;
    ci_upper <- Numpy.percentile v_bootstrap ((1 - alpha) * 100) ;;
    Some ((v, (ci_lower, ci_upper)), snd boot).

(** The index lists of [k] successive resamples of [n] positions. *)
Fixpoint draw_resamples (k n : nat) (st : Numpy.rng_state)
  : option (list (list nat) * Numpy.rng_state) :=
  match k with
  | O => Some ([], st)
  | S k' =>
      r <- Numpy.choice n n st ;;
      rest <- draw_resamples k' n (snd r) ;;
      Some (fst r :: fst rest, snd rest)
  end.

End Bootstrap.

(** ** The statistic written out

    The margins of the cross-tabulation are the numbers of occurrences of
    each value, the expected count of a cell is the product of its margins
    over the number of observations, and the statistic sums
    [(O - E)^2 / E] over all cells.  [chi_squared_with adj] applies the
    correction [adj] to every observed count first. *)

Definition indicator (b : bool) : Z := if b then 1%Z else 0%Z.

Definition count_fst (r : nat) (obs : list (nat * nat)) : Z :=
  Z.of_nat (length (filter (fun p => r =? fst p) obs)).

Definition count_snd (c : nat) (obs : list (nat * nat)) : Z :=
  Z.of_nat (length (filter (fun p => c =? snd p) obs)).

Definition expected_count (obs : list (nat * nat)) (r c : nat) : Q :=
  (inject_Z (count_fst r obs * count_snd c obs)
   / inject_Z (Z.of_nat (length obs)))%Q.

Definition chi_squared_with (adj : Q -> Q -> Q) (x y : Series) : Q :=
  let obs := combine x y in
  sumQ (map (fun r => sumQ (map (fun c =>
    Scipy.term (adj (inject_Z (count_pair r c obs)) (expected_count obs r c))
               (expected_count obs r c))
    (unique (map snd obs)))) (unique (map fst obs))).

(** Pearson's statistic, and its form with Yates' correction. *)
Definition pearson_chi_squared : Series -> Series -> Q :=
  chi_squared_with (fun o _ => o).

Definition yates_chi_squared : Series -> Series -> Q :=
  chi_squared_with Scipy.yates.

(** The statistic reported for the cross-tabulation of two series: [0]
    for a single row or column, Yates' form for a 2 x 2 table, Pearson's
    otherwise. *)
Definition chi2_statistic (x y : Series) : Q :=
  let rows := nunique (map fst (combine x y)) in
  let cols := nunique (map snd (combine x y)) in
  if (rows =? 1) || (cols =? 1) then 0%Q
  else if (rows =? 2) && (cols =? 2) then yates_chi_squared x y
  else pearson_chi_squared x y.

(** A series takes a single value. *)
Definition constant_series (s : Series) : Prop :=
  exists v, In v s /\ forall a, In a s -> a = v.

(** The statistic of the resample selected by [indices], and the index
    lists that select [length x] positions of [x]. *)
Definition resampled_statistic (x y : Series) (min_dim : Z)
           (indices : list nat) : R :=
  let x_boot := map (fun i => nth i x 0%nat) indices in
  let y_boot := map (fun i => nth i y 0%nat) indices in
  if (0 <? min_dim)%Z
  then sqrt (Q2R (chi2_statistic x_boot y_boot
                  / inject_Z (Z.of_nat (length x) * min_dim)))
  else 0%R.

Definition valid_indices (x : Series) (indices : list nat) : Prop :=
  length indices = length x /\ Forall (fun i => (i < length x)%nat) indices.

(** The number of values above a bound. *)
Definition count_above (b : R) (l : list R) : nat :=
  length (filter (fun v => if Rlt_dec b v then true else false) l).

(** Checks on drawn index lists: a resample with fewer than [k] distinct
    values, and a run of resamples that all select [length x] positions
    of [x], at most [bound] of them with [k] or more distinct values. *)
Definition few_distinct (x : Series) (k : nat) (indices : list nat) : bool :=
  nunique (map (fun i => nth i x 0%nat) indices) <? k.

Definition check_indices (x : Series) (indices : list nat) : bool :=
  (length indices =? length x) && forallb (fun i => i <? length x) indices.

Definition check_resamples {S : Type} (x : Series) (k bound : nat)
           (r : option (list (list nat) * S)) : bool :=
  match r with
  | None => false
  | Some (rs, _) =>
      forallb (check_indices x) rs
      && (length (filter (fun indices => negb (few_distinct x k indices)) rs)
          <=? bound)
  end.

(** ** The effect-size matrix ([build_effect_size_matrix])

    The frame [df] is read by column name ([None] is a [KeyError]); the
    statistic may raise on a pair of columns. *)

Definition Frame := String.string -> option Series.

Definition effect_cell (df : Frame) (variables : list String.string)
           (effect_func : Series -> Series -> option R) (i j : nat)
  : option R :=
  if i =? j then Some 1%R
  else
    vi <- nth_error variables i ;;
    vj <- nth_error variables j ;;
    xi <- df vi ;;
    xj <- df vj ;;
    effect_func xi xj.

(** The cells of the returned frame, row by row; its index and its
    columns are [variables]. *)
Definition build_effect_size_matrix (df : Frame) (variables : list String.string)
           (effect_func : Series -> Series -> option R)
  : option (list (list R)) :=
  let n_vars := length variables in
  mapM (fun i => mapM (fun j => effect_cell df variables effect_func i j)
                      (seq 0 n_vars))
       (seq 0 n_vars).

(** [M[i][j]] *)
Definition cell_at (M : list (list R)) (i j : nat) : R :=
  nth j (nth i M []) 0%R.

(** ** The matplotlib chord diagram ([create_matplotlib_chord])

    The input is a contingency table of counts; rows and columns are
    two groups of nodes, the rows first. *)

Module Chord.

Local Open Scope Q_scope.

Definition max_list (l : list Q) : option Q :=
  match l with
  | [] => None
  | a :: l' => Some (fold_left Qmax l' a)
  end.

Definition maxZ_list (l : list Z) : option Z :=
  match l with
  | [] => None
  | a :: l' => Some (fold_left Z.max l' a)
  end.

(** [contingency_table.astype(float)] *)
Definition data (t : DataFrame) : list (list Q) :=
  map (map inject_Z) (values t).

(** [data.max().max()]; there is no maximum ([NaN]) for an empty frame. *)
Definition data_max (t : DataFrame) : option Q := max_list (concat (data t)).

(** [data / data_max if data_max > 0 else data] *)
Definition data_norm (t : DataFrame) : list (list Q) :=
  match data_max t with
  | Some m =>
      if negb (Qle_bool m 0) then map (map (fun v => v / m)) (data t)
      else data t
  | None => data t
  end.

(** [iloc[i, j]] of a list of rows. *)
Definition cell (A : Type) (d : A) (m : list (list A)) (i j : nat) : A :=
  nth j (nth i m []) d.

(** The loop over [enumerate(all_cats)]: a row node sums its row, a
    column node its column. *)
Definition node_sizes (t : DataFrame) : list Z :=
  let n1 := length (index t) in
  map (fun i =>
         if (i <? n1)%nat then sumZ (nth i (values t) [])
         else sumZ (map (fun row => nth (i - n1) row 0%Z) (values t)))
      (seq 0 (n1 + length (columns t))).

(** [np.array(node_sizes) / max(node_sizes) * 0.3]: [max] of an empty
    list raises, and there is no finite size when the maximum is [0]. *)
Definition node_sizes_norm (t : DataFrame) : option (list Q) :=
  m <- maxZ_list (node_sizes t) ;;
  if (m =? 0)%Z then None
  else Some (map (fun s => inject_Z s / inject_Z m * (3 # 10)) (node_sizes t)).

Record chord := mkChord {
  source : nat;
  target : nat;
  radius : Q;
  opacity : Q;
  linewidth : Q
}.

(** The loop over the cells: a chord from row node [i] to column node
    [len(cats1) + j] when [value > threshold]. *)
Definition chords (t : DataFrame) (threshold : Q) : list chord :=
  let n1 := length (index t) in
  flat_map (fun i =>
    flat_map (fun j =>
      let value := cell 0 (data_norm t) i j in
      if negb (Qle_bool value threshold)
      then [mkChord i (n1 + j) ((8 # 10) + (1 # 10) * value)
                    ((3 # 10) + (4 # 10) * value) (2 * value)]
      else [])
      (seq 0 (length (columns t))))
    (seq 0 n1).

(** The default [threshold=0.001]. *)
Definition default_threshold : Q := 1 # 1000.

Local Open Scope R_scope.

(** [np.linspace(0, 2*np.pi, n_cats, endpoint=False)[i]], as an exact
    real; in doubles the node at exactly half a turn can land on either
    side of [np.pi]. *)
Definition angles (n_cats i : nat) : R := INR i * (2 * PI / INR n_cats).

(** [np.degrees] *)
Definition degrees (a : R) : R := a * 180 / PI.

(** The rotation of a node label. *)
Definition label_rotation (angle : R) : R :=
  let rotation := degrees angle in
  if Rlt_dec PI angle then rotation + 180 else rotation.

End Chord.

(** ** The network diagram of [main] and the label fix-up
       ([generate_fixed_visualizations.py]) *)

Module Network.

Local Open Scope Q_scope.

Record CorrMatrix := mkCorrMatrix {
  columns : list String.string;
  cells : list (list Q)
}.

Inductive colour := red | blue.

Record line := mkLine {
  from : nat;
  to : nat;
  linewidth : Q;
  color : colour;
  alpha : Q
}.

(** [corr_matrix.iloc[i, j]] *)
Definition iloc (m : CorrMatrix) (i j : nat) : Q := Chord.cell 0 (cells m) i j.

(** The loops [for i in range(n_vars): for j in range(i+1, n_vars)]: a
    line when [abs(corr) > threshold]. *)
Definition lines (m : CorrMatrix) (threshold : Q) : list line :=
  let n_vars := length (columns m) in
  flat_map (fun i =>
    flat_map (fun j =>
      let corr_val := Qabs (iloc m i j) in
      if negb (Qle_bool corr_val threshold)
      then
        let orig_corr := iloc m i j in
        [mkLine i j ((5 # 10) + (corr_val - threshold) * 8)
                (if negb (Qle_bool 0 orig_corr) then red else blue)
                (Qmin ((3 # 10) + corr_val * (6 # 10)) (9 # 10))]
      else [])
      (seq (i + 1) (n_vars - (i + 1))))
    (seq 0 n_vars).

(** The threshold that [main] fixes. *)
Definition threshold : Q := 15 # 100.

(** The names joined by a line. *)
Definition endpoints (m : CorrMatrix) (l : line)
  : String.string * String.string :=
  (nth (from l) (columns m) String.EmptyString,
   nth (to l) (columns m) String.EmptyString).

Local Open Scope R_scope.

(** [np.arctan2(y, x)] *)
Definition arctan2 (y x : R) : R :=
  if Rlt_dec 0 x then atan (y / x)
  else if Rlt_dec x 0 then
    if Rle_dec 0 y then atan (y / x) + PI else atan (y / x) - PI
  else if Rlt_dec 0 y then PI / 2
  else if Rlt_dec y 0 then - PI / 2
  else 0.

(** The angle that [improve_chord_labels] reads off a label position. *)
Definition text_angle (x y : R) : R := arctan2 y x * 180 / PI.

(** The new position and rotation of one label. *)
Definition improve_chord_label (x y : R) : (R * R) * R :=
  let angle := text_angle x y in
  let scale_factor := 118 / 100 in
  let new_x := x * scale_factor in
  let new_y := y * scale_factor in
  ((new_x, new_y),
   if Rlt_dec 90 angle then
     if Rlt_dec angle 270 then angle - 180 else angle
   else angle).

End Network.

(** The association matrix of three entities used as a running example. *)
Definition scenario : Network.CorrMatrix :=
  Network.mkCorrMatrix
    ["P"; "Q"; "R"]%string
    [[1; 5 # 100; 5 # 10]; [5 # 100; 1; 2 # 10]; [5 # 10; 2 # 10; 1]]%Q.

(* ================================================================== *)
(** * Further definitions *)
(* ================================================================== *)

(** The observations with the two series exchanged. *)
Definition swap_pair (p : nat * nat) : nat * nat := (snd p, fst p).

(** A frame whose block of values has one row per index label and one
    cell per column label. *)
Definition rectangular (t : DataFrame) : Prop :=
  length (values t) = length (index t) /\
  Forall (fun row => length row = length (columns t)) (values t).

(** ** The matrix of pairwise Cramer's V between classes
       ([main] of [generate_improved_visualizations.py])

    [df_b[mask]] with [mask = (df_b['YSO_CLASS'] == i) | (df_b['YSO_CLASS'] == j)]:
    the rows of the two columns whose class is [i] or [j]. *)
Definition pair_subset (yso var : Series) (i j : nat) : list (nat * nat) :=
  filter (fun p => (fst p =? i)%nat || (fst p =? j)%nat) (combine yso var).

(** One cell: [1.0] on the diagonal; elsewhere [cramers_v] of the subset
    when it has a row, and the initial [0.0] otherwise. *)
Definition cramers_matrix_cell (yso var : Series) (i j : nat) : option R :=
  if (i =? j)%nat then Some 1%R
  else
    let df_subset := pair_subset yso var i j in
    if (0 <? length df_subset)%nat
    then cramers_v (map fst df_subset) (map snd df_subset)
    else Some 0%R.

(** The loops over [ct_yso_var.index], the row labels of the
    cross-tabulation. *)
Definition cramers_matrix_yso_var (yso var : Series) : option (list (list R)) :=
  let labels := index (crosstab yso var) in
  mapM (fun i => mapM (fun j => cramers_matrix_cell yso var i j) labels) labels.

(** ** Reading an effect size ([interpret_v] of
       [generate_improved_visualizations.py], and the same chain in
       [create_statistical_summary]) *)

Inductive effect := negligible | weak | moderate | strong.

Definition interpret_v (v : R) : effect :=
  if Rlt_dec v (1 / 10) then negligible
  else if Rlt_dec v (3 / 10) then weak
  else if Rlt_dec v (5 / 10) then moderate
  else strong.

(** ** The test of independence ([chi2_test])

    [chi2_contingency] returns the statistic, the p-value and the degrees
    of freedom; the p-value is [1.0] when there is no degree of freedom
    and the survival function [sf] of the chi-squared distribution at the
    statistic otherwise. *)
Definition chi2_test (sf : Q -> Z -> R) (x y : Series) : option (Q * R * Z) :=
  let confusion_matrix := crosstab x y in
  chi2 <- Scipy.chi2_contingency (values confusion_matrix) ;;
  let dof := Scipy.dof (values confusion_matrix) in
  Some (chi2, if (dof =? 0)%Z then 1%R else sf chi2 dof, dof).

(** ** [Series.value_counts] and the data quality reports

    The number of rows of a series with the value [v]. *)
Definition count_value (v : nat) (s : Series) : Z :=
  Z.of_nat (length (filter (Nat.eqb v) s)).

(** [series.value_counts()]: the distinct values with their counts, by
    decreasing count (pandas leaves the order of equal counts open; here
    they keep the order of the labels). *)
Fixpoint insert_by_count (p : nat * Z) (l : list (nat * Z)) : list (nat * Z) :=
  match l with
  | [] => [p]
  | q :: l' => if (snd q <? snd p)%Z then p :: l else q :: insert_by_count p l'
  end.

Definition value_counts (s : Series) : list (nat * Z) :=
  fold_right insert_by_count []
             (map (fun v => (v, count_value v s)) (unique s)).

Definition minZ_list (l : list Z) : option Z :=
  match l with
  | [] => None
  | a :: l' => Some (fold_left Z.min l' a)
  end.

(** [flag_rare_categories(df)]: for each of the two columns, the
    categories seen fewer than 30 times, with their counts; a column
    without such a category gets no entry, and a missing column raises. *)
Definition rare_threshold : Z := 30.

Fixpoint flag_rare_loop (cols : list String.string) (df : Frame)
         (rare_categories : list (String.string * list (nat * Z)))
  : option (list (String.string * list (nat * Z))) :=
  match cols with
  | [] => Some rare_categories
  | col :: cols' =>
      s <- df col ;;
      let counts := value_counts s in
      let rare := filter (fun p => (snd p <? rare_threshold)%Z) counts in
      flag_rare_loop cols' df
        (if (0 <? length rare)%nat then rare_categories ++ [(col, rare)]
         else rare_categories)
  end.

Definition flag_rare_categories (df : Frame)
  : option (list (String.string * list (nat * Z))) :=
  flag_rare_loop ["YSO_CLASS"; "LCType"]%string df [].

(** [get_imbalance_stats(series)]: the number of rows, the share of the
    most frequent category in percent and the ratio of the largest to
    the smallest count; the last two are [NaN] ([None]) for a series
    without a row. *)
Record imbalance_stats := mkImbalance {
  imbalance_total : Z;
  max_pct : option Q;
  ratio : option Q
}.

Definition get_imbalance_stats (series : Series) : imbalance_stats :=
  let counts := map snd (value_counts series) in
  let total := Z.of_nat (length series) in
  mkImbalance total
    (M <- Chord.maxZ_list counts ;; Some (100 * inject_Z M / inject_Z total)%Q)
    (M <- Chord.maxZ_list counts ;;
     m <- minZ_list counts ;; Some (inject_Z M / inject_Z m)%Q).

(** ** The panels of rare categories
       ([create_zoomed_chord_rare_categories])

    [Series.median()]: the middle of the sorted totals, the mean of the
    two middle ones for an even number, [NaN] ([None]) without a total. *)
Fixpoint insertZ (a : Z) (l : list Z) : list Z :=
  match l with
  | [] => [a]
  | b :: l' => if (a <=? b)%Z then a :: l else b :: insertZ a l'
  end.

Definition sortZ (l : list Z) : list Z := fold_right insertZ [] l.

Definition median (l : list Z) : option Q :=
  match l with
  | [] => None
  | _ :: _ =>
      let s := sortZ l in
      let n := length l in
      if Nat.even n
      then Some ((inject_Z (nth (n / 2 - 1) s 0%Z)
                  + inject_Z (nth (n / 2) s 0%Z)) / 2)%Q
      else Some (inject_Z (nth (n / 2) s 0%Z))
  end.

(** [total < median]; a comparison with [NaN] is false. *)
Definition below_median (m : option Q) (total : Z) : bool :=
  match m with
  | Some m => negb (Qle_bool m (inject_Z total))
  | None => false
  end.

(** [contingency_table.sum(axis=1)] and [contingency_table.sum(axis=0)] *)
Definition row_totals (t : DataFrame) : list Z := map sumZ (values t).

Definition col_totals (t : DataFrame) : list Z :=
  map (fun j => sumZ (map (fun row => nth j row 0%Z) (values t)))
      (seq 0 (length (columns t))).

(** [contingency_table[row_totals < median_row]] *)
Definition rare_rows (t : DataFrame) : DataFrame :=
  let median_row := median (row_totals t) in
  let kept := filter (fun p => below_median median_row (sumZ (snd p)))
                     (combine (index t) (values t)) in
  mkDataFrame (map fst kept) (columns t) (map snd kept).

(** The positions of the columns [c] with [col_totals[c] < median_col]. *)
Definition rare_col_positions (t : DataFrame) : list nat :=
  let median_col := median (col_totals t) in
  filter (fun j => below_median median_col (nth j (col_totals t) 0%Z))
         (seq 0 (length (columns t))).

Definition rare_cols (t : DataFrame) : DataFrame :=
  let kept := rare_col_positions t in
  mkDataFrame (index t) (map (fun j => nth j (columns t) 0%nat) kept)
              (map (fun row => map (fun j => nth j row 0%Z) kept) (values t)).

(** ** [create_matplotlib_chord] on any numeric frame

    [contingency_table.astype(float)] accepts any numeric frame, a matrix
    of associations as well as a table of counts; [Chord] above is the
    case of counts. *)

Module ChordFloat.

Local Open Scope Q_scope.

Record Table := mkTable {
  index : list nat;
  columns : list nat;
  values : list (list Q)
}.

(** [contingency_table.astype(float)] of a table of counts. *)
Definition astype_float (t : DataFrame) : Table :=
  mkTable (Pandas.index t) (Pandas.columns t)
          (map (map inject_Z) (Pandas.values t)).

(** [data.max().max()] *)
Definition data_max (t : Table) : option Q :=
  Chord.max_list (concat (values t)).

(** [data / data_max if data_max > 0 else data] *)
Definition data_norm (t : Table) : list (list Q) :=
  match data_max t with
  | Some m =>
      if negb (Qle_bool m 0) then map (map (fun v => v / m)) (values t)
      else values t
  | None => values t
  end.

(** The loop over [enumerate(all_cats)]. *)
Definition node_sizes (t : Table) : list Q :=
  let n1 := length (index t) in
  map (fun i =>
         if (i <? n1)%nat then sumQ (nth i (values t) [])
         else sumQ (map (fun row => nth (i - n1) row 0) (values t)))
      (seq 0 (n1 + length (columns t))).

(** The loop over the cells: a chord when [value > threshold]. *)
Definition chords (t : Table) (threshold : Q) : list Chord.chord :=
  let n1 := length (index t) in
  flat_map (fun i =>
    flat_map (fun j =>
      let value := Chord.cell 0 (data_norm t) i j in
      if negb (Qle_bool value threshold)
      then [Chord.mkChord i (n1 + j) ((8 # 10) + (1 # 10) * value)
                          ((3 # 10) + (4 # 10) * value) (2 * value)]
      else [])
      (seq 0 (length (columns t))))
    (seq 0 n1).

End ChordFloat.

(** The matrix of the running example as the input of
    [create_matplotlib_chord]: rows and columns P, Q, R. *)
Definition scenario_table : ChordFloat.Table :=
  ChordFloat.mkTable [0; 1; 2]%nat [0; 1; 2]%nat (Network.cells scenario).

(* ================================================================== *)
(** * Properties *)
(* ================================================================== *)

(** ** Sums *)

Section Sums.

Local Open Scope Q_scope.

Variable A : Type.

Lemma sumQ_le (g h : A -> Q) (l : list A) :
  (forall a, In a l -> g a <= h a) ->
  sumQ (map g l) <= sumQ (map h l).
Proof.
  induction l as [|a l IH]; intros Hgh; simpl.
  - apply Qle_refl.
  - apply Qplus_le_compat.
    + apply Hgh. now left.
    + apply IH. intros b Hb. apply Hgh. now right.
Qed.

Lemma sumQ_ext (g h : A -> Q) (l : list A) :
  (forall a, In a l -> g a == h a) ->
  sumQ (map g l) == sumQ (map h l).
Proof.
  intros Hgh. apply Qle_antisym; apply sumQ_le; intros a Ha;
    rewrite (Hgh a Ha); apply Qle_refl.
Qed.

Lemma sumQ_nonneg (g : A -> Q) (l : list A) :
  (forall a, In a l -> 0 <= g a) -> 0 <= sumQ (map g l).
Proof.
  induction l as [|a l IH]; intros Hg; simpl.
  - apply Qle_refl.
  - assert (0 <= g a) by (apply Hg; now left).
    assert (0 <= sumQ (map g l)) by (apply IH; intros b Hb; apply Hg; now right).
    lra.
Qed.

Lemma sumQ_plus (g h : A -> Q) (l : list A) :
  sumQ (map (fun a => g a + h a) l) == sumQ (map g l) + sumQ (map h l).
Proof.
  induction l as [|a l IH]; simpl.
  - lra.
  - rewrite IH. lra.
Qed.

Lemma sumQ_scal (k : Q) (g : A -> Q) (l : list A) :
  sumQ (map (fun a => k * g a) l) == k * sumQ (map g l).
Proof.
  induction l as [|a l IH]; simpl.
  - lra.
  - rewrite IH. ring.
Qed.

Lemma sumQ_const (k : Q) (l : list A) :
  sumQ (map (fun _ => k) l) == inject_Z (Z.of_nat (length l)) * k.
Proof.
  induction l as [|a l IH].
  - simpl. ring.
  - cbn [map sumQ fold_right length]. fold (sumQ (map (fun _ => k) l)).
    rewrite IH, Nat2Z.inj_succ. unfold Z.succ. rewrite inject_Z_plus. ring.
Qed.

Lemma sumQ_inject (g : A -> Z) (l : list A) :
  sumQ (map (fun a => inject_Z (g a)) l) == inject_Z (sumZ (map g l)).
Proof.
  induction l as [|a l IH]; simpl.
  - reflexivity.
  - fold (sumQ (map (fun a => inject_Z (g a)) l)). rewrite IH.
    fold (sumZ (map g l)). now rewrite inject_Z_plus.
Qed.

Lemma sumZ_nonneg (g : A -> Z) (l : list A) :
  (forall a, In a l -> (0 <= g a)%Z) -> (0 <= sumZ (map g l))%Z.
Proof.
  induction l as [|a l IH]; intros Hg; simpl.
  - lia.
  - assert (0 <= g a)%Z by (apply Hg; now left).
    assert (0 <= sumZ (map g l))%Z by (apply IH; intros b Hb; apply Hg; now right).
    unfold sumZ in *. lia.
Qed.

Lemma sumZ_ge_elem (g : A -> Z) (l : list A) (a : A) :
  (forall b, In b l -> (0 <= g b)%Z) -> In a l -> (g a <= sumZ (map g l))%Z.
Proof.
  induction l as [|b l IH]; intros Hg Ha; simpl.
  - destruct Ha.
  - assert (0 <= g b)%Z by (apply Hg; now left).
    assert (0 <= sumZ (map g l))%Z
      by (apply sumZ_nonneg; intros c Hc; apply Hg; now right).
    destruct Ha as [->|Ha].
    + unfold sumZ in *. lia.
    + assert (g a <= sumZ (map g l))%Z
        by (apply IH; auto; intros c Hc; apply Hg; now right).
      unfold sumZ in *. lia.
Qed.

End Sums.

Lemma sumQ_swap (A B : Type) (g : A -> B -> Q) (la : list A) (lb : list B) :
  (sumQ (map (fun a => sumQ (map (fun b => g a b) lb)) la) ==
   sumQ (map (fun b => sumQ (map (fun a => g a b) la)) lb))%Q.
Proof.
  induction la as [|a la IH]; simpl.
  - induction lb as [|b lb IHb]; simpl; [reflexivity|].
    fold (sumQ (map (fun _ : B => sumQ []) lb)). simpl in IHb.
    unfold sumQ in *. simpl. rewrite <- IHb. reflexivity.
  - fold (sumQ (map (fun a => sumQ (map (fun b => g a b) lb)) la)).
    rewrite IH.
    rewrite <- (sumQ_plus (fun b => g a b)
                          (fun b => sumQ (map (fun a0 => g a0 b) la)) lb).
    apply sumQ_ext. intros b _. reflexivity.
Qed.

Lemma sumZ_swap (A B : Type) (g : A -> B -> Z) (la : list A) (lb : list B) :
  sumZ (map (fun a => sumZ (map (fun b => g a b) lb)) la) =
  sumZ (map (fun b => sumZ (map (fun a => g a b) la)) lb).
Proof.
  induction la as [|a la IH]; simpl.
  - induction lb as [|b lb IHb]; simpl; [reflexivity|].
    unfold sumZ in *. simpl in *. now rewrite <- IHb.
  - fold (sumZ (map (fun a => sumZ (map (fun b => g a b) lb)) la)).
    rewrite IH. clear IH.
    induction lb as [|b lb IHb]; simpl; [reflexivity|].
    unfold sumZ in *. simpl in *. rewrite <- IHb. lia.
Qed.

Lemma sumZ_plus (A : Type) (g h : A -> Z) (l : list A) :
  sumZ (map (fun a => (g a + h a)%Z) l) = (sumZ (map g l) + sumZ (map h l))%Z.
Proof.
  induction l as [|a l IH]; simpl; [reflexivity|].
  unfold sumZ in *. rewrite IH. lia.
Qed.

Lemma sumZ_ext_in (A : Type) (g h : A -> Z) (l : list A) :
  (forall a, In a l -> g a = h a) -> sumZ (map g l) = sumZ (map h l).
Proof. intros H. f_equal. now apply map_ext_in. Qed.

(** ** Rows built from a common list of labels *)

Lemma zip_with_map (A B C D : Type) (f : B -> C -> D) (g : A -> B) (h : A -> C)
      (l : list A) :
  zip_with f (map g l) (map h l) = map (fun a => f (g a) (h a)) l.
Proof. induction l as [|a l IH]; simpl; [reflexivity|]. now rewrite IH. Qed.

Lemma combine_map (A B C : Type) (g : A -> B) (h : A -> C) (l : list A) :
  combine (map g l) (map h l) = map (fun a => (g a, h a)) l.
Proof. induction l as [|a l IH]; simpl; [reflexivity|]. now rewrite IH. Qed.

Lemma col_sums_tab (A B : Type) (O : A -> B -> Z) (rows : list A) (cols : list B) :
  rows <> [] ->
  Scipy.col_sums (map (fun r => map (fun c => O r c) cols) rows) =
  map (fun c => sumZ (map (fun r => O r c) rows)) cols.
Proof.
  induction rows as [|r rows IH]; intros Hne; [congruence|].
  destruct rows as [|r' rows].
  - simpl. apply map_ext. intros c. lia.
  - change (Scipy.col_sums (map (fun r0 => map (fun c => O r0 c) cols) (r :: r' :: rows)))
      with (zip_with Z.add (map (fun c => O r c) cols)
              (Scipy.col_sums (map (fun r0 => map (fun c => O r0 c) cols) (r' :: rows)))).
    rewrite IH by congruence. rewrite zip_with_map. reflexivity.
Qed.

Lemma row_sums_tab (A B : Type) (O : A -> B -> Z) (rows : list A) (cols : list B) :
  Scipy.row_sums (map (fun r => map (fun c => O r c) cols) rows) =
  map (fun r => sumZ (map (fun c => O r c) cols)) rows.
Proof. unfold Scipy.row_sums. now rewrite map_map. Qed.

Lemma pearson_tab (A B : Type) (O E : A -> B -> Q) (rows : list A) (cols : list B) :
  Scipy.pearson (map (fun r => map (fun c => O r c) cols) rows)
                (map (fun r => map (fun c => E r c) cols) rows) =
  sumQ (map (fun r => sumQ (map (fun c => Scipy.term (O r c) (E r c)) cols)) rows).
Proof.
  unfold Scipy.pearson. rewrite combine_map, map_map. f_equal.
  apply map_ext. intros r. simpl. now rewrite zip_with_map.
Qed.

(** ** Pearson's statistic of a table with positive margins *)

Section ChiSquareBound.

Local Open Scope Q_scope.

Variables (A B : Type).
Variables (rows : list A) (cols : list B).
Variable O : A -> B -> Z.
Variables (rs : A -> Z) (cs : B -> Z) (n : Z).
(** [adj] is the correction applied to an observed cell. *)
Variable adj : Q -> Q -> Q.

Hypothesis O_nonneg : forall r c, (0 <= O r c)%Z.
Hypothesis rs_sum : forall r, In r rows -> sumZ (map (fun c => O r c) cols) = rs r.
Hypothesis cs_sum : forall c, In c cols -> sumZ (map (fun r => O r c) rows) = cs c.
Hypothesis rs_pos : forall r, In r rows -> (0 < rs r)%Z.
Hypothesis cs_pos : forall c, In c cols -> (0 < cs c)%Z.
Hypothesis n_sum : sumZ (map rs rows) = n.
Hypothesis n_pos : (0 < n)%Z.
Hypothesis adj_closer :
  forall o e, 0 < e -> (adj o e - e) * (adj o e - e) <= (o - e) * (o - e).

Let E (r : A) (c : B) : Q := inject_Z (rs r * cs c) / inject_Z n.

Let chi2 : Q :=
  sumQ (map (fun r => sumQ (map (fun c =>
    Scipy.term (adj (inject_Z (O r c)) (E r c)) (E r c)) cols)) rows).

Lemma cs_total : sumZ (map cs cols) = n.
Proof.
  rewrite <- n_sum.
  rewrite <- (sumZ_ext_in (fun c => sumZ (map (fun r => O r c) rows)) cs cols cs_sum).
  rewrite <- (sumZ_ext_in (fun r => sumZ (map (fun c => O r c) cols)) rs rows rs_sum).
  symmetry. apply sumZ_swap.
Qed.

Lemma inject_Z_pos (z : Z) : (0 < z)%Z -> 0 < inject_Z z.
Proof. intros H. change 0 with (inject_Z 0). now rewrite <- Zlt_Qlt. Qed.

Lemma inject_Z_nonneg (z : Z) : (0 <= z)%Z -> 0 <= inject_Z z.
Proof. intros H. change 0 with (inject_Z 0). now rewrite <- Zle_Qle. Qed.

Lemma E_pos r c : In r rows -> In c cols -> 0 < E r c.
Proof.
  intros Hr Hc. unfold E. apply Qlt_shift_div_l.
  - now apply inject_Z_pos.
  - rewrite Qmult_0_l. apply inject_Z_pos.
    apply Z.mul_pos_pos; auto.
Qed.

Lemma term_nonneg o e : 0 < e -> 0 <= Scipy.term o e.
Proof.
  intros He. unfold Scipy.term. apply Qle_shift_div_l; [assumption|].
  rewrite Qmult_0_l. set (d := o - e). nra.
Qed.

Lemma term_adj_le o e : 0 < e -> Scipy.term (adj o e) e <= Scipy.term o e.
Proof.
  intros He. unfold Scipy.term. unfold Qdiv.
  apply Qmult_le_compat_r.
  - now apply adj_closer.
  - apply Qlt_le_weak. now apply Qinv_lt_0_compat.
Qed.

Lemma chi2_nonneg : 0 <= chi2.
Proof.
  unfold chi2. apply sumQ_nonneg. intros r Hr.
  apply sumQ_nonneg. intros c Hc. apply term_nonneg. now apply E_pos.
Qed.

(** Since a cell never exceeds its row total, a term of the statistic is
    at most [n * O / cs - 2 * O + E]. *)
Lemma term_le_col r c :
  In r rows -> In c cols ->
  Scipy.term (inject_Z (O r c)) (E r c) <=
  inject_Z n * inject_Z (O r c) / inject_Z (cs c)
  + (- (2) * inject_Z (O r c) + E r c).
Proof.
  intros Hr Hc. unfold Scipy.term, E.
  assert (HR : 0 < inject_Z (rs r)) by (apply inject_Z_pos; auto).
  assert (HC : 0 < inject_Z (cs c)) by (apply inject_Z_pos; auto).
  assert (HN : 0 < inject_Z n) by (apply inject_Z_pos; auto).
  assert (Ho : 0 <= inject_Z (O r c)) by (apply inject_Z_nonneg; auto).
  assert (HoR : inject_Z (O r c) <= inject_Z (rs r)).
  { rewrite <- Zle_Qle. rewrite <- (rs_sum r Hr).
    apply (sumZ_ge_elem (fun c0 => O r c0)); auto. }
  rewrite inject_Z_mult.
  set (o := inject_Z (O r c)) in *. set (R := inject_Z (rs r)) in *.
  set (Cc := inject_Z (cs c)) in *. set (N := inject_Z n) in *.
  assert (Hk : 0 < N / (R * Cc)).
  { apply Qlt_shift_div_l; [nra|]. lra. }
  assert (H1 : (o - R * Cc / N) * (o - R * Cc / N) / (R * Cc / N)
               == o * o * (N / (R * Cc)) + (- (2) * o + R * Cc / N)).
  { field. repeat split; lra. }
  assert (H2 : N * o / Cc == o * R * (N / (R * Cc))).
  { field. split; lra. }
  rewrite H1, H2.
  apply Qplus_le_l. apply Qmult_le_compat_r; [nra|lra].
Qed.

Lemma sum_O_total :
  sumQ (map (fun r => sumQ (map (fun c => inject_Z (O r c)) cols)) rows)
  == inject_Z n.
Proof.
  rewrite (sumQ_ext (fun r => sumQ (map (fun c => inject_Z (O r c)) cols))
                    (fun r => inject_Z (rs r))).
  - rewrite sumQ_inject. now rewrite n_sum.
  - intros r Hr. rewrite sumQ_inject, <- (rs_sum r Hr). reflexivity.
Qed.

Lemma sum_E_total :
  sumQ (map (fun r => sumQ (map (fun c => E r c) cols)) rows) == inject_Z n.
Proof.
  assert (HN : 0 < inject_Z n) by (apply inject_Z_pos; auto).
  rewrite (sumQ_ext (fun r => sumQ (map (fun c => E r c) cols))
                    (fun r => inject_Z (rs r))).
  - rewrite sumQ_inject. now rewrite n_sum.
  - intros r Hr. unfold E.
    rewrite (sumQ_ext (fun c => inject_Z (rs r * cs c) / inject_Z n)
                      (fun c => (inject_Z (rs r) / inject_Z n) * inject_Z (cs c))).
    + rewrite sumQ_scal, sumQ_inject, cs_total. field. lra.
    + intros c _. rewrite inject_Z_mult. field. lra.
Qed.

Lemma sum_ratio_total :
  sumQ (map (fun r => sumQ (map (fun c =>
    inject_Z n * inject_Z (O r c) / inject_Z (cs c)) cols)) rows)
  == inject_Z n * inject_Z (Z.of_nat (length cols)).
Proof.
  rewrite sumQ_swap.
  rewrite (sumQ_ext
    (fun c => sumQ (map (fun r => inject_Z n * inject_Z (O r c) / inject_Z (cs c)) rows))
    (fun _ => inject_Z n)).
  - rewrite sumQ_const. ring.
  - intros c Hc.
    assert (HC : 0 < inject_Z (cs c)) by (apply inject_Z_pos; auto).
    rewrite (sumQ_ext (fun r => inject_Z n * inject_Z (O r c) / inject_Z (cs c))
                      (fun r => (inject_Z n / inject_Z (cs c)) * inject_Z (O r c))).
    + rewrite sumQ_scal, (sumQ_inject (fun r => O r c)), (cs_sum c Hc). field. lra.
    + intros r _. field. lra.
Qed.

Theorem chi2_le_cols :
  chi2 <= inject_Z n * (inject_Z (Z.of_nat (length cols)) - 1).
Proof.
  unfold chi2.
  eapply Qle_trans.
  { apply sumQ_le. intros r Hr. apply sumQ_le. intros c Hc.
    eapply Qle_trans.
    - apply term_adj_le. now apply E_pos.
    - now apply term_le_col. }
  rewrite (sumQ_ext _ (fun r =>
      sumQ (map (fun c => inject_Z n * inject_Z (O r c) / inject_Z (cs c)) cols)
      + (- (2) * sumQ (map (fun c => inject_Z (O r c)) cols)
         + sumQ (map (fun c => E r c) cols)))).
  2:{ intros r _. rewrite sumQ_plus. apply Qplus_comp; [reflexivity|].
      rewrite sumQ_plus. apply Qplus_comp; [|reflexivity].
      apply sumQ_scal. }
  rewrite sumQ_plus, sumQ_plus, sumQ_scal.
  rewrite sum_ratio_total, sum_O_total, sum_E_total. ring_simplify. apply Qle_refl.
Qed.

End ChiSquareBound.

Lemma chi2_le_rows (A B : Type) (rows : list A) (cols : list B)
      (O : A -> B -> Z) (rs : A -> Z) (cs : B -> Z) (n : Z) (adj : Q -> Q -> Q) :
  (forall r c, (0 <= O r c)%Z) ->
  (forall r, In r rows -> sumZ (map (fun c => O r c) cols) = rs r) ->
  (forall c, In c cols -> sumZ (map (fun r => O r c) rows) = cs c) ->
  (forall r, In r rows -> (0 < rs r)%Z) ->
  (forall c, In c cols -> (0 < cs c)%Z) ->
  sumZ (map rs rows) = n ->
  (0 < n)%Z ->
  (forall o e, 0 < e -> (adj o e - e) * (adj o e - e) <= (o - e) * (o - e))%Q ->
  (sumQ (map (fun r => sumQ (map (fun c =>
     Scipy.term (adj (inject_Z (O r c)) (inject_Z (rs r * cs c) / inject_Z n))
                (inject_Z (rs r * cs c) / inject_Z n)) cols)) rows)
   <= inject_Z n * (inject_Z (Z.of_nat (length rows)) - 1))%Q.
Proof.
  intros HO Hrs Hcs Hrp Hcp Hn Hnp Hadj.
  rewrite sumQ_swap.
  assert (Hn' : sumZ (map cs cols) = n) by (eapply cs_total; eauto).
  pose proof (@chi2_le_cols B A cols rows (fun c r => O r c) cs rs n adj
                (fun c r => HO r c) Hcs Hrs Hcp Hrp Hn' Hnp Hadj) as H.
  eapply Qle_trans; [|exact H].
  apply sumQ_le. intros c _. apply sumQ_le. intros r _.
  rewrite (Z.mul_comm (rs r) (cs c)). apply Qle_refl.
Qed.

Lemma Qsq_le_between (a b : Q) :
  ((0 <= a /\ a <= b) \/ (b <= a /\ a <= 0) -> a * a <= b * b)%Q.
Proof. intros [[H1 H2]|[H1 H2]]; nra. Qed.

Lemma yates_closer (o e : Q) :
  ((Scipy.yates o e - e) * (Scipy.yates o e - e) <= (o - e) * (o - e))%Q.
Proof.
  apply Qsq_le_between.
  unfold Scipy.yates, Scipy.sign.
  set (d := (e - o)%Q).
  assert (Hd : (o - e == - d)%Q) by (unfold d; ring).
  assert (He : forall k, (o + k - e == k - d)%Q) by (intros k; unfold d; ring).
  rewrite He, Hd. clear He Hd.
  destruct (Qcompare_spec d 0) as [H0|H0|H0].
  - rewrite H0. simpl. rewrite Qmult_0_r. left. split; lra.
  - left. rewrite (Qabs_neg d) by lra.
    destruct (Q.min_spec (1 # 2) (- d)) as [[H1 Hm]|[H1 Hm]]; rewrite Hm; split; lra.
  - right. rewrite (Qabs_pos d) by lra.
    destruct (Q.min_spec (1 # 2) d) as [[H1 Hm]|[H1 Hm]]; rewrite Hm; split; lra.
Qed.

(** ** Distinct values of a series *)

Lemma insert_unique_In (a b : nat) (l : list nat) :
  In b (insert_unique a l) <-> b = a \/ In b l.
Proof.
  induction l as [|c l IH]; simpl.
  - intuition.
  - destruct (a <? c) eqn:Hlt; [simpl; intuition|].
    destruct (a =? c) eqn:Heq.
    + apply Nat.eqb_eq in Heq. subst c. simpl. intuition.
    + simpl. rewrite IH. intuition.
Qed.

Lemma unique_In (a : nat) (l : list nat) : In a (unique l) <-> In a l.
Proof.
  induction l as [|b l IH]; simpl; [reflexivity|].
  rewrite insert_unique_In, IH. intuition.
Qed.

Lemma insert_unique_sorted (a : nat) (l : list nat) :
  StronglySorted lt l -> StronglySorted lt (insert_unique a l).
Proof.
  induction 1 as [|c l Hs IH Hall]; simpl.
  - repeat constructor.
  - destruct (a <? c) eqn:Hlt.
    + apply Nat.ltb_lt in Hlt. constructor.
      * now constructor.
      * constructor; [assumption|].
        eapply Forall_impl; [|exact Hall]. intros; lia.
    + destruct (a =? c) eqn:Heq.
      * now constructor.
      * apply Nat.ltb_ge in Hlt. apply Nat.eqb_neq in Heq.
        constructor; [assumption|].
        apply Forall_forall. intros b Hb.
        apply insert_unique_In in Hb. destruct Hb as [->|Hb]; [lia|].
        rewrite Forall_forall in Hall. now apply Hall.
Qed.

Lemma unique_sorted (l : list nat) : StronglySorted lt (unique l).
Proof.
  induction l as [|a l IH]; simpl; [constructor|].
  now apply insert_unique_sorted.
Qed.

Lemma unique_NoDup (l : list nat) : NoDup (unique l).
Proof.
  generalize (unique_sorted l). generalize (unique l). clear l.
  induction 1 as [|a l Hs IH Hall]; constructor; [|assumption].
  intros Hin. rewrite Forall_forall in Hall. specialize (Hall a Hin). lia.
Qed.

Lemma unique_nil (l : list nat) : unique l = [] -> l = [].
Proof.
  destruct l as [|a l]; [reflexivity|]. intros H.
  assert (Hin : In a (unique (a :: l))) by (apply unique_In; now left).
  rewrite H in Hin. destruct Hin.
Qed.

Lemma nunique_one (s : Series) : nunique s = 1%nat <-> constant_series s.
Proof.
  unfold nunique, constant_series. split.
  - destruct (unique s) as [|v [|w u]] eqn:Hu; simpl; try discriminate.
    intros _. exists v. split.
    + apply unique_In. rewrite Hu. now left.
    + intros a Ha. apply unique_In in Ha. rewrite Hu in Ha.
      destruct Ha as [<-|[]]. reflexivity.
  - intros (v & Hv & Hall).
    pose proof (unique_NoDup s) as Hnd.
    destruct (unique s) as [|a [|b u]] eqn:Hu.
    + apply unique_In in Hv. rewrite Hu in Hv. destruct Hv.
    + reflexivity.
    + exfalso.
      assert (Ha : a = v) by (apply Hall, unique_In; rewrite Hu; simpl; auto).
      assert (Hb : b = v) by (apply Hall, unique_In; rewrite Hu; simpl; auto).
      subst. inversion Hnd as [|? ? Hn _]. apply Hn. now left.
Qed.

(** ** Counting the cells of a cross-tabulation *)

Lemma sum_indicator (l : list nat) (b : nat) :
  NoDup l -> In b l -> sumZ (map (fun c => indicator (c =? b)) l) = 1%Z.
Proof.
  induction 1 as [|c l Hn Hnd IH]; intros Hin; [destruct Hin|].
  simpl. fold (sumZ (map (fun c0 => indicator (c0 =? b)) l)).
  destruct Hin as [->|Hin].
  - rewrite Nat.eqb_refl. simpl.
    assert (H0 : sumZ (map (fun c0 => indicator (c0 =? b)) l) = 0%Z).
    { clear IH Hnd. induction l as [|d l IHl]; [reflexivity|].
      simpl. fold (sumZ (map (fun c0 => indicator (c0 =? b)) l)).
      destruct (d =? b) eqn:Hdb.
      - apply Nat.eqb_eq in Hdb. subst. exfalso. apply Hn. now left.
      - rewrite IHl; [reflexivity|]. intros H. apply Hn. now right. }
    rewrite H0. reflexivity.
  - destruct (c =? b) eqn:Hcb.
    + apply Nat.eqb_eq in Hcb. subst. contradiction.
    + rewrite IH by assumption. reflexivity.
Qed.

Lemma count_pair_row (r : nat) (cols : list nat) (obs : list (nat * nat)) :
  NoDup cols -> (forall p, In p obs -> In (snd p) cols) ->
  sumZ (map (fun c => count_pair r c obs) cols) = count_fst r obs.
Proof.
  intros Hnd. induction obs as [|p obs IH]; intros Hin.
  - unfold count_pair, count_fst. simpl.
    clear. induction cols; simpl; [reflexivity|]. now rewrite IHcols.
  - rewrite (sumZ_ext_in (fun c => count_pair r c (p :: obs))
       (fun c => (indicator (r =? fst p)%nat * indicator (c =? snd p)%nat
                  + count_pair r c obs)%Z)).
    + rewrite sumZ_plus, IH by (intros q Hq; apply Hin; now right).
      assert (Hs : sumZ (map (fun c => (indicator (r =? fst p)%nat * indicator (c =? snd p)%nat)%Z) cols)
                   = indicator (r =? fst p)).
      { destruct (r =? fst p); simpl.
        - rewrite <- (sum_indicator (snd p) Hnd) at 1 by (apply Hin; now left).
          apply sumZ_ext_in. intros c _. destruct (indicator (c =? snd p)); reflexivity.
        - clear. induction cols; simpl; [reflexivity|]. now rewrite IHcols. }
      rewrite Hs. unfold count_fst. simpl.
      destruct (r =? fst p); simpl length; unfold indicator; lia.
    + intros c _. unfold count_pair, pair_eqb. simpl.
      destruct (r =? fst p), (c =? snd p); simpl length; unfold indicator; lia.
Qed.

Lemma count_pair_col (c : nat) (rows : list nat) (obs : list (nat * nat)) :
  NoDup rows -> (forall p, In p obs -> In (fst p) rows) ->
  sumZ (map (fun r => count_pair r c obs) rows) = count_snd c obs.
Proof.
  intros Hnd. induction obs as [|p obs IH]; intros Hin.
  - unfold count_pair, count_snd. simpl.
    clear. induction rows; simpl; [reflexivity|]. now rewrite IHrows.
  - rewrite (sumZ_ext_in (fun r => count_pair r c (p :: obs))
       (fun r => (indicator (r =? fst p)%nat * indicator (c =? snd p)%nat
                  + count_pair r c obs)%Z)).
    + rewrite sumZ_plus, IH by (intros q Hq; apply Hin; now right).
      assert (Hs : sumZ (map (fun r => (indicator (r =? fst p)%nat * indicator (c =? snd p)%nat)%Z) rows)
                   = indicator (c =? snd p)).
      { destruct (c =? snd p); simpl.
        - rewrite <- (sum_indicator (fst p) Hnd) at 1 by (apply Hin; now left).
          apply sumZ_ext_in. intros r _. lia.
        - clear. induction rows as [|r rows IHr]; simpl; [reflexivity|].
          fold (sumZ (map (fun r0 => (indicator (r0 =? fst p)%nat * 0)%Z) rows)).
          rewrite IHr. lia. }
      rewrite Hs. unfold count_snd. simpl.
      destruct (c =? snd p); simpl length; unfold indicator; lia.
    + intros r _. unfold count_pair, pair_eqb. simpl.
      destruct (r =? fst p), (c =? snd p); simpl length; unfold indicator; lia.
Qed.

Lemma count_fst_total (rows : list nat) (obs : list (nat * nat)) :
  NoDup rows -> (forall p, In p obs -> In (fst p) rows) ->
  sumZ (map (fun r => count_fst r obs) rows) = Z.of_nat (length obs).
Proof.
  intros Hnd. induction obs as [|p obs IH]; intros Hin.
  - unfold count_fst. simpl.
    clear. induction rows; simpl; [reflexivity|]. now rewrite IHrows.
  - rewrite (sumZ_ext_in (fun r => count_fst r (p :: obs))
       (fun r => (indicator (r =? fst p)%nat + count_fst r obs)%Z)).
    + rewrite sumZ_plus, IH by (intros q Hq; apply Hin; now right).
      rewrite (sum_indicator (fst p) Hnd) by (apply Hin; now left).
      simpl length. lia.
    + intros r _. unfold count_fst. simpl.
      destruct (r =? fst p); simpl length; unfold indicator; lia.
Qed.

Lemma count_fst_pos (r : nat) (obs : list (nat * nat)) :
  In r (map fst obs) -> (0 < count_fst r obs)%Z.
Proof.
  unfold count_fst. induction obs as [|p obs IH]; simpl; [intros []|].
  intros [<-|Hin].
  - rewrite Nat.eqb_refl. simpl length. lia.
  - destruct (r =? fst p); simpl length; [lia|]. now apply IH.
Qed.

Lemma count_snd_pos (c : nat) (obs : list (nat * nat)) :
  In c (map snd obs) -> (0 < count_snd c obs)%Z.
Proof.
  unfold count_snd. induction obs as [|p obs IH]; simpl; [intros []|].
  intros [<-|Hin].
  - rewrite Nat.eqb_refl. simpl length. lia.
  - destruct (c =? snd p); simpl length; [lia|]. now apply IH.
Qed.

Lemma count_pair_nonneg (r c : nat) (obs : list (nat * nat)) :
  (0 <= count_pair r c obs)%Z.
Proof. unfold count_pair. lia. Qed.

(** ** The cross-tabulation of two series *)

Section Crosstab.

Variables x y : Series.

Let obs := combine x y.
Let rows := unique (map fst obs).
Let cols := unique (map snd obs).
Let n := Z.of_nat (length obs).

Hypothesis nonempty : obs <> [].

Lemma crosstab_rows_nonempty : rows <> [].
Proof.
  intros H. apply unique_nil in H. apply nonempty.
  destruct obs; [reflexivity|discriminate].
Qed.

Lemma crosstab_cols_nonempty : cols <> [].
Proof.
  intros H. apply unique_nil in H. apply nonempty.
  destruct obs; [reflexivity|discriminate].
Qed.

Lemma crosstab_fst_in_rows p : In p obs -> In (fst p) rows.
Proof. intros H. apply unique_In. now apply in_map. Qed.

Lemma crosstab_snd_in_cols p : In p obs -> In (snd p) cols.
Proof. intros H. apply unique_In. now apply in_map. Qed.

Lemma obs_count_pos : (0 < n)%Z.
Proof. unfold n. destruct obs; [contradiction|simpl length; lia]. Qed.

Lemma crosstab_row_sums :
  Scipy.row_sums (values (crosstab x y)) = map (fun r => count_fst r obs) rows.
Proof.
  unfold crosstab. cbn [values]. rewrite row_sums_tab.
  apply map_ext. intros r. apply count_pair_row.
  - apply unique_NoDup.
  - apply crosstab_snd_in_cols.
Qed.

Lemma crosstab_col_sums :
  Scipy.col_sums (values (crosstab x y)) = map (fun c => count_snd c obs) cols.
Proof.
  unfold crosstab. cbn [values]. rewrite col_sums_tab by apply crosstab_rows_nonempty.
  apply map_ext. intros c. apply count_pair_col.
  - apply unique_NoDup.
  - apply crosstab_fst_in_rows.
Qed.

Lemma crosstab_total : Scipy.total (values (crosstab x y)) = n.
Proof.
  unfold Scipy.total. rewrite crosstab_row_sums.
  apply count_fst_total; [apply unique_NoDup | apply crosstab_fst_in_rows].
Qed.

Lemma crosstab_sum_sum : sum_sum (crosstab x y) = n.
Proof. apply crosstab_total. Qed.

Lemma crosstab_expected :
  Scipy.expected_freq (values (crosstab x y)) =
  map (fun r => map (fun c => expected_count obs r c) cols) rows.
Proof.
  unfold Scipy.expected_freq.
  rewrite crosstab_row_sums, crosstab_col_sums, crosstab_total, map_map.
  apply map_ext. intros r. now rewrite map_map.
Qed.

Lemma crosstab_shape : shape (crosstab x y) = (length rows, length cols).
Proof. reflexivity. Qed.

Lemma crosstab_size :
  Scipy.size (values (crosstab x y)) =
  (Z.of_nat (length rows) * Z.of_nat (length cols))%Z.
Proof.
  unfold Scipy.size, crosstab. cbn [values]. rewrite length_map.
  pose proof crosstab_rows_nonempty as Hr. fold obs rows cols.
  destruct rows as [|r rs]; [congruence|]. simpl hd. now rewrite length_map.
Qed.

Lemma crosstab_dof :
  Scipy.dof (values (crosstab x y)) =
  ((Z.of_nat (length rows) - 1) * (Z.of_nat (length cols) - 1))%Z.
Proof.
  unfold Scipy.dof. rewrite crosstab_size.
  unfold Scipy.size, crosstab. cbn [values]. rewrite length_map.
  pose proof crosstab_rows_nonempty as Hr. fold obs rows cols.
  destruct rows as [|r rs]; [congruence|]. simpl hd. rewrite length_map. lia.
Qed.

Lemma expected_count_pos r c :
  In r rows -> In c cols -> (0 < expected_count obs r c)%Q.
Proof.
  intros Hr Hc. unfold expected_count. apply Qlt_shift_div_l.
  - apply inject_Z_pos, obs_count_pos.
  - rewrite Qmult_0_l. apply inject_Z_pos. apply Z.mul_pos_pos.
    + apply count_fst_pos. now apply unique_In.
    + apply count_snd_pos. now apply unique_In.
Qed.

Lemma crosstab_no_negative : Scipy.any_negative (values (crosstab x y)) = false.
Proof.
  unfold Scipy.any_negative, crosstab. cbn [values].
  apply not_true_is_false. intros H.
  apply existsb_exists in H. destruct H as (row & Hrow & H).
  apply in_map_iff in Hrow. destruct Hrow as (r & <- & _).
  apply existsb_exists in H. destruct H as (v & Hv & H).
  apply in_map_iff in Hv. destruct Hv as (c & <- & _).
  apply Z.ltb_lt in H. pose proof (count_pair_nonneg r c (combine x y)). lia.
Qed.

Lemma crosstab_no_zero :
  Scipy.any_zero (Scipy.expected_freq (values (crosstab x y))) = false.
Proof.
  rewrite crosstab_expected. unfold Scipy.any_zero.
  apply not_true_is_false. intros H.
  apply existsb_exists in H. destruct H as (row & Hrow & H).
  apply in_map_iff in Hrow. destruct Hrow as (r & <- & Hr).
  apply existsb_exists in H. destruct H as (v & Hv & H).
  apply in_map_iff in Hv. destruct Hv as (c & <- & Hc).
  apply Qeq_bool_iff in H. pose proof (expected_count_pos r c Hr Hc). lra.
Qed.

Lemma crosstab_lengths_pos : (1 <= length rows /\ 1 <= length cols)%nat.
Proof.
  pose proof crosstab_rows_nonempty. pose proof crosstab_cols_nonempty.
  destruct rows, cols; simpl; try congruence; lia.
Qed.

Theorem chi2_contingency_crosstab :
  Scipy.chi2_contingency (values (crosstab x y)) = Some (chi2_statistic x y).
Proof.
  unfold Scipy.chi2_contingency.
  rewrite crosstab_no_negative, crosstab_size, crosstab_no_zero, crosstab_dof.
  destruct crosstab_lengths_pos as [Hr Hc].
  unfold chi2_statistic, nunique. fold obs rows cols.
  destruct (Z.eqb_spec (Z.of_nat (length rows) * Z.of_nat (length cols)) 0) as [H0|_];
    [nia|].
  destruct (Nat.eqb_spec (length rows) 1) as [R1|R1].
  { rewrite R1. simpl. reflexivity. }
  destruct (Nat.eqb_spec (length cols) 1) as [C1|C1].
  { rewrite C1. simpl orb. cbv iota. rewrite Z.mul_0_r. reflexivity. }
  simpl orb. cbv iota.
  destruct (Z.eqb_spec ((Z.of_nat (length rows) - 1) * (Z.of_nat (length cols) - 1)) 0)
    as [H0|_]; [nia|].
  rewrite crosstab_expected.
  destruct (Z.eqb_spec ((Z.of_nat (length rows) - 1) * (Z.of_nat (length cols) - 1)) 1)
    as [H1|H1].
  - assert (length rows = 2 /\ length cols = 2)%nat as [R2 C2] by nia.
    rewrite R2, C2. simpl andb. cbv iota.
    unfold yates_chi_squared, chi_squared_with. fold obs rows cols.
    unfold Scipy.to_float, crosstab. cbn [values]. fold obs rows cols.
    rewrite map_map.
    rewrite (map_ext _ (fun r => map (fun c => inject_Z (count_pair r c obs)) cols))
      by (intros r; now rewrite map_map).
    rewrite combine_map, map_map. cbn [fst snd].
    rewrite (map_ext _ (fun r => map (fun c =>
               Scipy.yates (inject_Z (count_pair r c obs)) (expected_count obs r c)) cols))
      by (intros r; now rewrite zip_with_map).
    now rewrite pearson_tab.
  - assert (Hne : ((length rows =? 2) && (length cols =? 2))%nat = false).
    { apply andb_false_iff.
      destruct (Nat.eqb_spec (length rows) 2) as [R2|]; [|now left].
      destruct (Nat.eqb_spec (length cols) 2) as [C2|]; [|now right].
      exfalso. apply H1. rewrite R2, C2. reflexivity. }
    rewrite Hne.
    unfold pearson_chi_squared, chi_squared_with. fold obs rows cols.
    unfold Scipy.to_float, crosstab. cbn [values]. fold obs rows cols.
    rewrite map_map.
    rewrite (map_ext _ (fun r => map (fun c => inject_Z (count_pair r c obs)) cols))
      by (intros r; now rewrite map_map).
    now rewrite pearson_tab.
Qed.

Section Bounds.

Variable adj : Q -> Q -> Q.
Hypothesis adj_closer :
  forall o e, (0 < e -> (adj o e - e) * (adj o e - e) <= (o - e) * (o - e))%Q.

Lemma chi_squared_with_nonneg : (0 <= chi_squared_with adj x y)%Q.
Proof.
  unfold chi_squared_with. fold obs rows cols.
  apply sumQ_nonneg. intros r Hr. apply sumQ_nonneg. intros c Hc.
  apply term_nonneg. now apply expected_count_pos.
Qed.

Lemma chi_squared_with_le_cols :
  (chi_squared_with adj x y <= inject_Z n * (inject_Z (Z.of_nat (length cols)) - 1))%Q.
Proof.
  unfold chi_squared_with. fold obs rows cols. unfold expected_count. fold n.
  apply (@chi2_le_cols nat nat rows cols (fun r c => count_pair r c obs)
           (fun r => count_fst r obs) (fun c => count_snd c obs) n adj).
  - intros r c. apply count_pair_nonneg.
  - intros r _. apply count_pair_row; [apply unique_NoDup | apply crosstab_snd_in_cols].
  - intros c _. apply count_pair_col; [apply unique_NoDup | apply crosstab_fst_in_rows].
  - intros r Hr. apply count_fst_pos. now apply unique_In.
  - intros c Hc. apply count_snd_pos. now apply unique_In.
  - apply count_fst_total; [apply unique_NoDup | apply crosstab_fst_in_rows].
  - apply obs_count_pos.
  - apply adj_closer.
Qed.

Lemma chi_squared_with_le_rows :
  (chi_squared_with adj x y <= inject_Z n * (inject_Z (Z.of_nat (length rows)) - 1))%Q.
Proof.
  unfold chi_squared_with. fold obs rows cols. unfold expected_count. fold n.
  apply (@chi2_le_rows nat nat rows cols (fun r c => count_pair r c obs)
           (fun r => count_fst r obs) (fun c => count_snd c obs) n adj).
  - intros r c. apply count_pair_nonneg.
  - intros r _. apply count_pair_row; [apply unique_NoDup | apply crosstab_snd_in_cols].
  - intros c _. apply count_pair_col; [apply unique_NoDup | apply crosstab_fst_in_rows].
  - intros r Hr. apply count_fst_pos. now apply unique_In.
  - intros c Hc. apply count_snd_pos. now apply unique_In.
  - apply count_fst_total; [apply unique_NoDup | apply crosstab_fst_in_rows].
  - apply obs_count_pos.
  - apply adj_closer.
Qed.

End Bounds.

Lemma chi2_statistic_nonneg : (0 <= chi2_statistic x y)%Q.
Proof.
  unfold chi2_statistic.
  destruct (_ || _); [apply Qle_refl|].
  destruct (_ && _).
  - apply chi_squared_with_nonneg.
  - apply chi_squared_with_nonneg.
Qed.

(** Cramer's bound: the statistic is at most [n * (min(rows, cols) - 1)]. *)
Theorem chi2_statistic_le :
  (chi2_statistic x y <=
   inject_Z n * (inject_Z (Z.of_nat (Nat.min (length rows) (length cols))) - 1))%Q.
Proof.
  destruct crosstab_lengths_pos as [Hr Hc].
  assert (Hn : (0 < inject_Z n)%Q) by apply inject_Z_pos, obs_count_pos.
  assert (Hm : (1 <= Nat.min (length rows) (length cols))%nat) by lia.
  unfold chi2_statistic, nunique. fold obs rows cols.
  destruct (_ || _).
  { apply Qmult_le_0_compat; [lra|].
    assert (inject_Z 1 <= inject_Z (Z.of_nat (Nat.min (length rows) (length cols))))%Q
      by (rewrite <- Zle_Qle; lia).
    change (inject_Z 1) with 1%Q in *. lra. }
  assert (Hboth : forall adj,
    (forall o e, (0 < e -> (adj o e - e) * (adj o e - e) <= (o - e) * (o - e))%Q) ->
    (chi_squared_with adj x y <=
     inject_Z n * (inject_Z (Z.of_nat (Nat.min (length rows) (length cols))) - 1))%Q).
  { intros adj Hadj.
    destruct (Nat.min_spec (length rows) (length cols)) as [[_ ->]|[_ ->]].
    - now apply chi_squared_with_le_rows.
    - now apply chi_squared_with_le_cols. }
  destruct (_ && _).
  - apply Hboth. intros o e _. apply yates_closer.
  - apply Hboth. intros o e _. apply Qle_refl.
Qed.

End Crosstab.

(** ** Effect sizes *)

Lemma combine_fst (A B : Type) (x : list A) (y : list B) :
  length x = length y -> map fst (combine x y) = x.
Proof.
  revert y. induction x as [|a x IH]; intros [|b y] H; simpl in *; try discriminate.
  - reflexivity.
  - f_equal. apply IH. lia.
Qed.

Lemma combine_snd (A B : Type) (x : list A) (y : list B) :
  length x = length y -> map snd (combine x y) = y.
Proof.
  revert y. induction x as [|a x IH]; intros [|b y] H; simpl in *; try discriminate.
  - reflexivity.
  - f_equal. apply IH. lia.
Qed.

Lemma combine_nonempty (A B : Type) (x : list A) (y : list B) :
  length x = length y -> x <> [] -> combine x y <> [].
Proof. destruct x, y; simpl; intros; congruence. Qed.

Lemma combine_length_eq (A B : Type) (x : list A) (y : list B) :
  length x = length y -> length (combine x y) = length x.
Proof. intros H. rewrite length_combine. lia. Qed.

Lemma Q2R_0_div (q : Q) : Q2R (0 / q) = 0%R.
Proof.
  rewrite (Qeq_eqR (0 / q) 0).
  - apply RMicromega.Q2R_0.
  - unfold Qdiv. apply Qmult_0_l.
Qed.

(** The value computed by [cramers_v] on non-empty observations. *)
Lemma cramers_v_obs (x y : Series) :
  combine x y <> [] ->
  let n := Z.of_nat (length (combine x y)) in
  let min_dim := min_dim_of (crosstab x y) in
  cramers_v x y =
  Some (if (min_dim =? 0)%Z then 0%R
        else sqrt (Q2R (chi2_statistic x y / inject_Z (n * min_dim)))).
Proof.
  intros Hne n min_dim. unfold cramers_v.
  rewrite chi2_contingency_crosstab by assumption. simpl bind.
  rewrite crosstab_sum_sum by assumption. fold min_dim.
  now destruct (min_dim =? 0)%Z.
Qed.

Lemma phi_coefficient_obs (x y : Series) :
  combine x y <> [] ->
  phi_coefficient x y =
  Some (sqrt (Q2R (chi2_statistic x y
                   / inject_Z (Z.of_nat (length (combine x y)))))).
Proof.
  intros Hne. unfold phi_coefficient.
  rewrite chi2_contingency_crosstab by assumption. simpl bind.
  now rewrite crosstab_sum_sum by assumption.
Qed.

Lemma min_dim_of_crosstab (x y : Series) :
  length x = length y ->
  min_dim_of (crosstab x y) =
  (Z.of_nat (Nat.min (nunique x) (nunique y)) - 1)%Z.
Proof.
  intros H. unfold min_dim_of, shape, crosstab, nunique. cbn [index columns fst snd].
  now rewrite combine_fst, combine_snd by assumption.
Qed.

Lemma nunique_pos (s : Series) : s <> [] -> (1 <= nunique s)%nat.
Proof.
  intros H. unfold nunique. destruct (unique s) eqn:E; [|simpl; lia].
  apply unique_nil in E. contradiction.
Qed.

Lemma min_dim_zero_iff (x y : Series) :
  x <> [] -> y <> [] ->
  (Z.of_nat (Nat.min (nunique x) (nunique y)) - 1 = 0)%Z <->
  constant_series x \/ constant_series y.
Proof.
  intros Hx Hy. rewrite <- !nunique_one.
  pose proof (nunique_pos Hx). pose proof (nunique_pos Hy). lia.
Qed.

Lemma Q2R_inject_Z (z : Z) : Q2R (inject_Z z) = IZR z.
Proof. unfold Q2R, inject_Z. simpl. field. Qed.

Lemma sqrt_Q2R_le_1 (q : Q) : (0 <= q <= 1)%Q -> (0 <= sqrt (Q2R q) <= 1)%R.
Proof.
  intros [H0 H1]. split; [apply sqrt_pos|].
  rewrite <- sqrt_1. apply sqrt_le_1.
  - rewrite <- RMicromega.Q2R_0. now apply Qle_Rle.
  - lra.
  - rewrite <- RMicromega.Q2R_1. now apply Qle_Rle.
Qed.

Section EffectSizeBounds.

Variables x y : Series.
Hypothesis same_length : length x = length y.
Hypothesis nonempty : x <> [].

Let N : Z := Z.of_nat (length x).
Let min_dim : Z := (Z.of_nat (Nat.min (nunique x) (nunique y)) - 1)%Z.

Lemma obs_nonempty : combine x y <> [].
Proof. now apply combine_nonempty. Qed.

Lemma N_pos : (0 < N)%Z.
Proof. unfold N. destruct x; [contradiction|simpl length; lia]. Qed.

Lemma min_dim_nonneg : (0 <= min_dim)%Z.
Proof.
  unfold min_dim. pose proof (nunique_pos nonempty).
  assert (y <> []) by (destruct x, y; simpl in *; congruence).
  pose proof (@nunique_pos y H0). lia.
Qed.

Lemma chi2_statistic_le_N_min_dim :
  (chi2_statistic x y <= inject_Z (N * min_dim))%Q.
Proof.
  pose proof (@chi2_statistic_le x y obs_nonempty) as H.
  rewrite combine_fst, combine_snd, combine_length_eq in H by assumption.
  unfold N, min_dim, nunique.
  rewrite inject_Z_mult. unfold Z.sub. rewrite inject_Z_plus.
  exact H.
Qed.

Lemma cramers_radicand_range :
  min_dim <> 0%Z ->
  (0 <= chi2_statistic x y / inject_Z (N * min_dim) <= 1)%Q.
Proof.
  intros Hmd.
  assert (Hpos : (0 < inject_Z (N * min_dim))%Q).
  { apply inject_Z_pos. pose proof N_pos. pose proof min_dim_nonneg. nia. }
  split.
  - apply Qle_shift_div_l; [assumption|]. rewrite Qmult_0_l.
    apply chi2_statistic_nonneg, obs_nonempty.
  - apply Qle_shift_div_r; [assumption|]. rewrite Qmult_1_l.
    apply chi2_statistic_le_N_min_dim.
Qed.

Lemma phi_radicand_range :
  (0 <= chi2_statistic x y / inject_Z N <= inject_Z min_dim)%Q.
Proof.
  assert (Hpos : (0 < inject_Z N)%Q) by apply inject_Z_pos, N_pos.
  split.
  - apply Qle_shift_div_l; [assumption|]. rewrite Qmult_0_l.
    apply chi2_statistic_nonneg, obs_nonempty.
  - apply Qle_shift_div_r; [assumption|].
    rewrite Qmult_comm, <- inject_Z_mult. apply chi2_statistic_le_N_min_dim.
Qed.

End EffectSizeBounds.

Lemma constant_series_nonempty (s : Series) : constant_series s -> s <> [].
Proof. intros (v & Hv & _) ->. destruct Hv. Qed.

Lemma same_length_nonempty (A B : Type) (x : list A) (y : list B) :
  length x = length y -> (x <> [] <-> y <> []).
Proof. destruct x, y; simpl; split; intros; congruence. Qed.

(** ** Order statistics and percentiles *)

Lemma insert_perm (a : R) (l : list R) : Permutation (Numpy.insert a l) (a :: l).
Proof.
  induction l as [|b l IH]; simpl; [reflexivity|].
  destruct (Rle_dec a b); [reflexivity|].
  rewrite IH. apply perm_swap.
Qed.

Lemma sort_perm (l : list R) : Permutation (Numpy.sort l) l.
Proof.
  induction l as [|a l IH]; simpl; [reflexivity|].
  rewrite insert_perm. now constructor.
Qed.

Lemma sort_length (l : list R) : length (Numpy.sort l) = length l.
Proof. apply Permutation_length, sort_perm. Qed.

Lemma insert_sorted (a : R) (l : list R) :
  StronglySorted Rle l -> StronglySorted Rle (Numpy.insert a l).
Proof.
  induction 1 as [|b l Hs IH Hall]; simpl.
  - repeat constructor.
  - destruct (Rle_dec a b) as [Hab|Hab].
    + constructor; [now constructor|].
      constructor; [assumption|].
      eapply Forall_impl; [|exact Hall]. intros c Hc. simpl in Hc. lra.
    + constructor; [assumption|].
      apply Forall_forall. intros c Hc.
      apply (Permutation_in _ (insert_perm a l)) in Hc.
      destruct Hc as [<-|Hc]; [lra|].
      rewrite Forall_forall in Hall. now apply Hall.
Qed.

Lemma sort_sorted (l : list R) : StronglySorted Rle (Numpy.sort l).
Proof.
  induction l as [|a l IH]; simpl; [constructor|]. now apply insert_sorted.
Qed.

Lemma sorted_nth_le (s : list R) (i j : nat) :
  StronglySorted Rle s -> (i <= j)%nat -> (j < length s)%nat ->
  (nth i s 0 <= nth j s 0)%R.
Proof.
  intros Hs. revert i j. induction Hs as [|a s Hs IH Hall]; intros i j Hij Hj.
  - simpl in Hj. lia.
  - destruct i as [|i], j as [|j]; simpl in *; try lia.
    + lra.
    + rewrite Forall_forall in Hall. apply Hall. apply nth_In. lia.
    + apply IH; lia.
Qed.

Lemma sort_nth_in (l : list R) (i : nat) :
  (i < length l)%nat -> In (nth i (Numpy.sort l) 0%R) l.
Proof.
  intros Hi. apply (Permutation_in _ (sort_perm l)).
  apply nth_In. now rewrite sort_length.
Qed.

Section Interpolate.

Variable s : list R.
Hypothesis s_sorted : StronglySorted Rle s.
Hypothesis s_nonempty : s <> [].

Let last_index : Z := Z.of_nat (length s - 1).

Lemma interpolate_length_pos : (0 < length s)%nat.
Proof. destruct s; [contradiction|simpl; lia]. Qed.

Lemma interpolate_between (v : Q) :
  (0 <= v <= inject_Z last_index)%Q ->
  let previous := Qfloor v in
  let next := Z.min (previous + 1) last_index in
  (nth (Z.to_nat previous) s 0 <= Numpy.interpolate s v <= nth (Z.to_nat next) s 0)%R.
Proof.
  intros [H0 H1] previous next.
  pose proof interpolate_length_pos as Hlen.
  assert (Hp : (0 <= previous <= last_index)%Z).
  { unfold previous, last_index. split.
    - change 0%Z with (Qfloor 0). now apply Qfloor_resp_le.
    - rewrite <- (Qfloor_Z (Z.of_nat (length s - 1))). now apply Qfloor_resp_le. }
  assert (Hg : (0 <= Q2R (v - inject_Z previous) < 1)%R).
  { pose proof (Qfloor_le v) as Hf1. pose proof (Qlt_floor v) as Hf2.
    rewrite inject_Z_plus in Hf2. change (inject_Z 1) with 1%Q in Hf2.
    fold previous in Hf1, Hf2. split.
    - rewrite <- RMicromega.Q2R_0. apply Qle_Rle. lra.
    - rewrite <- RMicromega.Q2R_1. apply Qlt_Rlt. lra. }
  assert (Hle : (nth (Z.to_nat previous) s 0 <= nth (Z.to_nat next) s 0)%R).
  { apply sorted_nth_le; [assumption| |]; unfold next, last_index in *; lia. }
  unfold Numpy.interpolate. fold previous. fold last_index. fold next.
  set (lo := nth (Z.to_nat previous) s 0%R) in *.
  set (hi := nth (Z.to_nat next) s 0%R) in *.
  set (g := Q2R (v - inject_Z previous)) in *.
  split; nra.
Qed.

Lemma interpolate_mono (v1 v2 : Q) :
  (0 <= v1)%Q -> (v1 <= v2)%Q -> (v2 <= inject_Z last_index)%Q ->
  (Numpy.interpolate s v1 <= Numpy.interpolate s v2)%R.
Proof.
  intros H0 H12 H2.
  pose proof interpolate_length_pos as Hlen.
  assert (Hr1 : (0 <= v1 <= inject_Z last_index)%Q) by (split; lra).
  assert (Hr2 : (0 <= v2 <= inject_Z last_index)%Q) by (split; lra).
  pose proof (interpolate_between Hr1) as [_ Hup].
  pose proof (interpolate_between Hr2) as [Hlow _].
  assert (Hp1 : (0 <= Qfloor v1)%Z)
    by (change 0%Z with (Qfloor 0); now apply Qfloor_resp_le).
  assert (Hp2 : (Qfloor v2 <= last_index)%Z).
  { unfold last_index. rewrite <- (Qfloor_Z (Z.of_nat (length s - 1))).
    now apply Qfloor_resp_le. }
  assert (Hp12 : (Qfloor v1 <= Qfloor v2)%Z) by now apply Qfloor_resp_le.
  destruct (Z.eq_dec (Qfloor v1) (Qfloor v2)) as [Heq|Hneq].
  - unfold Numpy.interpolate. rewrite <- Heq. fold last_index.
    assert (Hle : (nth (Z.to_nat (Qfloor v1)) s 0
                   <= nth (Z.to_nat (Z.min (Qfloor v1 + 1) last_index)) s 0)%R).
    { apply sorted_nth_le; [assumption| |]; unfold last_index in *; lia. }
    assert (Hg : (Q2R (v1 - inject_Z (Qfloor v1)) <= Q2R (v2 - inject_Z (Qfloor v1)))%R).
    { apply Qle_Rle. lra. }
    set (lo := nth (Z.to_nat (Qfloor v1)) s 0%R) in *.
    set (hi := nth (Z.to_nat (Z.min (Qfloor v1 + 1) last_index)) s 0%R) in *.
    nra.
  - eapply Rle_trans; [exact Hup|]. eapply Rle_trans; [|exact Hlow].
    apply sorted_nth_le; [assumption| |]; unfold last_index in *; lia.
Qed.

Lemma interpolate_in_range (v : Q) (m M : R) :
  (0 <= v <= inject_Z last_index)%Q ->
  (forall a, In a s -> (m <= a <= M)%R) ->
  (m <= Numpy.interpolate s v <= M)%R.
Proof.
  intros Hv Hall.
  pose proof interpolate_length_pos as Hlen.
  pose proof (interpolate_between Hv) as [Hlow Hup].
  assert (Hp : (0 <= Qfloor v <= last_index)%Z).
  { destruct Hv as [H0 H1]. unfold last_index. split.
    - change 0%Z with (Qfloor 0). now apply Qfloor_resp_le.
    - rewrite <- (Qfloor_Z (Z.of_nat (length s - 1))). now apply Qfloor_resp_le. }
  assert (H1 : In (nth (Z.to_nat (Qfloor v)) s 0%R) s)
    by (apply nth_In; unfold last_index in *; lia).
  assert (H2 : In (nth (Z.to_nat (Z.min (Qfloor v + 1) last_index)) s 0%R) s)
    by (apply nth_In; unfold last_index in *; lia).
  apply Hall in H1. apply Hall in H2. lra.
Qed.

End Interpolate.

Lemma interpolate_Qeq (s : list R) (v v' : Q) :
  (v == v')%Q -> Numpy.interpolate s v = Numpy.interpolate s v'.
Proof.
  intros H. unfold Numpy.interpolate.
  rewrite (Qfloor_comp _ _ H).
  now rewrite (Qeq_eqR (v - inject_Z (Qfloor v')) (v' - inject_Z (Qfloor v')))
    by (rewrite H; reflexivity).
Qed.

(** ** Percentiles *)

Lemma percentile_defined (a : list R) (q : Q) :
  a <> [] -> (0 <= q <= 100)%Q ->
  Numpy.percentile a q =
  Some (Numpy.interpolate (Numpy.sort a)
          (inject_Z (Z.of_nat (length a - 1)) * (q / 100))%Q).
Proof.
  intros Ha [H0 H1]. unfold Numpy.percentile.
  apply Qle_bool_iff in H0, H1. rewrite H0, H1. simpl.
  destruct a; [contradiction|reflexivity].
Qed.

Lemma percentile_Qeq (a : list R) (q q' : Q) :
  (q == q')%Q -> Numpy.percentile a q = Numpy.percentile a q'.
Proof.
  intros H. unfold Numpy.percentile.
  assert (Hb : Qle_bool 0 q && Qle_bool q 100 = Qle_bool 0 q' && Qle_bool q' 100).
  { destruct (Qle_bool 0 q) eqn:E1, (Qle_bool 0 q') eqn:E2,
             (Qle_bool q 100) eqn:E3, (Qle_bool q' 100) eqn:E4; simpl; try reflexivity;
    exfalso;
    repeat match goal with
    | H : Qle_bool _ _ = true |- _ => apply Qle_bool_iff in H
    | H : Qle_bool _ _ = false |- _ =>
        apply not_true_iff_false in H; rewrite Qle_bool_iff in H
    end; lra. }
  rewrite Hb. destruct (Qle_bool 0 q' && Qle_bool q' 100); [|reflexivity].
  destruct a; [reflexivity|]. f_equal. apply interpolate_Qeq.
  now rewrite H.
Qed.

Lemma sort_nonempty (a : list R) : a <> [] -> Numpy.sort a <> [].
Proof.
  intros Ha Hs. apply Ha. apply length_zero_iff_nil.
  rewrite <- sort_length, Hs. reflexivity.
Qed.

Lemma percentile_virtual_range (n : nat) (q : Q) :
  (0 <= q <= 100)%Q ->
  (0 <= inject_Z (Z.of_nat (n - 1)) * (q / 100) <= inject_Z (Z.of_nat (n - 1)))%Q.
Proof.
  intros Hq.
  assert (H : (0 <= inject_Z (Z.of_nat (n - 1)))%Q) by (apply inject_Z_nonneg; lia).
  assert (Ht : (0 <= q / 100 <= 1)%Q).
  { split; [apply Qle_shift_div_l|apply Qle_shift_div_r]; lra. }
  set (m := inject_Z (Z.of_nat (n - 1))) in *. set (t := (q / 100)%Q) in *.
  split; nra.
Qed.

Lemma percentile_mono (a : list R) (q1 q2 : Q) :
  a <> [] -> (0 <= q1)%Q -> (q1 <= q2)%Q -> (q2 <= 100)%Q ->
  exists lo hi, Numpy.percentile a q1 = Some lo /\
                Numpy.percentile a q2 = Some hi /\ (lo <= hi)%R.
Proof.
  intros Ha H0 H12 H2.
  rewrite !percentile_defined by (try assumption; split; lra).
  eexists. eexists. split; [reflexivity|]. split; [reflexivity|].
  assert (Hq1 : (0 <= q1 <= 100)%Q) by (split; lra).
  assert (Hq2 : (0 <= q2 <= 100)%Q) by (split; lra).
  destruct (percentile_virtual_range (length a) Hq1) as [Hv0 _].
  destruct (percentile_virtual_range (length a) Hq2) as [_ Hv2].
  apply interpolate_mono.
  - apply sort_sorted.
  - now apply sort_nonempty.
  - exact Hv0.
  - assert (H : (0 <= inject_Z (Z.of_nat (length a - 1)))%Q)
      by (apply inject_Z_nonneg; lia).
    assert (Ht : (q1 / 100 <= q2 / 100)%Q).
    { unfold Qdiv. apply Qmult_le_compat_r; [assumption|]. discriminate. }
    set (m := inject_Z (Z.of_nat (length a - 1))) in *.
    set (t1 := (q1 / 100)%Q) in *. set (t2 := (q2 / 100)%Q) in *. nra.
  - now rewrite sort_length.
Qed.

Lemma percentile_in_range (a : list R) (q : Q) (m M : R) :
  a <> [] -> (0 <= q <= 100)%Q ->
  (forall v, In v a -> (m <= v <= M)%R) ->
  exists p, Numpy.percentile a q = Some p /\ (m <= p <= M)%R.
Proof.
  intros Ha Hq Hall. rewrite percentile_defined by assumption.
  eexists. split; [reflexivity|].
  apply interpolate_in_range.
  - apply sort_sorted.
  - now apply sort_nonempty.
  - rewrite sort_length. now apply percentile_virtual_range.
  - intros v Hv. apply Hall. now apply (Permutation_in _ (sort_perm a)).
Qed.

(** ** Positional selection *)

Lemma mapM_some (A B : Type) (f : A -> option B) (g : A -> B) (l : list A) :
  (forall a, In a l -> f a = Some (g a)) -> mapM f l = Some (map g l).
Proof.
  induction l as [|a l IH]; intros H; simpl; [reflexivity|].
  rewrite (H a) by now left. simpl.
  rewrite IH by (intros b Hb; apply H; now right). reflexivity.
Qed.

Lemma iloc_in_range (s : Series) (indices : list nat) :
  Forall (fun i => (i < length s)%nat) indices ->
  iloc s indices = Some (map (fun i => nth i s 0%nat) indices).
Proof.
  intros H. unfold iloc. apply mapM_some. intros i Hi.
  rewrite Forall_forall in H. now apply nth_error_nth'; apply H.
Qed.

(** Both series are read at the same positions: a resampled pair is an
    observed pair. *)
Lemma resample_pairs (x y : Series) (indices : list nat) :
  length x = length y ->
  Forall (fun i => (i < length x)%nat) indices ->
  combine (map (fun i => nth i x 0%nat) indices)
          (map (fun i => nth i y 0%nat) indices)
  = map (fun i => nth i (combine x y) (0%nat, 0%nat)) indices.
Proof.
  intros Hlen H. rewrite combine_map. apply map_ext_in. intros i Hi.
  now rewrite combine_nth.
Qed.

Lemma resample_incl (s : Series) (indices : list nat) :
  Forall (fun i => (i < length s)%nat) indices ->
  incl (map (fun i => nth i s 0%nat) indices) s.
Proof.
  intros H a Ha. apply in_map_iff in Ha. destruct Ha as (i & <- & Hi).
  rewrite Forall_forall in H. apply nth_In. now apply H.
Qed.

Lemma nunique_incl (s t : Series) : incl s t -> (nunique s <= nunique t)%nat.
Proof.
  intros H. unfold nunique. apply NoDup_incl_length.
  - apply unique_NoDup.
  - intros a Ha. apply unique_In. apply H. now apply unique_In.
Qed.

(** ** The resampling loop *)

Section BootstrapLoop.

Context {RS : Numpy.RandomState}.

Variables x y : Series.
Hypothesis same_length : length x = length y.

Lemma v_boot_value (min_dim : Z) (indices : list nat) :
  x <> [] -> valid_indices x indices ->
  v_boot x y min_dim indices = Some (resampled_statistic x y min_dim indices).
Proof.
  intros Hx [Hlen Hall]. unfold v_boot, resampled_statistic.
  rewrite (iloc_in_range x Hall).
  rewrite (iloc_in_range y) by now rewrite <- same_length.
  cbn [bind].
  rewrite chi2_contingency_crosstab; [reflexivity|].
  apply combine_nonempty; [now rewrite !length_map|].
  destruct indices; [|discriminate].
  simpl in Hlen. destruct x; [contradiction|discriminate].
Qed.

Lemma resampled_statistic_range (indices : list nat) :
  x <> [] -> valid_indices x indices ->
  let min_dim := (Z.of_nat (Nat.min (nunique x) (nunique y)) - 1)%Z in
  (0 <= resampled_statistic x y min_dim indices <= 1)%R.
Proof.
  intros Hx [Hlen Hall] min_dim. unfold resampled_statistic.
  destruct (Z.ltb_spec 0 min_dim) as [Hmd|Hmd]; [|lra].
  set (xb := map (fun i => nth i x 0%nat) indices).
  set (yb := map (fun i => nth i y 0%nat) indices).
  assert (Hlb : length xb = length yb) by (unfold xb, yb; now rewrite !length_map).
  assert (Hxb : xb <> []).
  { unfold xb. destruct indices; [|discriminate].
    simpl in Hlen. destruct x; [contradiction|discriminate]. }
  apply sqrt_Q2R_le_1.
  assert (HN : (0 < Z.of_nat (length x))%Z) by (destruct x; [contradiction|simpl length; lia]).
  assert (Hpos : (0 < inject_Z (Z.of_nat (length x) * min_dim))%Q)
    by (apply inject_Z_pos; nia).
  split.
  - apply Qle_shift_div_l; [assumption|]. rewrite Qmult_0_l.
    apply chi2_statistic_nonneg. now apply combine_nonempty.
  - apply Qle_shift_div_r; [assumption|]. rewrite Qmult_1_l.
    eapply Qle_trans; [apply (@chi2_statistic_le_N_min_dim xb yb Hlb Hxb)|].
    rewrite <- Zle_Qle.
    assert (Hl : length xb = length x) by (unfold xb; now rewrite length_map).
    rewrite Hl.
    assert (Hrx : (nunique xb <= nunique x)%nat)
      by (apply nunique_incl, resample_incl; assumption).
    assert (Hry : (nunique yb <= nunique y)%nat).
    { apply nunique_incl, resample_incl. now rewrite <- same_length. }
    unfold min_dim. pose proof (nunique_pos Hxb).
    assert (yb <> []) by now apply (same_length_nonempty xb yb Hlb).
    pose proof (@nunique_pos yb H0).
    apply Z.mul_le_mono_nonneg_l; lia.
Qed.

Lemma bootstrap_loop_draws (k : nat) (min_dim : Z) (st : Numpy.rng_state) :
  bootstrap_loop k x y min_dim st =
  (r <- draw_resamples k (length x) st ;;
   vs <- mapM (v_boot x y min_dim) (fst r) ;;
   Some (vs, snd r)).
Proof.
  revert st. induction k as [|k IH]; intros st; simpl; [reflexivity|].
  destruct (Numpy.choice (length x) (length x) st) as [[idx st1]|]; simpl;
    [|reflexivity].
  rewrite IH.
  destruct (draw_resamples k (length x) st1) as [[rest st2]|]; simpl.
  - destruct (v_boot x y min_dim idx); simpl; [|reflexivity].
    destruct (mapM (v_boot x y min_dim) rest); reflexivity.
  - destruct (v_boot x y min_dim idx); reflexivity.
Qed.

Hypothesis choice_ok : Numpy.choice_returns RS.

Lemma draw_resamples_total (k : nat) (st : Numpy.rng_state) :
  x <> [] ->
  exists rs st', draw_resamples k (length x) st = Some (rs, st') /\
                 length rs = k /\ Forall (valid_indices x) rs.
Proof.
  intros Hx.
  assert (HN : (0 < length x)%nat) by (destruct x; [contradiction|simpl; lia]).
  revert st. induction k as [|k IH]; intros st; simpl.
  - exists [], st. repeat split. constructor.
  - destruct (choice_ok (length x) st HN) as (idx & st1 & Hc & Hl & Hall).
    rewrite Hc. simpl.
    destruct (IH st1) as (rs & st2 & Hd & Hlen & Hv).
    rewrite Hd. simpl. exists (idx :: rs), st2. repeat split.
    + simpl. now rewrite Hlen.
    + constructor; [split; assumption|assumption].
Qed.

Lemma bootstrap_loop_total (k : nat) (min_dim : Z) (st : Numpy.rng_state) :
  x <> [] ->
  exists rs st', draw_resamples k (length x) st = Some (rs, st') /\
                 length rs = k /\ Forall (valid_indices x) rs /\
                 bootstrap_loop k x y min_dim st =
                 Some (map (resampled_statistic x y min_dim) rs, st').
Proof.
  intros Hx.
  destruct (draw_resamples_total k st Hx) as (rs & st' & Hd & Hlen & Hv).
  exists rs, st'. repeat split; try assumption.
  rewrite bootstrap_loop_draws, Hd. simpl.
  rewrite (mapM_some (v_boot x y min_dim) (resampled_statistic x y min_dim)).
  - reflexivity.
  - intros idx Hidx. rewrite Forall_forall in Hv. apply v_boot_value; auto.
Qed.

End BootstrapLoop.

(** ** Counting the values above a bound *)

Lemma count_above_perm (b : R) (l l' : list R) :
  Permutation l l' -> count_above b l = count_above b l'.
Proof.
  unfold count_above. induction 1; simpl.
  - reflexivity.
  - destruct (Rlt_dec b x); simpl; now rewrite IHPermutation.
  - destruct (Rlt_dec b x), (Rlt_dec b y); reflexivity.
  - congruence.
Qed.

Lemma count_above_all (b : R) (l : list R) :
  (forall v, In v l -> (b < v)%R) -> count_above b l = length l.
Proof.
  unfold count_above. induction l as [|a l IH]; intros H; simpl; [reflexivity|].
  destruct (Rlt_dec b a) as [_|Hn].
  - simpl. f_equal. apply IH. intros v Hv. apply H. now right.
  - exfalso. apply Hn, H. now left.
Qed.

Lemma count_above_app (b : R) (l1 l2 : list R) :
  count_above b (l1 ++ l2) = (count_above b l1 + count_above b l2)%nat.
Proof. unfold count_above. now rewrite filter_app, length_app. Qed.

(** In a sorted list, a value above the bound at position [i] leaves at
    least [length s - i] values above it. *)
Lemma count_above_sorted (b : R) (s : list R) (i : nat) :
  StronglySorted Rle s -> (i < length s)%nat -> (b < nth i s 0)%R ->
  (length s - i <= count_above b s)%nat.
Proof.
  intros Hs Hi Hb.
  rewrite <- (firstn_skipn i s) at 2. rewrite count_above_app.
  rewrite (@count_above_all b (skipn i s)).
  - rewrite length_skipn. lia.
  - intros v Hv. apply In_nth with (d := 0%R) in Hv.
    destruct Hv as (j & Hj & <-). rewrite length_skipn in Hj.
    rewrite nth_skipn.
    eapply Rlt_le_trans; [exact Hb|].
    apply sorted_nth_le; [assumption|lia|lia].
Qed.

Lemma count_above_map (A : Type) (f : A -> R) (small : A -> bool) (b : R)
      (l : list A) :
  (forall a, In a l -> small a = true -> (f a <= b)%R) ->
  (count_above b (map f l) <= length (filter (fun a => negb (small a)) l))%nat.
Proof.
  unfold count_above. induction l as [|a l IH]; intros H; simpl; [lia|].
  assert (IH' : (length (filter (fun v => if Rlt_dec b v then true else false) (map f l))
                 <= length (filter (fun a => negb (small a)) l))%nat)
    by (apply IH; intros a0 Ha0; apply H; now right).
  destruct (Rlt_dec b (f a)) as [Hlt|_].
  - destruct (small a) eqn:Hs; simpl.
    + exfalso. assert (f a <= b)%R by (apply H; [now left|assumption]). lra.
    + lia.
  - destruct (small a); simpl; lia.
Qed.

(** With at most [k] values above [b], the order statistics below
    position [length - k] are at most [b]. *)
Lemma sorted_nth_le_bound (b : R) (l : list R) (i k : nat) :
  (count_above b l <= k)%nat -> (i + k < length l)%nat ->
  (nth i (Numpy.sort l) 0 <= b)%R.
Proof.
  intros Hc Hi. destruct (Rle_lt_dec (nth i (Numpy.sort l) 0%R) b) as [H|H];
    [assumption|exfalso].
  pose proof (@count_above_sorted b (Numpy.sort l) i (sort_sorted l)) as Hs.
  rewrite sort_length in Hs.
  rewrite (@count_above_perm b _ _ (sort_perm l)) in Hs.
  specialize (Hs ltac:(lia) H). lia.
Qed.

(** ** The confidence interval *)

Section ConfidenceInterval.

Context {RS : Numpy.RandomState}.

Variables x y : Series.
Variable confidence : Q.
Hypothesis same_length : length x = length y.
Hypothesis nonempty : x <> [].

Let N : Z := Z.of_nat (length x).
Let min_dim : Z := (Z.of_nat (Nat.min (nunique x) (nunique y)) - 1)%Z.
Let alpha : Q := ((1 - confidence) / 2)%Q.

Lemma draw_resamples_length (k n : nat) (st st' : Numpy.rng_state)
      (rs : list (list nat)) :
  draw_resamples k n st = Some (rs, st') -> length rs = k.
Proof.
  revert st rs. induction k as [|k IH]; intros st rs; simpl.
  - intros H. now inversion H.
  - destruct (Numpy.choice n n st) as [[idx st1]|]; simpl; [|discriminate].
    destruct (draw_resamples k n st1) as [[rest st2]|] eqn:E; simpl; [|discriminate].
    intros H. inversion H. subst. simpl. f_equal. eapply IH. eassumption.
Qed.

(** The degenerate table: no seeding, no draw. *)
Lemma cramers_v_with_ci_degenerate (st : Numpy.rng_state) :
  min_dim = 0%Z ->
  cramers_v_with_ci x y confidence st = Some ((0%R, (0%R, 0%R)), st).
Proof.
  intros Hmd. unfold cramers_v_with_ci.
  rewrite chi2_contingency_crosstab by now apply combine_nonempty.
  cbn [bind]. rewrite (min_dim_of_crosstab x y same_length).
  fold min_dim. now rewrite Hmd.
Qed.

(** The bootstrap path, for the index lists that the random state hands
    out after seeding. *)
Lemma cramers_v_with_ci_bootstrap (st st' : Numpy.rng_state)
      (rs : list (list nat)) :
  min_dim <> 0%Z ->
  (0 <= confidence <= 1)%Q ->
  draw_resamples 1000 (length x) (Numpy.seed 42) = Some (rs, st') ->
  Forall (valid_indices x) rs ->
  let v_bootstrap := map (resampled_statistic x y min_dim) rs in
  exists ci_lower ci_upper,
    Numpy.percentile v_bootstrap (alpha * 100) = Some ci_lower /\
    Numpy.percentile v_bootstrap ((1 - alpha) * 100) = Some ci_upper /\
    (ci_lower <= ci_upper)%R /\
    cramers_v_with_ci x y confidence st =
    Some ((sqrt (Q2R (chi2_statistic x y / inject_Z (N * min_dim))),
           (ci_lower, ci_upper)), st').
Proof.
  intros Hmd Hc Hd Hv v_bootstrap.
  assert (Hlen : length rs = 1000%nat) by (eapply draw_resamples_length; eauto).
  assert (Hne : v_bootstrap <> []).
  { unfold v_bootstrap. destruct rs; [discriminate|discriminate]. }
  assert (Ha : (0 <= alpha * 100 /\ alpha * 100 <= (1 - alpha) * 100
                /\ (1 - alpha) * 100 <= 100)%Q).
  { assert (Hal : (alpha == (1 - confidence) * (1 # 2))%Q) by (unfold alpha; field).
    destruct Hc. set (a := alpha) in *. repeat split; lra. }
  destruct Ha as (Ha0 & Ha1 & Ha2).
  destruct (percentile_mono Hne Ha0 Ha1 Ha2) as (lo & hi & Hlo & Hhi & Hle).
  exists lo, hi. repeat split; try assumption.
  unfold cramers_v_with_ci.
  rewrite chi2_contingency_crosstab by now apply combine_nonempty.
  cbn [bind]. rewrite (min_dim_of_crosstab x y same_length).
  rewrite crosstab_sum_sum, combine_length_eq by assumption.
  fold min_dim N.
  destruct (Z.eqb_spec min_dim 0) as [H0|_]; [contradiction|].
  rewrite bootstrap_loop_draws, Hd. cbn [bind fst snd].
  rewrite (mapM_some (v_boot x y min_dim) (resampled_statistic x y min_dim)).
  - cbn [bind fst snd]. fold v_bootstrap. fold alpha.
    rewrite Hlo, Hhi. reflexivity.
  - intros idx Hidx. rewrite Forall_forall in Hv. apply v_boot_value; auto.
Qed.

End ConfidenceInterval.

(** ** A total random source *)

Lemma LCG_draws_spec (a size : nat) (s : Z) :
  (0 < a)%nat ->
  length (fst (LCG.draws a size s)) = size /\
  Forall (fun i => (i < a)%nat) (fst (LCG.draws a size s)).
Proof.
  intros Ha. revert s. induction size as [|size IH]; intros s; simpl.
  - split; [reflexivity|constructor].
  - destruct (LCG.draws a size (LCG.next s)) as [l s''] eqn:E.
    specialize (IH (LCG.next s)). rewrite E in IH. simpl in *.
    destruct IH as [IH1 IH2]. split; [now rewrite IH1|].
    constructor; [|assumption].
    pose proof (Z.mod_pos_bound (LCG.next s) (Z.of_nat a)). lia.
Qed.

Lemma LCG_choice_returns : Numpy.choice_returns LCG_RandomState.
Proof.
  intros a size st Ha. simpl. unfold LCG.choice.
  destruct (Nat.eqb_spec a 0) as [->|_]; [lia|]. simpl.
  exists (fst (LCG.draws a size st)), (snd (LCG.draws a size st)).
  split; [now destruct (LCG.draws a size st)|].
  now apply LCG_draws_spec.
Qed.

Lemma check_indices_valid (x : Series) (indices : list nat) :
  check_indices x indices = true -> valid_indices x indices.
Proof.
  unfold check_indices, valid_indices. intros H.
  apply andb_true_iff in H. destruct H as [H1 H2].
  apply Nat.eqb_eq in H1. split; [assumption|].
  apply Forall_forall. intros i Hi.
  rewrite forallb_forall in H2. apply Nat.ltb_lt. now apply H2.
Qed.

(** A resample with at most [k] distinct values has a small statistic. *)
Lemma resampled_statistic_few (x y : Series) (min_dim : Z) (k : nat)
      (indices : list nat) :
  length x = length y -> x <> [] -> valid_indices x indices ->
  (0 < min_dim)%Z -> (1 <= k)%nat ->
  (nunique (map (fun i => nth i x 0%nat) indices) <= k)%nat ->
  (resampled_statistic x y min_dim indices
   <= sqrt (Q2R (inject_Z (Z.of_nat k - 1) / inject_Z min_dim)))%R.
Proof.
  intros Hlen Hx [Hl Hall] Hmd Hk Hfew. unfold resampled_statistic.
  destruct (Z.ltb_spec 0 min_dim) as [_|]; [|lia].
  set (xb := map (fun i => nth i x 0%nat) indices) in *.
  set (yb := map (fun i => nth i y 0%nat) indices).
  assert (Hlb : length xb = length yb) by (unfold xb, yb; now rewrite !length_map).
  assert (Hxb : xb <> []).
  { unfold xb. destruct indices; [|discriminate].
    simpl in Hl. destruct x; [contradiction|discriminate]. }
  assert (HN : (0 < Z.of_nat (length x))%Z)
    by (destruct x; [contradiction|simpl length; lia]).
  assert (Hpos : (0 < inject_Z (Z.of_nat (length x) * min_dim))%Q)
    by (apply inject_Z_pos; nia).
  assert (Hmdq : (0 < inject_Z min_dim)%Q) by now apply inject_Z_pos.
  assert (Hq : (chi2_statistic xb yb / inject_Z (Z.of_nat (length x) * min_dim)
                <= inject_Z (Z.of_nat k - 1) / inject_Z min_dim)%Q).
  { apply Qle_shift_div_r; [assumption|].
    eapply Qle_trans; [apply (@chi2_statistic_le_N_min_dim xb yb Hlb Hxb)|].
    assert (Hl' : length xb = length x) by (unfold xb; now rewrite length_map).
    rewrite Hl'.
    assert (Hm : (Z.of_nat (Nat.min (nunique xb) (nunique yb)) - 1 <= Z.of_nat k - 1)%Z)
      by lia.
    rewrite !inject_Z_mult.
    assert (Hm' : (inject_Z (Z.of_nat (Nat.min (nunique xb) (nunique yb)) - 1)
                   <= inject_Z (Z.of_nat k - 1))%Q) by now rewrite <- Zle_Qle.
    assert (Hn' : (0 < inject_Z (Z.of_nat (length x)))%Q) by now apply inject_Z_pos.
    set (a := inject_Z (Z.of_nat (Nat.min (nunique xb) (nunique yb)) - 1)) in *.
    set (b := inject_Z (Z.of_nat k - 1)) in *.
    set (n := inject_Z (Z.of_nat (length x))) in *.
    set (m := inject_Z min_dim) in *.
    assert (E : (b / m * (n * m) == n * b)%Q) by (field; lra).
    rewrite E. nra. }
  apply sqrt_le_1.
  - rewrite <- RMicromega.Q2R_0. apply Qle_Rle.
    apply Qle_shift_div_l; [assumption|]. rewrite Qmult_0_l.
    apply chi2_statistic_nonneg. now apply combine_nonempty.
  - rewrite <- RMicromega.Q2R_0. apply Qle_Rle.
    apply Qle_shift_div_l; [assumption|]. rewrite Qmult_0_l.
    apply inject_Z_nonneg. lia.
  - now apply Qle_Rle.
Qed.

(** ** The generator against its reference outputs *)

Example mt19937_reference_output :
  fst (MT19937.mt19937_next (MT19937.mt19937_seed 5489)) = 3499211612%Z.
Proof. vm_compute. reflexivity. Qed.

Example seed_42_first_output :
  fst (MT19937.mt19937_next (MT19937.mt19937_seed 42)) = 1608637542%Z.
Proof. vm_compute. reflexivity. Qed.

Example seed_42_choice_10 :
  option_map fst (MT19937.choice 10 10 (MT19937.mt19937_seed 42))
  = Some [6; 3; 7; 4; 6; 9; 2; 6; 7; 4]%nat.
Proof. vm_compute. reflexivity. Qed.

Example seed_42_choice_100 :
  option_map fst (MT19937.choice 100 10 (MT19937.mt19937_seed 42))
  = Some [51; 92; 14; 71; 60; 20; 82; 86; 74; 74]%nat.
Proof. vm_compute. reflexivity. Qed.

Lemma mt_resamples_seven :
  check_resamples (seq 0 7) 7 25
    (@draw_resamples MT19937_RandomState 1000 7 (MT19937.mt19937_seed 42)) = true.
Proof. vm_compute. reflexivity. Qed.

(** ** The effect-size matrix *)

Lemma mapM_length (A B : Type) (f : A -> option B) (l : list A) (l' : list B) :
  mapM f l = Some l' -> length l' = length l.
Proof.
  revert l'. induction l as [|a l IH]; intros l'; simpl.
  - intros H. now inversion H.
  - destruct (f a) as [b|]; simpl; [|discriminate].
    destruct (mapM f l) as [bs|]; simpl; [|discriminate].
    intros H. inversion H. simpl. f_equal. now apply IH.
Qed.

Lemma mapM_nth (A B : Type) (f : A -> option B) (l : list A) (l' : list B)
      (i : nat) (da : A) (db : B) :
  mapM f l = Some l' -> (i < length l)%nat ->
  f (nth i l da) = Some (nth i l' db).
Proof.
  revert l' i. induction l as [|a l IH]; intros l' i; simpl.
  - intros _ H. lia.
  - destruct (f a) as [b|] eqn:Ea; simpl; [|discriminate].
    destruct (mapM f l) as [bs|] eqn:El; simpl; [|discriminate].
    intros H Hi. inversion H. subst l'.
    destruct i as [|i]; simpl; [assumption|]. apply IH; [reflexivity|lia].
Qed.

Lemma mapM_total (A B : Type) (f : A -> option B) (l : list A) :
  (forall a, In a l -> f a <> None) -> mapM f l <> None.
Proof.
  induction l as [|a l IH]; intros H; simpl; [discriminate|].
  destruct (f a) as [b|] eqn:Ea; [|exfalso; apply (H a); [now left|assumption]].
  simpl. destruct (mapM f l) as [bs|] eqn:El; simpl; [discriminate|].
  exfalso. apply IH; [|reflexivity]. intros a' Ha'. apply H. now right.
Qed.

Section MatrixBuilder.

Variable df : Frame.
Variable variables : list String.string.
Variable effect_func : Series -> Series -> option R.

Let n_vars := length variables.

Lemma build_cell (M : list (list R)) (i j : nat) :
  build_effect_size_matrix df variables effect_func = Some M ->
  (i < n_vars)%nat -> (j < n_vars)%nat ->
  effect_cell df variables effect_func i j = Some (cell_at M i j).
Proof.
  intros HM Hi Hj. unfold build_effect_size_matrix in HM. fold n_vars in HM.
  pose proof (@mapM_nth _ _ _ _ _ i 0%nat [] HM) as Hrow.
  rewrite length_seq, seq_nth in Hrow by assumption. simpl in Hrow.
  specialize (Hrow Hi).
  pose proof (@mapM_nth _ _ _ _ _ j 0%nat 0%R Hrow) as Hc.
  rewrite length_seq, seq_nth in Hc by assumption. simpl in Hc.
  now apply Hc.
Qed.

Lemma build_shape (M : list (list R)) :
  build_effect_size_matrix df variables effect_func = Some M ->
  length M = n_vars /\ forall i, (i < n_vars)%nat -> length (nth i M []) = n_vars.
Proof.
  intros HM. unfold build_effect_size_matrix in HM. fold n_vars in HM. split.
  - rewrite (mapM_length _ _ HM). apply length_seq.
  - intros i Hi.
    pose proof (@mapM_nth _ _ _ _ _ i 0%nat [] HM) as Hrow.
    rewrite length_seq, seq_nth in Hrow by assumption. simpl in Hrow.
    specialize (Hrow Hi). rewrite (mapM_length _ _ Hrow). apply length_seq.
Qed.

End MatrixBuilder.

Example diagonal_not_computed :
  build_effect_size_matrix (fun _ => Some [0; 1]%nat) ["a"; "b"]%string
                           (fun _ _ => Some 0%R)
  = Some [[1; 0]; [0; 1]]%R.
Proof. reflexivity. Qed.

(** ** The chord layouts *)

Lemma cell_map (A B : Type) (f : A -> B) (da : A) (db : B)
      (m : list (list A)) (i j : nat) :
  (i < length m)%nat -> (j < length (nth i m []))%nat ->
  Chord.cell db (map (map f) m) i j = f (Chord.cell da m i j).
Proof.
  intros Hi Hj. unfold Chord.cell.
  rewrite (nth_indep _ [] (map f []))
    by (rewrite length_map; assumption).
  rewrite map_nth. rewrite (nth_indep _ db (f da)) by now rewrite length_map.
  apply map_nth.
Qed.

Lemma cell_default (A : Type) (d : A) (m : list (list A)) (i j : nat) :
  ~ ((i < length m)%nat /\ (j < length (nth i m []))%nat) ->
  Chord.cell d m i j = d.
Proof.
  intros H. unfold Chord.cell.
  destruct (Nat.lt_ge_cases j (length (nth i m []))) as [Hj|Hj].
  - destruct (Nat.lt_ge_cases i (length m)) as [Hi|Hi]; [tauto|].
    rewrite (nth_overflow m) in Hj by assumption. simpl in Hj. lia.
  - now apply nth_overflow.
Qed.

Lemma cell_in (A : Type) (d : A) (m : list (list A)) (i j : nat) :
  (i < length m)%nat -> (j < length (nth i m []))%nat ->
  In (Chord.cell d m i j) (concat m).
Proof.
  intros Hi Hj. apply in_concat. exists (nth i m []). split.
  - now apply nth_In.
  - now apply nth_In.
Qed.

Lemma Qmax_cases (a b : Q) : Qmax a b = a \/ Qmax a b = b.
Proof.
  unfold Qmax, GenericMinMax.gmax. destruct (a ?= b); auto.
Qed.

Lemma fold_Qmax_spec (l : list Q) (a : Q) :
  In (fold_left Qmax l a) (a :: l) /\
  forall b, In b (a :: l) -> (b <= fold_left Qmax l a)%Q.
Proof.
  revert a. induction l as [|c l IH]; intros a; simpl.
  - split; [now left|]. intros b [<-|[]]. apply Qle_refl.
  - destruct (IH (Qmax a c)) as [Hin Hle]. split.
    + destruct Hin as [Hin|Hin]; [|now right; right].
      rewrite <- Hin. destruct (Qmax_cases a c) as [E|E]; rewrite E; simpl; auto.
    + intros b Hb.
      assert (Hmax : (b <= Qmax a c)%Q \/ In b l).
      { destruct Hb as [<-|[<-|Hb]]; [left; apply Q.le_max_l
                                       |left; apply Q.le_max_r|now right]. }
      destruct Hmax as [Hm|Hm].
      * eapply Qle_trans; [exact Hm|]. apply Hle. now left.
      * apply Hle. now right.
Qed.

Lemma max_list_spec (l : list Q) (m : Q) :
  Chord.max_list l = Some m ->
  In m l /\ forall b, In b l -> (b <= m)%Q.
Proof.
  destruct l as [|a l]; simpl; [discriminate|].
  intros H. inversion H. subst m. apply fold_Qmax_spec.
Qed.

Lemma fold_Zmax_spec (l : list Z) (a : Z) :
  In (fold_left Z.max l a) (a :: l) /\
  forall b, In b (a :: l) -> (b <= fold_left Z.max l a)%Z.
Proof.
  revert a. induction l as [|c l IH]; intros a; simpl.
  - split; [now left|]. intros b [<-|[]]. lia.
  - destruct (IH (Z.max a c)) as [Hin Hle]. split.
    + destruct Hin as [Hin|Hin]; [|now right; right].
      rewrite <- Hin. destruct (Z.max_spec a c) as [[_ E]|[_ E]]; rewrite E; simpl; auto.
    + intros b Hb.
      assert (Hmax : (b <= Z.max a c)%Z \/ In b l).
      { destruct Hb as [<-|[<-|Hb]]; [left; lia|left; lia|now right]. }
      destruct Hmax as [Hm|Hm].
      * eapply Z.le_trans; [exact Hm|]. apply Hle. now left.
      * apply Hle. now right.
Qed.

Lemma maxZ_list_spec (l : list Z) (m : Z) :
  Chord.maxZ_list l = Some m ->
  In m l /\ forall b, In b l -> (b <= m)%Z.
Proof.
  destruct l as [|a l]; simpl; [discriminate|].
  intros H. inversion H. subst m. apply fold_Zmax_spec.
Qed.

(** Every cell of a row or column is counted in the size of its node. *)
Lemma node_sizes_nth (t : DataFrame) (k : nat) :
  (k < length (index t) + length (columns t))%nat ->
  nth k (Chord.node_sizes t) 0%Z =
  if (k <? length (index t))%nat then sumZ (nth k (values t) [])
  else sumZ (map (fun row => nth (k - length (index t)) row 0%Z) (values t)).
Proof.
  intros Hk. unfold Chord.node_sizes.
  set (f := fun i : nat => if (i <? length (index t))%nat
                           then sumZ (nth i (values t) [])
                           else sumZ (map (fun row => nth (i - length (index t)) row 0%Z)
                                          (values t))).
  change (nth k (map f (seq 0 (length (index t) + length (columns t)))) 0%Z = f k).
  rewrite (nth_indep _ 0%Z (f 0%nat)) by (rewrite length_map, length_seq; lia).
  rewrite map_nth, seq_nth by lia. reflexivity.
Qed.

Lemma arctan2_range (y x : R) : (- PI < Network.arctan2 y x <= PI)%R.
Proof.
  pose proof PI_RGT_0 as Hpi. unfold Network.arctan2.
  destruct (Rlt_dec 0 x) as [Hx|Hx].
  - pose proof (atan_bound (y / x)). lra.
  - destruct (Rlt_dec x 0) as [Hx'|Hx'].
    + pose proof (atan_bound (y / x)) as Hb.
      destruct (Rle_dec 0 y) as [Hy|Hy].
      * assert (Hq : (y / x <= 0)%R).
        { assert (/ x < 0)%R by now apply Rinv_lt_0_compat.
          unfold Rdiv. nra. }
        assert (atan (y / x) <= 0)%R.
        { destruct Hq as [Hq|Hq].
          - apply Rlt_le. rewrite <- atan_0. now apply atan_increasing.
          - rewrite Hq, atan_0. lra. }
        lra.
      * assert (Hq : (0 < y / x)%R).
        { assert (/ x < 0)%R by now apply Rinv_lt_0_compat.
          unfold Rdiv. nra. }
        assert (0 < atan (y / x))%R
          by (rewrite <- atan_0; now apply atan_increasing).
        lra.
    + destruct (Rlt_dec 0 y); [lra|]. destruct (Rlt_dec y 0); lra.
Qed.

Lemma text_angle_range (x y : R) : (-180 < Network.text_angle x y <= 180)%R.
Proof.
  pose proof PI_RGT_0 as Hpi. pose proof (arctan2_range y x) as [Hlo Hhi].
  unfold Network.text_angle. set (a := Network.arctan2 y x) in *.
  replace (a * 180 / PI)%R with (a / PI * 180)%R by (field; lra).
  assert (-1 < a / PI <= 1)%R.
  { split.
    - apply Rmult_lt_reg_r with PI; [assumption|].
      unfold Rdiv. rewrite Rmult_assoc, Rinv_l by lra. lra.
    - apply Rmult_le_reg_r with PI; [assumption|].
      unfold Rdiv. rewrite Rmult_assoc, Rinv_l by lra. lra. }
  lra.
Qed.

Lemma degrees_gt_180 (angle : R) :
  (180 < Chord.degrees angle <-> PI < angle)%R.
Proof.
  pose proof PI_RGT_0 as Hpi. unfold Chord.degrees.
  replace (angle * 180 / PI)%R with (angle / PI * 180)%R by (field; lra).
  split; intros H.
  - assert (1 < angle / PI)%R by lra.
    apply Rmult_lt_compat_r with (r := PI) in H0; [|assumption].
    unfold Rdiv in H0. rewrite Rmult_assoc, Rinv_l in H0 by lra. lra.
  - assert (1 < angle / PI)%R.
    { apply Rmult_lt_reg_r with PI; [assumption|].
      unfold Rdiv. rewrite Rmult_assoc, Rinv_l by lra. lra. }
    lra.
Qed.

Lemma label_rotation_cases (angle : R) :
  (180 < Chord.degrees angle ->
   Chord.label_rotation angle = Chord.degrees angle + 180)%R /\
  (Chord.degrees angle <= 180 ->
   Chord.label_rotation angle = Chord.degrees angle)%R.
Proof.
  unfold Chord.label_rotation. split; intros H.
  - apply degrees_gt_180 in H. destruct (Rlt_dec PI angle); [reflexivity|lra].
  - destruct (Rlt_dec PI angle) as [Hlt|]; [|reflexivity].
    apply degrees_gt_180 in Hlt. lra.
Qed.


Example crosstab_example :
  values (crosstab [1; 0; 1; 2]%nat [5; 5; 7; 5]%nat) = [[1; 0]; [1; 1]; [1; 0]]%Z.
Proof. reflexivity. Qed.

(* ================================================================== *)
(** * Further properties *)
(* ================================================================== *)

(** ** Exchanging the two series *)

Lemma combine_swap (x y : Series) : combine y x = map swap_pair (combine x y).
Proof.
  revert y. induction x as [|a x IH]; intros [|b y]; simpl; try reflexivity.
  now rewrite IH.
Qed.

Lemma map_fst_swap (l : list (nat * nat)) : map fst (map swap_pair l) = map snd l.
Proof. rewrite map_map. reflexivity. Qed.

Lemma map_snd_swap (l : list (nat * nat)) : map snd (map swap_pair l) = map fst l.
Proof. rewrite map_map. reflexivity. Qed.

Lemma pair_eqb_swap (r c : nat) (p : nat * nat) :
  pair_eqb (r, c) (swap_pair p) = pair_eqb (c, r) p.
Proof. unfold pair_eqb. simpl. apply andb_comm. Qed.

Lemma count_pair_swap (r c : nat) (l : list (nat * nat)) :
  count_pair r c (map swap_pair l) = count_pair c r l.
Proof.
  unfold count_pair. f_equal. induction l as [|p l IH]; [reflexivity|].
  cbn [map filter]. rewrite pair_eqb_swap.
  destruct (pair_eqb (c, r) p); cbn [length]; now rewrite IH.
Qed.

Lemma count_fst_swap (r : nat) (l : list (nat * nat)) :
  count_fst r (map swap_pair l) = count_snd r l.
Proof.
  unfold count_fst, count_snd. f_equal.
  induction l as [|p l IH]; simpl; [reflexivity|].
  destruct (r =? snd p); simpl; now rewrite IH.
Qed.

Lemma count_snd_swap (c : nat) (l : list (nat * nat)) :
  count_snd c (map swap_pair l) = count_fst c l.
Proof.
  unfold count_fst, count_snd. f_equal.
  induction l as [|p l IH]; simpl; [reflexivity|].
  destruct (c =? fst p); simpl; now rewrite IH.
Qed.

Lemma expected_count_swap (r c : nat) (l : list (nat * nat)) :
  expected_count (map swap_pair l) r c = expected_count l c r.
Proof.
  unfold expected_count.
  now rewrite count_fst_swap, count_snd_swap, length_map, Z.mul_comm.
Qed.

Lemma chi_squared_with_swap (adj : Q -> Q -> Q) (x y : Series) :
  (chi_squared_with adj y x == chi_squared_with adj x y)%Q.
Proof.
  unfold chi_squared_with. rewrite combine_swap, map_fst_swap, map_snd_swap.
  rewrite sumQ_swap.
  apply sumQ_ext. intros r _. apply sumQ_ext. intros c _.
  rewrite count_pair_swap, expected_count_swap. reflexivity.
Qed.

Lemma chi2_statistic_swap (x y : Series) :
  (chi2_statistic y x == chi2_statistic x y)%Q.
Proof.
  unfold chi2_statistic. rewrite combine_swap, map_fst_swap, map_snd_swap.
  rewrite (orb_comm (nunique (map snd (combine x y)) =? 1)).
  destruct (_ || _); [reflexivity|].
  rewrite (andb_comm (nunique (map snd (combine x y)) =? 2)).
  destruct (_ && _).
  - apply (chi_squared_with_swap Scipy.yates).
  - apply (chi_squared_with_swap (fun o _ => o)).
Qed.

Lemma combine_swap_nonempty (x y : Series) :
  combine x y <> [] -> combine y x <> [].
Proof. rewrite (combine_swap x y). destruct (combine x y); simpl; congruence. Qed.

Lemma combine_swap_nil (x y : Series) : combine x y = [] -> combine y x = [].
Proof. intros H. now rewrite (combine_swap x y), H. Qed.

Lemma crosstab_nil (x y : Series) :
  combine x y = [] -> Scipy.chi2_contingency (values (crosstab x y)) = None.
Proof. intros H. unfold crosstab. rewrite H. reflexivity. Qed.

Lemma min_dim_of_swap (x y : Series) :
  min_dim_of (crosstab y x) = min_dim_of (crosstab x y).
Proof.
  unfold min_dim_of, shape, crosstab. cbn [index columns fst snd].
  rewrite combine_swap, map_fst_swap, map_snd_swap. now rewrite Nat.min_comm.
Qed.

Lemma cramers_v_sym (x y : Series) : cramers_v y x = cramers_v x y.
Proof.
  destruct (combine x y) as [|p l] eqn:E.
  - unfold cramers_v. rewrite (crosstab_nil x y E).
    now rewrite (crosstab_nil y x (combine_swap_nil x y E)).
  - assert (Hne : combine x y <> []) by (rewrite E; discriminate).
    rewrite (cramers_v_obs x y Hne).
    rewrite (cramers_v_obs y x (combine_swap_nonempty x y Hne)).
    rewrite min_dim_of_swap.
    rewrite (combine_swap x y), length_map.
    destruct (_ =? 0)%Z; [reflexivity|].
    do 2 f_equal. apply Qeq_eqR. now rewrite chi2_statistic_swap.
Qed.

Lemma phi_coefficient_sym (x y : Series) : phi_coefficient y x = phi_coefficient x y.
Proof.
  destruct (combine x y) as [|p l] eqn:E.
  - unfold phi_coefficient. rewrite (crosstab_nil x y E).
    now rewrite (crosstab_nil y x (combine_swap_nil x y E)).
  - assert (Hne : combine x y <> []) by (rewrite E; discriminate).
    rewrite (phi_coefficient_obs x y Hne).
    rewrite (phi_coefficient_obs y x (combine_swap_nonempty x y Hne)).
    rewrite (combine_swap x y), length_map.
    do 2 f_equal. apply Qeq_eqR. now rewrite chi2_statistic_swap.
Qed.

(** ** Strict sums and Yates' correction *)

Lemma sumQ_lt (A : Type) (g h : A -> Q) (l : list A) :
  (forall a, In a l -> g a <= h a)%Q ->
  (exists a, In a l /\ g a < h a)%Q ->
  (sumQ (map g l) < sumQ (map h l))%Q.
Proof.
  induction l as [|a l IH]; intros Hle (b & Hb & Hlt); [destruct Hb|].
  simpl. fold (sumQ (map g l)) (sumQ (map h l)).
  assert (Hrest : (sumQ (map g l) <= sumQ (map h l))%Q)
    by (apply sumQ_le; intros c Hc; apply Hle; now right).
  destruct Hb as [->|Hb].
  - lra.
  - assert (g a <= h a)%Q by (apply Hle; now left).
    assert (sumQ (map g l) < sumQ (map h l))%Q.
    { apply IH; [intros c Hc; apply Hle; now right|]. now exists b. }
    lra.
Qed.

Lemma Qsq_lt_between (a b : Q) :
  ((0 <= a /\ a < b) \/ (b < a /\ a <= 0) -> a * a < b * b)%Q.
Proof. intros [[H1 H2]|[H1 H2]]; nra. Qed.

Lemma yates_strictly_closer (o e : Q) :
  (~ o == e ->
   (Scipy.yates o e - e) * (Scipy.yates o e - e) < (o - e) * (o - e))%Q.
Proof.
  intros Hne. apply Qsq_lt_between.
  unfold Scipy.yates, Scipy.sign.
  set (d := (e - o)%Q).
  assert (Hd : (o - e == - d)%Q) by (unfold d; ring).
  assert (He : forall k, (o + k - e == k - d)%Q) by (intros k; unfold d; ring).
  assert (Hd0 : ~ (d == 0)%Q) by (unfold d; intros H; apply Hne; lra).
  rewrite He, Hd. clear He Hd.
  destruct (Qcompare_spec d 0) as [H0|H0|H0]; [contradiction| |].
  - left. rewrite (Qabs_neg d) by lra.
    destruct (Q.min_spec (1 # 2) (- d)) as [[H1 Hm]|[H1 Hm]]; rewrite Hm; split; lra.
  - right. rewrite (Qabs_pos d) by lra.
    destruct (Q.min_spec (1 # 2) d) as [[H1 Hm]|[H1 Hm]]; rewrite Hm; split; lra.
Qed.

Lemma yates_fixed (o e : Q) : (o == e -> Scipy.yates o e == o)%Q.
Proof.
  intros H. unfold Scipy.yates, Scipy.sign.
  assert (Hd : (e - o == 0)%Q) by lra.
  destruct (Qcompare_spec (e - o) 0) as [H0|H0|H0]; try lra.
Qed.

Lemma term_yates_lt (o e : Q) :
  (0 < e -> ~ o == e -> Scipy.term (Scipy.yates o e) e < Scipy.term o e)%Q.
Proof.
  intros He Hne. unfold Scipy.term, Qdiv.
  apply Qmult_lt_compat_r.
  - now apply Qinv_lt_0_compat.
  - now apply yates_strictly_closer.
Qed.

Lemma term_zero (o e : Q) : (0 < e -> o == e -> Scipy.term o e == 0)%Q.
Proof.
  intros He H. unfold Scipy.term. rewrite H. field. lra.
Qed.

(** The corrected statistic is strictly below the bound of Pearson's. *)
Lemma yates_chi_squared_lt (x y : Series) :
  combine x y <> [] ->
  (2 <= nunique (map snd (combine x y)))%nat ->
  (yates_chi_squared x y
   < inject_Z (Z.of_nat (length (combine x y)))
     * (inject_Z (Z.of_nat (nunique (map snd (combine x y)))) - 1))%Q.
Proof.
  intros Hne Hc.
  set (obs := combine x y) in *.
  set (rows := unique (map fst obs)).
  set (cols := unique (map snd obs)).
  assert (Hn : (0 < inject_Z (Z.of_nat (length obs)))%Q)
    by (apply inject_Z_pos, (obs_count_pos x y Hne)).
  assert (Hk : (1 <= inject_Z (Z.of_nat (nunique (map snd obs))) - 1)%Q).
  { assert (inject_Z 2 <= inject_Z (Z.of_nat (nunique (map snd obs))))%Q
      by (rewrite <- Zle_Qle; lia).
    change (inject_Z 2) with 2%Q in H. lra. }
  assert (Hcases :
    Forall (fun r => Forall (fun c =>
      inject_Z (count_pair r c obs) == expected_count obs r c)%Q cols) rows
    \/ Exists (fun r => Exists (fun c =>
      ~ (inject_Z (count_pair r c obs) == expected_count obs r c)%Q) cols) rows).
  { destruct (Forall_Exists_dec
      (fun r => Forall (fun c =>
         inject_Z (count_pair r c obs) == expected_count obs r c)%Q cols)
      (fun r => Forall_dec _ (fun c => Qeq_dec _ _) cols) rows) as [H|H].
    - now left.
    - right. eapply Exists_impl; [|exact H]. intros r Hr.
      apply neg_Forall_Exists_neg in Hr; [exact Hr|].
      intros c. apply Qeq_dec. }
  destruct Hcases as [Hall|Hex].
  - (* every observed count equals its expectation: the statistic is 0 *)
    assert (H0 : (yates_chi_squared x y == 0)%Q).
    { unfold yates_chi_squared, chi_squared_with. fold obs rows cols.
      rewrite (sumQ_ext _ (fun _ => 0%Q)).
      - rewrite sumQ_const. ring.
      - intros r Hr. rewrite (sumQ_ext _ (fun _ => 0%Q)).
        + rewrite sumQ_const. ring.
        + intros c Hcc. rewrite Forall_forall in Hall.
          specialize (Hall r Hr). rewrite Forall_forall in Hall.
          specialize (Hall c Hcc).
          apply term_zero.
          * now apply (expected_count_pos x y Hne).
          * rewrite yates_fixed by assumption. assumption. }
    rewrite H0. nra.
  - (* some count differs: the correction is strict there *)
    eapply Qlt_le_trans;
      [|apply (@chi_squared_with_le_cols x y Hne (fun o _ => o));
        intros; apply Qle_refl].
    unfold yates_chi_squared, chi_squared_with. fold obs rows cols.
    apply Exists_exists in Hex. destruct Hex as (r & Hr & Hex).
    apply Exists_exists in Hex. destruct Hex as (c & Hcc & Hneq).
    apply sumQ_lt.
    + intros r' Hr'. apply sumQ_le. intros c' Hc'.
      unfold Scipy.term, Qdiv. apply Qmult_le_compat_r.
      * apply yates_closer.
      * apply Qlt_le_weak, Qinv_lt_0_compat.
        now apply (expected_count_pos x y Hne).
    + exists r. split; [assumption|]. apply sumQ_lt.
      * intros c' Hc'. unfold Scipy.term, Qdiv. apply Qmult_le_compat_r.
        -- apply yates_closer.
        -- apply Qlt_le_weak, Qinv_lt_0_compat.
           now apply (expected_count_pos x y Hne).
      * exists c. split; [assumption|]. apply term_yates_lt; [|assumption].
        now apply (expected_count_pos x y Hne).
Qed.

Lemma nunique_nonempty (s : Series) : (1 <= nunique s)%nat -> s <> [].
Proof. intros H ->. unfold nunique in H. simpl in H. lia. Qed.

Lemma sqrt_Q2R_lt_1 (q : Q) : (0 <= q < 1)%Q -> (0 <= sqrt (Q2R q) < 1)%R.
Proof.
  intros [H0 H1]. split; [apply sqrt_pos|].
  rewrite <- sqrt_1. apply sqrt_lt_1_alt. split.
  - rewrite <- RMicromega.Q2R_0. now apply Qle_Rle.
  - rewrite <- RMicromega.Q2R_1. now apply Qlt_Rlt.
Qed.

(** ** The loops over pairs *)

Lemma NoDup_flat_map (A B : Type) (f : A -> list B) (l : list A) :
  NoDup l ->
  (forall a, In a l -> NoDup (f a)) ->
  (forall a a' b, In a l -> In a' l -> In b (f a) -> In b (f a') -> a = a') ->
  NoDup (flat_map f l).
Proof.
  induction 1 as [|a l Hnotin Hnd IH]; intros Hf Hinj; simpl; [constructor|].
  apply NoDup_app.
  - apply Hf. now left.
  - apply IH.
    + intros a' Ha'. apply Hf. now right.
    + intros a1 a2 b H1 H2. apply Hinj; now right.
  - intros b Hb Hb'. apply in_flat_map in Hb'. destruct Hb' as (a' & Ha' & Hb').
    assert (a = a') by (apply (Hinj a a' b); auto; [now left|now right]).
    subst a'. contradiction.
Qed.

Lemma map_flat_map (A B C : Type) (g : B -> C) (f : A -> list B) (l : list A) :
  map g (flat_map f l) = flat_map (fun a => map g (f a)) l.
Proof.
  induction l as [|a l IH]; simpl; [reflexivity|].
  now rewrite map_app, IH.
Qed.

(** The lines drawn by the network loop, one by one. *)
Lemma lines_in (m : Network.CorrMatrix) (threshold : Q) (l : Network.line) :
  In l (Network.lines m threshold) <->
  exists i j,
    (i < j < length (Network.columns m))%nat /\
    (threshold < Qabs (Network.iloc m i j))%Q /\
    l = Network.mkLine i j
          ((5 # 10) + (Qabs (Network.iloc m i j) - threshold) * 8)%Q
          (if negb (Qle_bool 0 (Network.iloc m i j))
           then Network.red else Network.blue)
          (Qmin ((3 # 10) + Qabs (Network.iloc m i j) * (6 # 10)) (9 # 10)).
Proof.
  unfold Network.lines. rewrite in_flat_map. split.
  - intros (i & Hi & Hl). apply in_flat_map in Hl. destruct Hl as (j & Hj & Hl).
    apply in_seq in Hi. apply in_seq in Hj.
    destruct (Qle_bool (Qabs (Network.iloc m i j)) threshold) eqn:E;
      simpl in Hl; [contradiction|].
    destruct Hl as [<-|[]]. exists i, j. repeat split; try lia.
    apply Qnot_le_lt. intros H. apply Qle_bool_iff in H. congruence.
  - intros (i & j & Hij & Hgt & ->). exists i. split; [apply in_seq; lia|].
    apply in_flat_map. exists j. split; [apply in_seq; lia|].
    destruct (Qle_bool (Qabs (Network.iloc m i j)) threshold) eqn:E.
    + apply Qle_bool_iff in E. apply Qle_not_lt in E. contradiction.
    + simpl. now left.
Qed.

Lemma lines_NoDup (m : Network.CorrMatrix) (threshold : Q) :
  NoDup (map (fun l => (Network.from l, Network.to l))
             (Network.lines m threshold)).
Proof.
  unfold Network.lines. rewrite map_flat_map.
  apply NoDup_flat_map.
  - apply seq_NoDup.
  - intros i _. rewrite map_flat_map. apply NoDup_flat_map.
    + apply seq_NoDup.
    + intros j _. destruct (negb _); simpl; repeat constructor; simpl; tauto.
    + intros j j' b _ _ Hb Hb'.
      destruct (negb (Qle_bool (Qabs (Network.iloc m i j)) threshold));
        simpl in Hb; [|contradiction].
      destruct (negb (Qle_bool (Qabs (Network.iloc m i j')) threshold));
        simpl in Hb'; [|contradiction].
      destruct Hb as [<-|[]]. destruct Hb' as [E|[]]. congruence.
  - intros i i' b _ _ Hb Hb'.
    rewrite map_flat_map in Hb, Hb'.
    apply in_flat_map in Hb. destruct Hb as (j & _ & Hb).
    apply in_flat_map in Hb'. destruct Hb' as (j' & _ & Hb').
    destruct (negb (Qle_bool (Qabs (Network.iloc m i j)) threshold));
      simpl in Hb; [|contradiction].
    destruct (negb (Qle_bool (Qabs (Network.iloc m i' j')) threshold));
      simpl in Hb'; [|contradiction].
    destruct Hb as [<-|[]]. destruct Hb' as [E|[]]. congruence.
Qed.

(** ** The chords of [create_matplotlib_chord] *)

Lemma chords_in (t : DataFrame) (threshold : Q) (c : Chord.chord) :
  In c (Chord.chords t threshold) <->
  exists i j,
    (i < length (index t))%nat /\ (j < length (columns t))%nat /\
    (threshold < Chord.cell 0 (Chord.data_norm t) i j)%Q /\
    c = Chord.mkChord i (length (index t) + j)
          ((8 # 10) + (1 # 10) * Chord.cell 0 (Chord.data_norm t) i j)%Q
          ((3 # 10) + (4 # 10) * Chord.cell 0 (Chord.data_norm t) i j)%Q
          (2 * Chord.cell 0 (Chord.data_norm t) i j)%Q.
Proof.
  unfold Chord.chords. rewrite in_flat_map. split.
  - intros (i & Hi & Hc). apply in_flat_map in Hc. destruct Hc as (j & Hj & Hc).
    apply in_seq in Hi. apply in_seq in Hj.
    destruct (Qle_bool (Chord.cell 0 (Chord.data_norm t) i j) threshold) eqn:E;
      simpl in Hc; [contradiction|].
    destruct Hc as [<-|[]]. exists i, j. repeat split; try lia.
    apply Qnot_le_lt. intros H. apply Qle_bool_iff in H. congruence.
  - intros (i & j & Hi & Hj & Hgt & ->). exists i. split; [apply in_seq; lia|].
    apply in_flat_map. exists j. split; [apply in_seq; lia|].
    destruct (Qle_bool (Chord.cell 0 (Chord.data_norm t) i j) threshold) eqn:E.
    + apply Qle_bool_iff in E. apply Qle_not_lt in E. contradiction.
    + simpl. now left.
Qed.

Lemma cell_cases (A : Type) (d : A) (m : list (list A)) (i j : nat) :
  In (Chord.cell d m i j) (concat m) \/ Chord.cell d m i j = d.
Proof.
  destruct (Nat.lt_ge_cases i (length m)) as [Hi|Hi].
  - destruct (Nat.lt_ge_cases j (length (nth i m []))) as [Hj|Hj].
    + left. now apply cell_in.
    + right. apply cell_default. lia.
  - right. apply cell_default. lia.
Qed.

Lemma cell_map_cases (A B : Type) (f : A -> B) (da : A) (db : B)
      (m : list (list A)) (i j : nat) :
  (In (Chord.cell da m i j) (concat m) /\
   Chord.cell db (map (map f) m) i j = f (Chord.cell da m i j)) \/
  Chord.cell db (map (map f) m) i j = db.
Proof.
  destruct (Nat.lt_ge_cases i (length m)) as [Hi|Hi].
  - destruct (Nat.lt_ge_cases j (length (nth i m []))) as [Hj|Hj].
    + left. split; [now apply cell_in|now apply cell_map].
    + right. apply cell_default. rewrite length_map.
      intros [_ H]. rewrite (nth_indep _ [] (map f [])) in H
        by (rewrite length_map; assumption).
      rewrite map_nth, length_map in H. lia.
  - right. apply cell_default. rewrite length_map. lia.
Qed.

(** A normalised value above a non-negative threshold is at most one. *)
Lemma data_norm_le_1 (t : DataFrame) (threshold : Q) (i j : nat) :
  (0 <= threshold)%Q ->
  (threshold < Chord.cell 0 (Chord.data_norm t) i j)%Q ->
  (Chord.cell 0 (Chord.data_norm t) i j <= 1)%Q.
Proof.
  intros Ht. unfold Chord.data_norm.
  destruct (Chord.data_max t) as [m|] eqn:Em.
  - unfold Chord.data_max in Em. apply max_list_spec in Em.
    destruct Em as [_ Hle].
    destruct (Qle_bool m 0) eqn:E; cbn [negb].
    + apply Qle_bool_iff in E. intros Hgt.
      destruct (cell_cases 0%Q (Chord.data t) i j) as [Hin|H0].
      * apply Hle in Hin. lra.
      * rewrite H0 in Hgt. lra.
    + assert (Hm : (0 < m)%Q).
      { apply Qnot_le_lt. intros H. apply Qle_bool_iff in H. congruence. }
      intros _.
      destruct (cell_map_cases (fun v => v / m)%Q 0%Q 0%Q (Chord.data t) i j)
        as [[Hin ->] | ->]; [|lra].
      apply Hle in Hin. apply Qle_shift_div_r; [assumption|lra].
  - intros Hgt. unfold Chord.data_max in Em.
    destruct (cell_cases 0%Q (Chord.data t) i j) as [Hin|H0].
    + destruct (concat (Chord.data t)); [destruct Hin|discriminate].
    + rewrite H0 in Hgt. lra.
Qed.

Lemma data_length (t : DataFrame) : length (Chord.data t) = length (values t).
Proof. unfold Chord.data. now rewrite length_map. Qed.

Lemma data_cell (t : DataFrame) (i j : nat) :
  Chord.cell 0%Q (Chord.data t) i j = inject_Z (Chord.cell 0%Z (values t) i j).
Proof.
  unfold Chord.data.
  destruct (cell_map_cases inject_Z 0%Z 0%Q (values t) i j) as [[_ H]|H].
  - exact H.
  - destruct (Nat.lt_ge_cases i (length (values t))) as [Hi|Hi].
    + destruct (Nat.lt_ge_cases j (length (nth i (values t) []))) as [Hj|Hj].
      * now apply cell_map.
      * rewrite H. rewrite (@cell_default _ 0%Z) by lia. reflexivity.
    + rewrite H. rewrite (@cell_default _ 0%Z) by lia. reflexivity.
Qed.

(** With a positive maximum, the normalised value is the count divided by it. *)
Lemma data_norm_cell (t : DataFrame) (m : Q) (i j : nat) :
  Chord.data_max t = Some m -> (0 < m)%Q ->
  (Chord.cell 0 (Chord.data_norm t) i j
   == inject_Z (Chord.cell 0%Z (values t) i j) / m)%Q.
Proof.
  intros Em Hm. unfold Chord.data_norm. rewrite Em.
  destruct (Qle_bool m 0) eqn:E.
  { apply Qle_bool_iff in E. lra. }
  cbn [negb]. rewrite <- data_cell.
  destruct (Nat.lt_ge_cases i (length (Chord.data t))) as [Hi|Hi].
  - destruct (Nat.lt_ge_cases j (length (nth i (Chord.data t) []))) as [Hj|Hj].
    + rewrite (@cell_map _ _ (fun v => v / m)%Q 0%Q) by assumption. reflexivity.
    + rewrite (@cell_default _ 0%Q (Chord.data t)) by lia.
      rewrite cell_default; [field; lra|].
      rewrite length_map. intros [_ H].
      rewrite (nth_indep _ [] (map (fun v => v / m)%Q [])) in H
        by (rewrite length_map; assumption).
      rewrite map_nth, length_map in H. lia.
  - rewrite (@cell_default _ 0%Q (Chord.data t)) by lia.
    rewrite cell_default; [field; lra|]. rewrite length_map. lia.
Qed.

Lemma in_concat_cell (A : Type) (d : A) (m : list (list A)) (v : A) :
  In v (concat m) ->
  exists i j, (i < length m)%nat /\ (j < length (nth i m []))%nat /\
              Chord.cell d m i j = v.
Proof.
  intros H. apply in_concat in H. destruct H as (row & Hrow & Hv).
  destruct (In_nth _ _ [] Hrow) as (i & Hi & Ei).
  destruct (In_nth _ _ d Hv) as (j & Hj & Ej).
  exists i, j. subst row. repeat split; assumption.
Qed.

Lemma rectangular_row (t : DataFrame) (i : nat) :
  rectangular t -> (i < length (values t))%nat ->
  length (nth i (values t) []) = length (columns t).
Proof.
  intros [_ H] Hi. rewrite Forall_forall in H. apply H. now apply nth_In.
Qed.

(** ** The bootstrap as a whole *)

Lemma percentile_out_of_range (a : list R) (q : Q) :
  (q < 0 \/ 100 < q)%Q -> Numpy.percentile a q = None.
Proof.
  intros H. unfold Numpy.percentile.
  destruct (Qle_bool 0 q) eqn:E0; [|reflexivity].
  destruct (Qle_bool q 100) eqn:E1; [|reflexivity].
  apply Qle_bool_iff in E0, E1. lra.
Qed.

(** ** Matrices of effect sizes *)

Lemma cramers_v_range (x y : Series) :
  length x = length y -> x <> [] ->
  exists v, cramers_v x y = Some v /\ (0 <= v <= 1)%R.
Proof.
  intros Hlen Hx.
  assert (Hobs : combine x y <> []) by now apply combine_nonempty.
  rewrite (cramers_v_obs x y Hobs), (min_dim_of_crosstab x y Hlen).
  rewrite combine_length_eq by assumption.
  destruct (Z.eqb_spec (Z.of_nat (Nat.min (nunique x) (nunique y)) - 1) 0)
    as [H0|H0].
  - exists 0%R. split; [reflexivity|lra].
  - eexists. split; [reflexivity|].
    apply sqrt_Q2R_le_1. now apply (@cramers_radicand_range x y Hlen Hx).
Qed.

Lemma mapM_exists (A B : Type) (f : A -> option B) (l : list A) :
  (forall a, In a l -> exists b, f a = Some b) -> exists l', mapM f l = Some l'.
Proof.
  intros H. destruct (mapM f l) as [l'|] eqn:E; [now exists l'|].
  exfalso. revert E. apply mapM_total. intros a Ha Hn.
  destruct (H a Ha) as (b & Hb). congruence.
Qed.

Lemma effect_cell_columns (df : Frame) (variables : list String.string)
      (f : Series -> Series -> option R) (n i j : nat) :
  (forall v, In v variables -> exists s, df v = Some s /\ length s = n) ->
  (i < length variables)%nat -> (j < length variables)%nat -> i <> j ->
  exists xi xj, length xi = n /\ length xj = n /\
    effect_cell df variables f i j = f xi xj /\
    effect_cell df variables f j i = f xj xi.
Proof.
  intros Hcols Hi Hj Hij.
  destruct (nth_error variables i) as [vi|] eqn:Ei;
    [|apply nth_error_None in Ei; lia].
  destruct (nth_error variables j) as [vj|] eqn:Ej;
    [|apply nth_error_None in Ej; lia].
  destruct (Hcols vi (nth_error_In _ _ Ei)) as (xi & Hxi & Li).
  destruct (Hcols vj (nth_error_In _ _ Ej)) as (xj & Hxj & Lj).
  exists xi, xj. repeat split; try assumption.
  - unfold effect_cell. destruct (Nat.eqb_spec i j); [contradiction|].
    rewrite Ei, Ej. cbn [bind]. rewrite Hxi, Hxj. reflexivity.
  - unfold effect_cell. destruct (Nat.eqb_spec j i); [congruence|].
    rewrite Ei, Ej. cbn [bind]. rewrite Hxi, Hxj. reflexivity.
Qed.

Lemma build_symmetric (df : Frame) (variables : list String.string) (n : nat)
      (f : Series -> Series -> option R) (P : R -> Prop) :
  (forall v, In v variables -> exists s, df v = Some s /\ length s = n) ->
  (forall xi xj, length xi = n -> length xj = n ->
     exists v, f xi xj = Some v /\ f xj xi = Some v /\ P v) ->
  P 1%R ->
  exists M, build_effect_size_matrix df variables f = Some M /\
    forall i j, (i < length variables)%nat -> (j < length variables)%nat ->
      cell_at M i j = cell_at M j i /\ P (cell_at M i j).
Proof.
  intros Hcols Hf H1.
  assert (Hcell : forall i j, (i < length variables)%nat ->
            (j < length variables)%nat ->
            exists v, effect_cell df variables f i j = Some v /\
                      effect_cell df variables f j i = Some v /\ P v).
  { intros i j Hi Hj. destruct (Nat.eq_dec i j) as [->|Hij].
    - exists 1%R. unfold effect_cell. rewrite Nat.eqb_refl. now repeat split.
    - destruct (@effect_cell_columns df variables f n i j Hcols Hi Hj Hij)
        as (xi & xj & Li & Lj & -> & ->).
      now apply Hf. }
  destruct (@mapM_exists _ _
              (fun i => mapM (fun j => effect_cell df variables f i j)
                             (seq 0 (length variables)))
              (seq 0 (length variables))) as (M & HM).
  { intros i Hi. apply in_seq in Hi. apply mapM_exists.
    intros j Hj. apply in_seq in Hj.
    destruct (Hcell i j) as (v & Hv & _); [lia|lia|]. now exists v. }
  exists M. split; [exact HM|].
  intros i j Hi Hj.
  destruct (Hcell i j Hi Hj) as (v & Hij & Hji & Hr).
  rewrite (@build_cell df variables f M i j HM Hi Hj) in Hij.
  rewrite (@build_cell df variables f M j i HM Hj Hi) in Hji.
  inversion Hij. inversion Hji. split; [congruence|].
  rewrite H0. exact Hr.
Qed.

Lemma pair_subset_sym (yso var : Series) (i j : nat) :
  pair_subset yso var i j = pair_subset yso var j i.
Proof.
  unfold pair_subset. apply filter_ext. intros p. apply orb_comm.
Qed.

Lemma pair_subset_nonempty (yso var : Series) (i j : nat) :
  In i (index (crosstab yso var)) -> pair_subset yso var i j <> [].
Proof.
  intros Hi. unfold crosstab in Hi. cbn [index] in Hi.
  apply (proj1 (unique_In _ _)) in Hi. apply in_map_iff in Hi. destruct Hi as (p & Hp & Hin).
  assert (H : In p (pair_subset yso var i j)).
  { unfold pair_subset. apply filter_In. split; [assumption|].
    rewrite Hp, Nat.eqb_refl. reflexivity. }
  intros E. rewrite E in H. destruct H.
Qed.

Lemma cramers_matrix_cell_range (yso var : Series) (i j : nat) :
  In i (index (crosstab yso var)) ->
  exists v, cramers_matrix_cell yso var i j = Some v /\
            cramers_matrix_cell yso var j i = Some v /\
            (i = j -> v = 1%R) /\ (0 <= v <= 1)%R.
Proof.
  intros Hi. unfold cramers_matrix_cell.
  destruct (Nat.eqb_spec i j) as [->|Hij].
  - rewrite Nat.eqb_refl. exists 1%R. repeat split; lra.
  - destruct (Nat.eqb_spec j i) as [E|_]; [congruence|].
    rewrite (pair_subset_sym yso var j i).
    pose proof (@pair_subset_nonempty yso var i j Hi) as Hne.
    destruct (pair_subset yso var i j) as [|p l] eqn:E; [contradiction|].
    cbn [length Nat.ltb Nat.leb].
    destruct (@cramers_v_range (map fst (p :: l)) (map snd (p :: l)))
      as (v & Hv & Hr); [now rewrite !length_map|discriminate|].
    exists v. repeat split; tauto.
Qed.

(** ** Effect size labels *)

Lemma sqrt_lt_iff (x y : R) :
  (0 <= x -> 0 <= y -> (sqrt x < y <-> x < y * y))%R.
Proof.
  intros Hx Hy. pose proof (sqrt_sqrt x Hx) as Hs.
  pose proof (sqrt_pos x) as Hp. split; intros H.
  - nra.
  - destruct (Rlt_dec (sqrt x) y) as [|Hn]; [assumption|]. nra.
Qed.

Lemma sqrt_Q2R_lt (q a : Q) :
  (0 <= q)%Q -> (0 <= a)%Q ->
  ((sqrt (Q2R q) < Q2R a)%R <-> (q < a * a)%Q).
Proof.
  intros Hq Ha.
  assert (0 <= Q2R q)%R by (rewrite <- RMicromega.Q2R_0; now apply Qle_Rle).
  assert (0 <= Q2R a)%R by (rewrite <- RMicromega.Q2R_0; now apply Qle_Rle).
  rewrite sqrt_lt_iff by assumption. rewrite <- Q2R_mult. split.
  - apply Rlt_Qlt.
  - apply Qlt_Rlt.
Qed.

Lemma interpret_v_sqrt (q : Q) :
  (0 <= q)%Q ->
  (interpret_v (sqrt (Q2R q)) = negligible <-> (100 * q < 1)%Q) /\
  (interpret_v (sqrt (Q2R q)) = weak <-> (1 <= 100 * q /\ 100 * q < 9)%Q) /\
  (interpret_v (sqrt (Q2R q)) = moderate <-> (9 <= 100 * q /\ 4 * q < 1)%Q) /\
  (interpret_v (sqrt (Q2R q)) = strong <-> (1 <= 4 * q)%Q).
Proof.
  intros Hq.
  assert (H1 : (sqrt (Q2R q) < 1 / 10)%R <-> (100 * q < 1)%Q).
  { replace (1 / 10)%R with (Q2R (1 # 10)) by (unfold Q2R; simpl; lra).
    rewrite sqrt_Q2R_lt by (try assumption; discriminate).
    assert ((1 # 10) * (1 # 10) == 1 # 100)%Q by reflexivity.
    split; intros; lra. }
  assert (H3 : (sqrt (Q2R q) < 3 / 10)%R <-> (100 * q < 9)%Q).
  { replace (3 / 10)%R with (Q2R (3 # 10)) by (unfold Q2R; simpl; lra).
    rewrite sqrt_Q2R_lt by (try assumption; discriminate).
    assert ((3 # 10) * (3 # 10) == 9 # 100)%Q by reflexivity.
    split; intros; lra. }
  assert (H5 : (sqrt (Q2R q) < 5 / 10)%R <-> (4 * q < 1)%Q).
  { replace (5 / 10)%R with (Q2R (5 # 10)) by (unfold Q2R; simpl; lra).
    rewrite sqrt_Q2R_lt by (try assumption; discriminate).
    assert ((5 # 10) * (5 # 10) == 1 # 4)%Q by reflexivity.
    split; intros; lra. }
  unfold interpret_v.
  destruct (Rlt_dec (sqrt (Q2R q)) (1 / 10)) as [L1|L1];
  destruct (Rlt_dec (sqrt (Q2R q)) (3 / 10)) as [L3|L3];
  destruct (Rlt_dec (sqrt (Q2R q)) (5 / 10)) as [L5|L5];
  try (exfalso; lra);
  rewrite ?H1, ?H3, ?H5 in *;
  repeat split; try discriminate; try reflexivity; intros; try lra;
  try (exfalso; lra).
Qed.

(** ** Counting the values of a series *)

Lemma insert_by_count_perm (p : nat * Z) (l : list (nat * Z)) :
  Permutation (insert_by_count p l) (p :: l).
Proof.
  induction l as [|q l IH]; simpl; [reflexivity|].
  destruct (snd q <? snd p)%Z; [reflexivity|].
  rewrite IH. apply perm_swap.
Qed.

Lemma value_counts_perm (s : Series) :
  Permutation (value_counts s) (map (fun v => (v, count_value v s)) (unique s)).
Proof.
  unfold value_counts.
  induction (map (fun v => (v, count_value v s)) (unique s)) as [|p l IH];
    simpl; [reflexivity|].
  rewrite insert_by_count_perm. now constructor.
Qed.

(** The entries of [value_counts]: each value that occurs, with its count. *)
Lemma value_counts_in (s : Series) (v : nat) (n : Z) :
  In (v, n) (value_counts s) <-> In v s /\ n = count_value v s.
Proof.
  split.
  - intros H. apply (Permutation_in _ (value_counts_perm s)) in H.
    apply in_map_iff in H. destruct H as (w & E & Hw). inversion E. subst.
    split; [now apply unique_In|reflexivity].
  - intros [Hv ->].
    apply (Permutation_in _ (Permutation_sym (value_counts_perm s))).
    apply in_map_iff. exists v. split; [reflexivity|now apply unique_In].
Qed.

Lemma count_value_pos (v : nat) (s : Series) :
  In v s -> (1 <= count_value v s)%Z.
Proof.
  unfold count_value. induction s as [|a s IH]; simpl; [intros []|].
  intros [->|Hin].
  - rewrite Nat.eqb_refl. simpl length. lia.
  - destruct (v =? a)%nat; simpl length; [lia|]. now apply IH.
Qed.

Lemma count_value_le (v : nat) (s : Series) :
  (count_value v s <= Z.of_nat (length s))%Z.
Proof.
  unfold count_value. pose proof (filter_length_le (Nat.eqb v) s). lia.
Qed.

Lemma count_value_fst (v : nat) (s : Series) :
  count_fst v (map (fun a => (a, a)) s) = count_value v s.
Proof.
  unfold count_fst, count_value. f_equal.
  induction s as [|a s IH]; simpl; [reflexivity|].
  destruct (v =? a)%nat; simpl; now rewrite IH.
Qed.

Lemma count_value_total (s : Series) :
  sumZ (map (fun v => count_value v s) (unique s)) = Z.of_nat (length s).
Proof.
  rewrite <- (length_map (fun a => (a, a)) s).
  rewrite <- (@count_fst_total (unique s) (map (fun a => (a, a)) s)).
  - f_equal. apply map_ext. intros v. symmetry. apply count_value_fst.
  - apply unique_NoDup.
  - intros p Hp. apply in_map_iff in Hp. destruct Hp as (a & <- & Ha).
    simpl. now apply unique_In.
Qed.

Lemma sumZ_le_max (l : list Z) (m : Z) :
  (forall a, In a l -> (a <= m)%Z) ->
  (sumZ l <= Z.of_nat (length l) * m)%Z.
Proof.
  induction l as [|a l IH]; intros H; [simpl; lia|].
  cbn [sumZ fold_right length].
  assert (a <= m)%Z by (apply H; now left).
  assert (sumZ l <= Z.of_nat (length l) * m)%Z
    by (apply IH; intros b Hb; apply H; now right).
  unfold sumZ in *. lia.
Qed.

Lemma fold_Zmin_spec (l : list Z) (a : Z) :
  In (fold_left Z.min l a) (a :: l) /\
  forall b, In b (a :: l) -> (fold_left Z.min l a <= b)%Z.
Proof.
  revert a. induction l as [|c l IH]; intros a; simpl.
  - split; [now left|]. intros b [<-|[]]. lia.
  - destruct (IH (Z.min a c)) as [Hin Hle]. split.
    + destruct Hin as [Hin|Hin]; [|now right; right].
      rewrite <- Hin. destruct (Z.min_spec a c) as [[_ E]|[_ E]]; rewrite E; simpl; auto.
    + intros b Hb.
      assert (Hmin : (Z.min a c <= b)%Z \/ In b l).
      { destruct Hb as [<-|[<-|Hb]]; [left; lia|left; lia|now right]. }
      destruct Hmin as [Hm|Hm].
      * eapply Z.le_trans; [|exact Hm]. apply Hle. now left.
      * apply Hle. now right.
Qed.

Lemma minZ_list_spec (l : list Z) (m : Z) :
  minZ_list l = Some m -> In m l /\ forall b, In b l -> (m <= b)%Z.
Proof.
  destruct l as [|a l]; simpl; [discriminate|].
  intros H. inversion H. subst m. apply fold_Zmin_spec.
Qed.

Lemma value_counts_counts (s : Series) (n : Z) :
  In n (map snd (value_counts s)) <->
  exists v, In v s /\ n = count_value v s.
Proof.
  rewrite in_map_iff. split.
  - intros ([v n'] & E & H). simpl in E. subst n'.
    apply value_counts_in in H. now exists v.
  - intros (v & Hv & ->). exists (v, count_value v s). split; [reflexivity|].
    now apply value_counts_in.
Qed.

Lemma value_counts_length (s : Series) :
  length (value_counts s) = nunique s.
Proof.
  rewrite (Permutation_length (value_counts_perm s)). now rewrite length_map.
Qed.

Lemma value_counts_sum (s : Series) :
  sumZ (map snd (value_counts s)) = Z.of_nat (length s).
Proof.
  rewrite <- count_value_total.
  assert (Hp : Permutation (map snd (value_counts s))
                           (map (fun v => count_value v s) (unique s))).
  { rewrite (Permutation_map snd (value_counts_perm s)).
    rewrite map_map. reflexivity. }
  clear - Hp. induction Hp; simpl; unfold sumZ in *; simpl; lia.
Qed.

Lemma flag_rare_report (df : Frame) (yso lc : Series) :
  df "YSO_CLASS"%string = Some yso -> df "LCType"%string = Some lc ->
  let rare s := filter (fun p => (snd p <? rare_threshold)%Z) (value_counts s) in
  flag_rare_categories df =
  Some ((if (0 <? length (rare yso))%nat
         then [("YSO_CLASS"%string, rare yso)] else [])
        ++ (if (0 <? length (rare lc))%nat
            then [("LCType"%string, rare lc)] else [])).
Proof.
  intros Hy Hl rare. unfold flag_rare_categories, flag_rare_loop.
  rewrite Hy. cbn [bind]. rewrite Hl. cbn [bind]. fold (rare yso) (rare lc).
  destruct (0 <? length (rare yso))%nat, (0 <? length (rare lc))%nat; reflexivity.
Qed.

Lemma rare_in (s : Series) (cat : nat) (n : Z) :
  In (cat, n) (filter (fun p => (snd p <? rare_threshold)%Z) (value_counts s))
  <-> In cat s /\ n = count_value cat s /\ (n < 30)%Z.
Proof.
  rewrite filter_In, value_counts_in. cbn [snd]. unfold rare_threshold.
  rewrite Z.ltb_lt. tauto.
Qed.

Lemma positive_length_in (A : Type) (l : list A) (a : A) :
  In a l -> (0 <? length l)%nat = true.
Proof. destruct l; [intros []|reflexivity]. Qed.

(** ** Totals below the median *)

Lemma insertZ_perm (a : Z) (l : list Z) : Permutation (insertZ a l) (a :: l).
Proof.
  induction l as [|b l IH]; simpl; [reflexivity|].
  destruct (a <=? b)%Z; [reflexivity|]. rewrite IH. apply perm_swap.
Qed.

Lemma sortZ_perm (l : list Z) : Permutation (sortZ l) l.
Proof.
  induction l as [|a l IH]; simpl; [reflexivity|].
  rewrite insertZ_perm. now constructor.
Qed.

Lemma insertZ_sorted (a : Z) (l : list Z) :
  StronglySorted Z.le l -> StronglySorted Z.le (insertZ a l).
Proof.
  induction 1 as [|b l Hs IH Hall]; simpl.
  - repeat constructor.
  - destruct (Z.leb_spec a b) as [Hab|Hab].
    + constructor; [now constructor|]. constructor; [assumption|].
      eapply Forall_impl; [|exact Hall]. intros c Hc. simpl in Hc. lia.
    + constructor; [assumption|].
      apply (Permutation_Forall (Permutation_sym (insertZ_perm a l))).
      constructor; [lia|assumption].
Qed.

Lemma sortZ_sorted (l : list Z) : StronglySorted Z.le (sortZ l).
Proof.
  induction l as [|a l IH]; simpl; [constructor|]. now apply insertZ_sorted.
Qed.

Lemma sorted_skipn_ge (s : list Z) (k : nat) :
  StronglySorted Z.le s -> (k < length s)%nat ->
  forall x, In x (skipn k s) -> (nth k s 0 <= x)%Z.
Proof.
  intros Hs. revert k. induction Hs as [|a s Hs IH Hall]; intros k Hk x Hx.
  - simpl in Hk. lia.
  - destruct k as [|k].
    + simpl in *. destruct Hx as [<-|Hx]; [lia|].
      rewrite Forall_forall in Hall. now apply Hall.
    + simpl in *. apply IH; [lia|assumption].
Qed.

Lemma filter_length_perm (A : Type) (f : A -> bool) (l l' : list A) :
  Permutation l l' -> length (filter f l) = length (filter f l').
Proof.
  induction 1 as [|a l l' _ IH|a b l|l1 l2 l3 _ IH1 _ IH2]; simpl.
  - reflexivity.
  - destruct (f a); simpl; now rewrite IH.
  - destruct (f a), (f b); reflexivity.
  - now rewrite IH1.
Qed.

(** The median is at most the upper middle of the sorted totals. *)
Lemma median_le_upper (l : list Z) (m : Q) :
  median l = Some m ->
  (length l / 2 < length l)%nat /\
  (m <= inject_Z (nth (length l / 2) (sortZ l) 0%Z))%Q.
Proof.
  intros Hm. unfold median in Hm.
  destruct l as [|a l'] eqn:El; [discriminate|]. rewrite <- El in *.
  assert (Hn : (0 < length l)%nat) by (rewrite El; simpl; lia).
  assert (Hk : (length l / 2 < length l)%nat)
    by (apply Nat.div_lt; lia).
  split; [assumption|].
  destruct (Nat.even (length l)) eqn:Ev; inversion Hm; subst m; clear Hm.
  - assert (H2 : (1 <= length l / 2)%nat).
    { destruct (length l) as [|[|n]] eqn:E; [lia|discriminate Ev|].
      change (S (S n)) with (2 + n)%nat.
      replace (2 + n)%nat with (n + 1 * 2)%nat by lia.
      rewrite Nat.div_add by lia. lia. }
    set (s := sortZ l) in *. set (k := (length l / 2)%nat) in *.
    assert (Hls : length s = length l)
      by (apply Permutation_length, sortZ_perm).
    assert (Hle : (nth (k - 1) s 0 <= nth k s 0)%Z).
    { apply (@sorted_skipn_ge s (k - 1)).
      - apply sortZ_sorted.
      - lia.
      - replace k with (S (k - 1)) at 1 by lia.
        assert (Hin : In (nth k s 0%Z) (skipn k s)).
        { rewrite <- (firstn_skipn k s) at 1.
          rewrite app_nth2 by (rewrite length_firstn; lia).
          rewrite length_firstn.
          replace (k - Nat.min k (length s))%nat with 0%nat by lia.
          destruct (skipn k s) eqn:Es; [|now left].
          exfalso. pose proof (length_skipn k s) as L. rewrite Es in L.
          simpl in L. lia. }
        replace (S (k - 1)) with k by lia.
        replace (skipn (k - 1) s) with (nth (k - 1) s 0%Z :: skipn k s).
        + now right.
        + clear - H2 Hk Hls.
          assert (Hk' : (k - 1 < length s)%nat) by lia.
          replace k with (S (k - 1)) at 2 by lia.
          revert Hk'. generalize (k - 1)%nat. clear.
          induction s as [|a s IH]; intros j Hj; [simpl in Hj; lia|].
          destruct j; [reflexivity|]. simpl. apply IH. simpl in Hj. lia. }
    apply Qle_shift_div_r; [reflexivity|].
    assert (inject_Z (nth (k - 1) s 0%Z) <= inject_Z (nth k s 0%Z))%Q
      by now rewrite <- Zle_Qle.
    change (inject_Z (nth (k - 1) s 0%Z) + inject_Z (nth k s 0%Z)
            <= inject_Z (nth k s 0%Z) * 2)%Q.
    lra.
  - apply Qle_refl.
Qed.

(** Fewer than half of the totals are below their median, and a total
    below the median is below another total. *)
Lemma below_median_count (l : list Z) :
  (2 * length (filter (below_median (median l)) l) <= length l)%nat.
Proof.
  destruct (median l) as [m|] eqn:Em.
  2:{ assert (H : filter (below_median None) l = [])
        by (clear; induction l; simpl; auto).
      rewrite H. simpl. lia. }
  destruct (median_le_upper l Em) as [Hk Hle].
  rewrite (filter_length_perm _ (Permutation_sym (sortZ_perm l))).
  set (s := sortZ l) in *. set (k := (length l / 2)%nat) in *.
  assert (Hls : length s = length l) by (apply Permutation_length, sortZ_perm).
  rewrite <- (firstn_skipn k s) at 1. rewrite filter_app, length_app.
  assert (Hskip : filter (below_median (Some m)) (skipn k s) = []).
  { assert (H : forall x, In x (skipn k s) -> below_median (Some m) x = false).
    { intros x Hx. simpl. apply negb_false_iff, Qle_bool_iff.
      eapply Qle_trans; [exact Hle|]. rewrite <- Zle_Qle.
      apply sorted_skipn_ge; [apply sortZ_sorted|lia|assumption]. }
    clear - H. induction (skipn k s) as [|x r IH]; [reflexivity|].
    cbn [filter]. rewrite (H x (or_introl eq_refl)). apply IH.
    intros y Hy. apply H. now right. }
  rewrite Hskip. simpl length.
  pose proof (filter_length_le (below_median (Some m)) (firstn k s)) as Hf.
  rewrite length_firstn in Hf.
  assert (2 * k <= length l)%nat.
  { unfold k. pose proof (Nat.div_mod_eq (length l) 2). lia. }
  lia.
Qed.

Lemma below_median_lt (l : list Z) (a : Z) :
  below_median (median l) a = true -> exists b, In b l /\ (a < b)%Z.
Proof.
  destruct (median l) as [m|] eqn:Em; [|discriminate].
  destruct (median_le_upper l Em) as [Hk Hle].
  intros H. simpl in H. apply negb_true_iff in H.
  exists (nth (length l / 2) (sortZ l) 0%Z). split.
  - apply (Permutation_in _ (sortZ_perm l)). apply nth_In.
    now rewrite (Permutation_length (sortZ_perm l)).
  - apply Z.lt_nge. intros Hge. rewrite Zle_Qle in Hge.
    assert (Hq : (m <= inject_Z a)%Q) by (eapply Qle_trans; eassumption).
    apply Qle_bool_iff in Hq. congruence.
Qed.

Lemma filter_combine_snd (A B : Type) (g : B -> bool) (a : list A) (b : list B) :
  length a = length b ->
  map snd (filter (fun p => g (snd p)) (combine a b)) = filter g b.
Proof.
  revert b. induction a as [|x a IH]; intros [|y b] H; simpl in *;
    try reflexivity; try discriminate.
  destruct (g y); simpl; f_equal; apply IH; lia.
Qed.

Lemma filter_map_comp (A B : Type) (f : B -> bool) (g : A -> B) (l : list A) :
  filter f (map g l) = map g (filter (fun a => f (g a)) l).
Proof.
  induction l as [|a l IH]; simpl; [reflexivity|].
  destruct (f (g a)); simpl; now rewrite IH.
Qed.

Lemma map_nth_seq_id (A : Type) (d : A) (l : list A) :
  map (fun j => nth j l d) (seq 0 (length l)) = l.
Proof.
  apply (nth_ext _ _ d d).
  - now rewrite length_map, length_seq.
  - intros n Hn. rewrite length_map, length_seq in Hn.
    rewrite (nth_indep _ d (nth 0 l d))
      by (rewrite length_map, length_seq; assumption).
    rewrite (map_nth (fun j => nth j l d) (seq 0 (length l)) 0%nat n).
    now rewrite seq_nth.
Qed.

Lemma col_totals_length (t : DataFrame) :
  length (col_totals t) = length (columns t).
Proof. unfold col_totals. now rewrite length_map, length_seq. Qed.

(** ** The chord diagram of a cross-tabulation *)

Lemma crosstab_node_sizes_pos (x y : Series) (s : Z) :
  In s (Chord.node_sizes (crosstab x y)) -> (0 < s)%Z.
Proof.
  unfold Chord.node_sizes. intros H. apply in_map_iff in H.
  destruct H as (i & <- & Hi). apply in_seq in Hi.
  set (obs := combine x y).
  set (rows := unique (map fst obs)). set (cols := unique (map snd obs)).
  change (index (crosstab x y)) with rows in *.
  change (columns (crosstab x y)) with cols in *.
  change (values (crosstab x y))
    with (map (fun r => map (fun c => count_pair r c obs) cols) rows).
  destruct (Nat.ltb_spec i (length rows)) as [Hlt|Hge].
  - rewrite (nth_indep _ [] ((fun r => map (fun c => count_pair r c obs) cols) 0%nat))
      by (rewrite length_map; assumption).
    rewrite (map_nth (fun r => map (fun c => count_pair r c obs) cols) rows 0%nat i).
    rewrite count_pair_row.
    + apply count_fst_pos. apply unique_In. now apply nth_In.
    + apply unique_NoDup.
    + intros p Hp. apply unique_In. now apply in_map.
  - rewrite map_map.
    assert (Hj : (i - length rows < length cols)%nat) by lia.
    set (j := (i - length rows)%nat) in *.
    rewrite (map_ext _ (fun r => count_pair r (nth j cols 0%nat) obs)).
    + rewrite count_pair_col.
      * apply count_snd_pos. apply unique_In. now apply nth_In.
      * apply unique_NoDup.
      * intros p Hp. apply unique_In. now apply in_map.
    + intros r.
      rewrite (nth_indep _ 0%Z ((fun c => count_pair r c obs) 0%nat))
        by (rewrite length_map; assumption).
      exact (map_nth (fun c => count_pair r c obs) cols 0%nat j).
Qed.

(** ** Moving a label outwards *)

Lemma arctan2_scale (y x s : R) :
  (0 < s)%R -> Network.arctan2 (y * s) (x * s) = Network.arctan2 y x.
Proof.
  intros Hs. unfold Network.arctan2.
  assert (Hq : (x <> 0 -> y * s / (x * s) = y / x)%R)
    by (intros; field; split; lra).
  destruct (Rlt_dec 0 x) as [Hx|Hx].
  - destruct (Rlt_dec 0 (x * s)) as [_|H]; [|exfalso; apply H; nra].
    now rewrite Hq by lra.
  - destruct (Rlt_dec 0 (x * s)) as [H|_]; [exfalso; nra|].
    destruct (Rlt_dec x 0) as [Hx'|Hx'].
    + destruct (Rlt_dec (x * s) 0) as [_|H]; [|exfalso; apply H; nra].
      rewrite Hq by lra.
      destruct (Rle_dec 0 y) as [Hy|Hy].
      * destruct (Rle_dec 0 (y * s)) as [_|H]; [reflexivity|].
        exfalso. apply H. nra.
      * destruct (Rle_dec 0 (y * s)) as [H|_]; [|reflexivity].
        exfalso. apply Hy. nra.
    + destruct (Rlt_dec (x * s) 0) as [H|_]; [exfalso; nra|].
      destruct (Rlt_dec 0 y) as [Hy|Hy].
      * destruct (Rlt_dec 0 (y * s)) as [_|H]; [reflexivity|].
        exfalso. apply H. nra.
      * destruct (Rlt_dec 0 (y * s)) as [H|_]; [exfalso; nra|].
        destruct (Rlt_dec y 0) as [Hy'|Hy'].
        -- destruct (Rlt_dec (y * s) 0) as [_|H]; [reflexivity|].
           exfalso. apply H. nra.
        -- destruct (Rlt_dec (y * s) 0) as [H|_]; [exfalso; nra|reflexivity].
Qed.

(** ** Chords of a numeric frame *)

Lemma chords_astype_float (t : DataFrame) (threshold : Q) :
  ChordFloat.chords (ChordFloat.astype_float t) threshold
  = Chord.chords t threshold.
Proof. reflexivity. Qed.

Lemma float_chords_in (t : ChordFloat.Table) (threshold : Q) (c : Chord.chord) :
  In c (ChordFloat.chords t threshold) <->
  exists i j,
    (i < length (ChordFloat.index t))%nat /\
    (j < length (ChordFloat.columns t))%nat /\
    (threshold < Chord.cell 0 (ChordFloat.data_norm t) i j)%Q /\
    c = Chord.mkChord i (length (ChordFloat.index t) + j)
          ((8 # 10) + (1 # 10) * Chord.cell 0 (ChordFloat.data_norm t) i j)%Q
          ((3 # 10) + (4 # 10) * Chord.cell 0 (ChordFloat.data_norm t) i j)%Q
          (2 * Chord.cell 0 (ChordFloat.data_norm t) i j)%Q.
Proof.
  unfold ChordFloat.chords. rewrite in_flat_map. split.
  - intros (i & Hi & Hc). apply in_flat_map in Hc. destruct Hc as (j & Hj & Hc).
    apply in_seq in Hi. apply in_seq in Hj.
    destruct (Qle_bool (Chord.cell 0 (ChordFloat.data_norm t) i j) threshold)
      eqn:E; simpl in Hc; [contradiction|].
    destruct Hc as [<-|[]]. exists i, j. repeat split; try lia.
    apply Qnot_le_lt. intros H. apply Qle_bool_iff in H. congruence.
  - intros (i & j & Hi & Hj & Hgt & ->). exists i. split; [apply in_seq; lia|].
    apply in_flat_map. exists j. split; [apply in_seq; lia|].
    destruct (Qle_bool (Chord.cell 0 (ChordFloat.data_norm t) i j) threshold)
      eqn:E.
    + apply Qle_bool_iff in E. apply Qle_not_lt in E. contradiction.
    + simpl. now left.
Qed.

(** The chord between row [i] and column [j] is there exactly when the
    normalised value exceeds the threshold. *)
Lemma float_chord_iff (t : ChordFloat.Table) (threshold : Q) (i j : nat) :
  (i < length (ChordFloat.index t))%nat ->
  (j < length (ChordFloat.columns t))%nat ->
  ((exists c, In c (ChordFloat.chords t threshold) /\
              Chord.source c = i /\
              Chord.target c = (length (ChordFloat.index t) + j)%nat) <->
   (threshold < Chord.cell 0 (ChordFloat.data_norm t) i j)%Q).
Proof.
  intros Hi Hj. split.
  - intros (c & Hc & Hs & Ht). apply float_chords_in in Hc.
    destruct Hc as (i' & j' & Hi' & Hj' & Hgt & ->). simpl in Hs, Ht.
    assert (j' = j) by lia. now subst i' j'.
  - intros H. eexists. split.
    + apply float_chords_in. exists i, j. repeat split; assumption.
    + split; reflexivity.
Qed.

Lemma float_data_norm_cell (t : ChordFloat.Table) (m : Q) (i j : nat) :
  ChordFloat.data_max t = Some m ->
  ((0 < m ->
    Chord.cell 0 (ChordFloat.data_norm t) i j
    == Chord.cell 0 (ChordFloat.values t) i j / m) /\
   (m <= 0 ->
    Chord.cell 0 (ChordFloat.data_norm t) i j
    = Chord.cell 0 (ChordFloat.values t) i j))%Q.
Proof.
  intros Em. unfold ChordFloat.data_norm. rewrite Em. split; intros Hm.
  - destruct (Qle_bool m 0) eqn:E.
    { apply Qle_bool_iff in E. lra. }
    cbn [negb].
    destruct (Nat.lt_ge_cases i (length (ChordFloat.values t))) as [Hi|Hi].
    + destruct (Nat.lt_ge_cases j (length (nth i (ChordFloat.values t) [])))
        as [Hj|Hj].
      * rewrite (@cell_map _ _ (fun v => v / m)%Q 0%Q) by assumption.
        reflexivity.
      * rewrite (@cell_default _ 0%Q (ChordFloat.values t)) by lia.
        rewrite cell_default; [field; lra|].
        rewrite length_map. intros [_ H].
        rewrite (nth_indep _ [] (map (fun v => v / m)%Q [])) in H
          by (rewrite length_map; assumption).
        rewrite map_nth, length_map in H. lia.
    + rewrite (@cell_default _ 0%Q (ChordFloat.values t)) by lia.
      rewrite cell_default; [field; lra|]. rewrite length_map. lia.
  - apply Qle_bool_iff in Hm. now rewrite Hm.
Qed.

Lemma float_node_sizes_nth (t : ChordFloat.Table) (k : nat) :
  (k < length (ChordFloat.index t) + length (ChordFloat.columns t))%nat ->
  nth k (ChordFloat.node_sizes t) 0%Q =
  if (k <? length (ChordFloat.index t))%nat
  then sumQ (nth k (ChordFloat.values t) [])
  else sumQ (map (fun row => nth (k - length (ChordFloat.index t)) row 0%Q)
                 (ChordFloat.values t)).
Proof.
  intros Hk. unfold ChordFloat.node_sizes.
  set (f := fun i : nat =>
              if (i <? length (ChordFloat.index t))%nat
              then sumQ (nth i (ChordFloat.values t) [])
              else sumQ (map (fun row =>
                                nth (i - length (ChordFloat.index t)) row 0%Q)
                             (ChordFloat.values t))).
  rewrite (nth_indep _ 0%Q (f 0%nat))
    by (rewrite length_map, length_seq; assumption).
  rewrite (map_nth f (seq 0 _) 0%nat k). now rewrite seq_nth.
Qed.

Lemma text_angle_left : Network.text_angle (-1) 0 = 180%R.
Proof.
  pose proof PI_RGT_0 as Hpi.
  unfold Network.text_angle, Network.arctan2.
  destruct (Rlt_dec 0 (-1)) as [H|_]; [lra|].
  destruct (Rlt_dec (-1) 0) as [_|H]; [|lra].
  destruct (Rle_dec 0 0) as [_|H]; [|lra].
  replace (0 / -1)%R with 0%R by (field; lra).
  rewrite atan_0. field. lra.
Qed.

(* ================================================================== *)
(** * The specification claims *)
(* ================================================================== *)




(** C5.  For equal-length series of which one takes a single value,
    [cramers_v] and [phi_coefficient] both return exactly [0]; neither
    raises. *)
Theorem constant_series_effect_sizes (x y : Series) :
  length x = length y ->
  constant_series x \/ constant_series y ->
  cramers_v x y = Some 0%R /\ phi_coefficient x y = Some 0%R.
Proof.
  intros Hlen Hconst.
  assert (Hx : x <> []).
  { destruct Hconst as [H|H]; apply constant_series_nonempty in H; [assumption|].
    now apply (same_length_nonempty x y Hlen). }
  assert (Hy : y <> []) by now apply (same_length_nonempty x y Hlen).
  assert (Hobs : combine x y <> []) by now apply combine_nonempty.
  assert (Hmd : (Z.of_nat (Nat.min (nunique x) (nunique y)) - 1 = 0)%Z)
    by now apply min_dim_zero_iff.
  split.
  - rewrite (cramers_v_obs x y Hobs), (min_dim_of_crosstab x y Hlen), Hmd.
    reflexivity.
  - rewrite (phi_coefficient_obs x y Hobs).
    unfold chi2_statistic. rewrite combine_fst, combine_snd by assumption.
    pose proof (nunique_pos Hx). pose proof (nunique_pos Hy).
    assert (Hone : ((nunique x =? 1) || (nunique y =? 1))%nat = true).
    { apply orb_true_iff. rewrite !Nat.eqb_eq. lia. }
    rewrite Hone, Q2R_0_div, sqrt_0. reflexivity.
Qed.

(** A constant series against a varying one. *)
Lemma constant_series_effect_sizes_witness :
  cramers_v [3; 3; 3]%nat [0; 1; 2]%nat = Some 0%R /\
  phi_coefficient [3; 3; 3]%nat [0; 1; 2]%nat = Some 0%R.
Proof.
  apply (@constant_series_effect_sizes [3; 3; 3]%nat [0; 1; 2]%nat).
  - reflexivity.
  - left. exists 3%nat. simpl. intuition.
Defined.

(** C2 (amended).  For every pair of non-empty equal-length series,
    [cramers_v] returns a value in [[0, 1]], and [phi_coefficient]
    returns a value between [0] and [sqrt (min (rows, cols) - 1)]; it is
    at most [1] when one of the series has at most two distinct values. *)
Theorem effect_size_ranges (x y : Series) :
  length x = length y -> x <> [] ->
  let min_dim := (Z.of_nat (Nat.min (nunique x) (nunique y)) - 1)%Z in
  (exists v, cramers_v x y = Some v /\ (0 <= v <= 1)%R) /\
  (exists p, phi_coefficient x y = Some p /\
             (0 <= p <= sqrt (IZR min_dim))%R /\
             ((nunique x <= 2)%nat \/ (nunique y <= 2)%nat -> (p <= 1)%R)).
Proof.
  intros Hlen Hx min_dim.
  assert (Hobs : combine x y <> []) by now apply combine_nonempty.
  pose proof (@min_dim_nonneg x y Hlen Hx) as Hmd0. fold min_dim in Hmd0.
  split.
  - rewrite (cramers_v_obs x y Hobs), (min_dim_of_crosstab x y Hlen).
    rewrite combine_length_eq by assumption. fold min_dim.
    destruct (Z.eqb_spec min_dim 0) as [H0|H0].
    + exists 0%R. split; [reflexivity|lra].
    + eexists. split; [reflexivity|].
      apply sqrt_Q2R_le_1. now apply (@cramers_radicand_range x y Hlen Hx).
  - rewrite (phi_coefficient_obs x y Hobs), combine_length_eq by assumption.
    eexists. split; [reflexivity|].
    destruct (@phi_radicand_range x y Hlen Hx) as [Hlo Hhi]. fold min_dim in Hhi.
    assert (H0 : (0 <= Q2R (chi2_statistic x y / inject_Z (Z.of_nat (length x))))%R).
    { rewrite <- RMicromega.Q2R_0. now apply Qle_Rle. }
    assert (H1 : (Q2R (chi2_statistic x y / inject_Z (Z.of_nat (length x)))
                  <= IZR min_dim)%R).
    { rewrite <- Q2R_inject_Z. now apply Qle_Rle. }
    assert (Hup : (sqrt (Q2R (chi2_statistic x y / inject_Z (Z.of_nat (length x))))
                   <= sqrt (IZR min_dim))%R).
    { apply sqrt_le_1; [assumption| |assumption]. now apply IZR_le. }
    repeat split.
    + apply sqrt_pos.
    + exact Hup.
    + intros Hsmall. eapply Rle_trans; [exact Hup|].
      rewrite <- sqrt_1. apply sqrt_le_1; [now apply IZR_le|lra|].
      apply IZR_le. unfold min_dim. lia.
Qed.

(** The ranges on two identical series with three categories. *)
Lemma effect_size_ranges_witness :
  (exists v, cramers_v [0; 1; 2]%nat [0; 1; 2]%nat = Some v /\ (0 <= v <= 1)%R) /\
  (exists p, phi_coefficient [0; 1; 2]%nat [0; 1; 2]%nat = Some p /\
             (0 <= p <= sqrt 2)%R /\
             ((3 <= 2)%nat \/ (3 <= 2)%nat -> (p <= 1)%R)).
Proof.
  apply (@effect_size_ranges [0; 1; 2]%nat [0; 1; 2]%nat).
  - reflexivity.
  - discriminate.
Defined.

(** C2, as stated for any number of categories: two identical series
    with three categories have [phi = sqrt 2], outside [[0, 1]]. *)
Lemma phi_coefficient_exceeds_one :
  exists p, phi_coefficient [0; 1; 2]%nat [0; 1; 2]%nat = Some p /\
            ~ (0 <= p <= 1)%R.
Proof.
  eexists. split.
  - apply phi_coefficient_obs. discriminate.
  - intros [_ H]. apply (Rle_not_lt _ _ H). clear H.
    rewrite <- sqrt_1 at 1. apply sqrt_lt_1; [lra| |].
    + rewrite <- RMicromega.Q2R_0. apply Qle_Rle. vm_compute. discriminate.
    + rewrite <- RMicromega.Q2R_1. apply Qlt_Rlt. vm_compute. reflexivity.
Qed.

(** C10.  When the cross-tabulation of two equal-length series has a
    single row or a single column, [cramers_v_with_ci] returns the point
    estimate [0] with the interval [(0, 0)], whatever the random source,
    and leaves the random state as it found it: it is neither seeded nor
    drawn from. *)
Theorem degenerate_table_no_resampling (RS : Numpy.RandomState)
        (x y : Series) (confidence : Q) (st : Numpy.rng_state) :
  length x = length y ->
  fst (shape (crosstab x y)) = 1%nat \/ snd (shape (crosstab x y)) = 1%nat ->
  cramers_v_with_ci x y confidence st = Some ((0%R, (0%R, 0%R)), st).
Proof.
  intros Hlen Hshape.
  unfold shape, crosstab in Hshape. cbn [index columns fst snd] in Hshape.
  rewrite combine_fst, combine_snd in Hshape by assumption.
  fold (nunique x) (nunique y) in Hshape.
  assert (Hx : x <> []).
  { intros ->. destruct y; [|discriminate]. simpl in Hshape.
    destruct Hshape; discriminate. }
  assert (Hy : y <> []) by now apply (same_length_nonempty x y Hlen).
  apply cramers_v_with_ci_degenerate; try assumption.
  pose proof (nunique_pos Hx). pose proof (nunique_pos Hy). lia.
Qed.

(** A single-row table, from a state of the generator seeded with 7. *)
Lemma degenerate_table_no_resampling_witness :
  @cramers_v_with_ci MT19937_RandomState [0; 0; 0]%nat [0; 1; 2]%nat (95 # 100)
                     (MT19937.mt19937_seed 7)
  = Some ((0%R, (0%R, 0%R)), MT19937.mt19937_seed 7).
Proof.
  apply (@degenerate_table_no_resampling MT19937_RandomState
           [0; 0; 0]%nat [0; 1; 2]%nat (95 # 100) (MT19937.mt19937_seed 7)).
  - reflexivity.
  - left. reflexivity.
Defined.







(** C6.  For every list of variable names and every pairwise statistic,
    a matrix returned by [build_effect_size_matrix] is square of
    dimension [len(variables)], has [1.0] on its diagonal (the statistic
    is not consulted there), and is symmetric whenever the statistic is
    symmetric in its arguments; and a matrix is returned whenever the
    columns exist and the statistic returns on them. *)
Theorem effect_size_matrix_square_unit_diagonal
        (df : Frame) (variables : list String.string)
        (effect_func : Series -> Series -> option R) :
  let n := length variables in
  (forall M, build_effect_size_matrix df variables effect_func = Some M ->
     length M = n /\
     (forall i, (i < n)%nat -> length (nth i M []) = n) /\
     (forall i, (i < n)%nat -> cell_at M i i = 1%R) /\
     ((forall a b, effect_func a b = effect_func b a) ->
      forall i j, (i < n)%nat -> (j < n)%nat -> cell_at M i j = cell_at M j i))
  /\
  ((forall vi vj, In vi variables -> In vj variables ->
      exists xi xj r, df vi = Some xi /\ df vj = Some xj /\
                      effect_func xi xj = Some r) ->
   exists M, build_effect_size_matrix df variables effect_func = Some M).
Proof.
  intros n. split.
  - intros M HM.
    destruct (build_shape _ _ _ HM) as [Hlen Hrows].
    split; [exact Hlen|]. split; [exact Hrows|]. split.
    + intros i Hi.
      pose proof (build_cell _ _ _ HM Hi Hi) as Hc.
      unfold effect_cell in Hc. rewrite Nat.eqb_refl in Hc. now inversion Hc.
    + intros Hsym i j Hi Hj.
      pose proof (build_cell _ _ _ HM Hi Hj) as Hij.
      pose proof (build_cell _ _ _ HM Hj Hi) as Hji.
      unfold effect_cell in Hij, Hji.
      destruct (Nat.eqb_spec i j) as [->|Hne]; [reflexivity|].
      destruct (Nat.eqb_spec j i) as [->|_]; [contradiction|].
      destruct (nth_error variables i) as [vi|]; simpl in *; [|discriminate].
      destruct (nth_error variables j) as [vj|]; simpl in *; [|discriminate].
      destruct (df vi) as [xi|]; simpl in *; [|discriminate].
      destruct (df vj) as [xj|]; simpl in *; [|discriminate].
      rewrite (Hsym xi xj), Hji in Hij. now inversion Hij.
  - intros Hf.
    destruct (build_effect_size_matrix df variables effect_func) as [M|] eqn:E;
      [now exists M|exfalso].
    revert E. unfold build_effect_size_matrix.
    apply mapM_total. intros i Hi. apply mapM_total. intros j Hj.
    apply in_seq in Hi, Hj. unfold effect_cell.
    destruct (i =? j); [discriminate|].
    destruct (nth_error variables i) as [vi|] eqn:Ei;
      [|apply nth_error_None in Ei; lia].
    destruct (nth_error variables j) as [vj|] eqn:Ej;
      [|apply nth_error_None in Ej; lia].
    simpl.
    apply nth_error_In in Ei, Ej.
    destruct (Hf vi vj Ei Ej) as (xi & xj & r & -> & -> & Hr).
    simpl. rewrite Hr. discriminate.
Qed.

(** The matrix of two columns under [cramers_v]. *)
Lemma effect_size_matrix_square_unit_diagonal_witness :
  let df := fun v : String.string =>
              if String.eqb v "YSO_CLASS"%string then Some [0; 0; 1; 1; 2]%nat
              else Some [0; 1; 1; 2; 2]%nat in
  let variables := ["YSO_CLASS"; "Variability"]%string in
  exists M, build_effect_size_matrix df variables cramers_v = Some M /\
            length M = 2%nat /\
            cell_at M 0 0 = 1%R /\ cell_at M 1 1 = 1%R.
Proof.
  intros df variables.
  destruct (effect_size_matrix_square_unit_diagonal df variables cramers_v)
    as [Hprop Htotal].
  destruct Htotal as [M HM].
  - intros vi vj _ _. unfold df.
    destruct (String.eqb vi "YSO_CLASS"%string), (String.eqb vj "YSO_CLASS"%string);
      eexists; eexists; eexists; (split; [reflexivity|split; [reflexivity|]]);
      apply cramers_v_obs; discriminate.
  - exists M. destruct (Hprop M HM) as (Hl & _ & Hd & _).
    split; [exact HM|]. split; [exact Hl|].
    split; apply Hd; simpl; lia.
Defined.

(** C9 (amended).  In [create_matplotlib_chord] the rotation of a label
    is the angle of its node in degrees, plus 180 exactly when that angle
    exceeds 180 degrees.  In [improve_chord_labels] the angle read off a
    label position lies in [(-180, 180]]; a label whose angle is above 90
    degrees is rotated by the angle minus 180, and a label whose angle
    lies in [[-90, 90]] by the angle itself. *)
Theorem label_rotation_rule :
  (forall angle : R,
     (180 < Chord.degrees angle ->
      Chord.label_rotation angle = Chord.degrees angle + 180)%R /\
     (Chord.degrees angle <= 180 ->
      Chord.label_rotation angle = Chord.degrees angle)%R) /\
  (forall x y : R,
     let angle := Network.text_angle x y in
     (-180 < angle <= 180)%R /\
     (90 < angle -> snd (Network.improve_chord_label x y) = angle - 180)%R /\
     (-90 <= angle <= 90 -> snd (Network.improve_chord_label x y) = angle)%R).
Proof.
  split.
  - apply label_rotation_cases.
  - intros x y angle. pose proof (text_angle_range x y) as Hr. fold angle in Hr.
    split; [exact Hr|]. unfold Network.improve_chord_label. fold angle. simpl.
    split; intros H.
    + destruct (Rlt_dec 90 angle); [|lra].
      destruct (Rlt_dec angle 270); [reflexivity|lra].
    + destruct (Rlt_dec 90 angle); [lra|reflexivity].
Qed.

(** The last of four nodes sits at 270 degrees and is flipped. *)
Lemma label_rotation_rule_witness :
  Chord.label_rotation (Chord.angles 4 3) = (Chord.degrees (Chord.angles 4 3) + 180)%R.
Proof.
  apply (proj1 label_rotation_rule (Chord.angles 4 3)).
  pose proof PI_RGT_0. unfold Chord.degrees, Chord.angles. simpl INR.
  replace ((1 + 1 + 1) * (2 * PI / (1 + 1 + 1 + 1)) * 180 / PI)%R with 270%R
    by (field; lra).
  lra.
Defined.

(** C9, as stated: the second of three nodes sits at 120 degrees, inside
    (90, 270), and its label is rotated by 120 degrees, not by 300. *)
Lemma label_at_120_degrees_not_flipped :
  let angle := Chord.angles 3 1 in
  (90 < Chord.degrees angle < 270)%R /\
  Chord.label_rotation angle <> (Chord.degrees angle + 180)%R.
Proof.
  pose proof PI_RGT_0 as Hpi. intros angle.
  assert (Hd : Chord.degrees angle = 120%R).
  { unfold angle, Chord.degrees, Chord.angles. simpl INR. field. lra. }
  split; [rewrite Hd; lra|].
  destruct (label_rotation_cases angle) as [_ H].
  rewrite H by (rewrite Hd; lra). lra.
Qed.

(** C7 (amended).  In [create_matplotlib_chord] the threshold is compared
    with the normalised value, the cell divided by the largest cell when
    that is positive and the cell itself otherwise: the chord between row
    [i] and column [j] is in the chord set exactly when that value exceeds
    the threshold.  A cell below the threshold in absolute value is
    therefore excluded whenever the largest cell is at least [1] (counts,
    or a matrix with a unit diagonal).  Drawn or not, every cell is
    counted in the node sizes, which are the sums of the whole row and of
    the whole column.  In the network diagram of [main] the variables
    [i < j] are joined exactly when the correlation exceeds the threshold
    in absolute value; for the entities P, Q, R with threshold 0.1 (and
    with the threshold 0.15 that [main] fixes) the lines are exactly
    (P, R) and (Q, R). *)
Theorem threshold_on_normalised_value :
  (forall (t : ChordFloat.Table) (threshold : Q) (i j : nat),
     (i < length (ChordFloat.index t))%nat ->
     (j < length (ChordFloat.columns t))%nat ->
     let value := Chord.cell 0%Q (ChordFloat.values t) i j in
     let drawn :=
       exists c, In c (ChordFloat.chords t threshold) /\
                 Chord.source c = i /\
                 Chord.target c = (length (ChordFloat.index t) + j)%nat in
     (forall m, ChordFloat.data_max t = Some m -> (0 < m)%Q ->
                (drawn <-> (threshold * m < value)%Q)) /\
     (forall m, ChordFloat.data_max t = Some m -> (m <= 0)%Q ->
                (drawn <-> (threshold < value)%Q)) /\
     (forall m, ChordFloat.data_max t = Some m -> (1 <= m)%Q ->
                (Qabs value < threshold)%Q -> ~ drawn) /\
     nth i (ChordFloat.node_sizes t) 0%Q
     = sumQ (nth i (ChordFloat.values t) []) /\
     nth (length (ChordFloat.index t) + j) (ChordFloat.node_sizes t) 0%Q
     = sumQ (map (fun row => nth j row 0%Q) (ChordFloat.values t))) /\
  (forall (m : Network.CorrMatrix) (threshold : Q) (i j : nat),
     (exists l, In l (Network.lines m threshold) /\
                Network.from l = i /\ Network.to l = j) <->
     (i < j < length (Network.columns m))%nat /\
     (threshold < Qabs (Network.iloc m i j))%Q) /\
  map (Network.endpoints scenario) (Network.lines scenario (1 # 10))
  = [("P", "R"); ("Q", "R")]%string /\
  map (Network.endpoints scenario) (Network.lines scenario Network.threshold)
  = [("P", "R"); ("Q", "R")]%string.
Proof.
  split; [|split; [|split]].
  - intros t threshold i j Hi Hj value drawn.
    pose proof (float_chord_iff t threshold Hi Hj) as Hiff. fold drawn in Hiff.
    assert (Hpos : forall m, ChordFloat.data_max t = Some m -> (0 < m)%Q ->
                     (drawn <-> (threshold * m < value)%Q)).
    { intros m Em Hm. rewrite Hiff.
      destruct (float_data_norm_cell t i j Em) as [Hv _].
      rewrite (Hv Hm). fold value. split; intros H.
      - apply (Qmult_lt_compat_r _ _ m) in H; [|assumption].
        setoid_replace (value / m * m)%Q with value in H by (field; lra).
        exact H.
      - now apply Qlt_shift_div_l. }
    split; [exact Hpos|]. split; [|split; [|split]].
    + intros m Em Hm. rewrite Hiff.
      destruct (float_data_norm_cell t i j Em) as [_ Hv].
      rewrite (Hv Hm). reflexivity.
    + intros m Em Hm Habs Hd. apply (Hpos m Em) in Hd; [|lra].
      pose proof (Qle_Qabs value) as Hle.
      pose proof (Qabs_nonneg value) as H0.
      set (a := Qabs value) in *. nra.
    + rewrite float_node_sizes_nth by lia.
      destruct (Nat.ltb_spec i (length (ChordFloat.index t))); [reflexivity|lia].
    + rewrite float_node_sizes_nth by lia.
      destruct (Nat.ltb_spec (length (ChordFloat.index t) + j)
                             (length (ChordFloat.index t))); [lia|].
      now replace (length (ChordFloat.index t) + j
                   - length (ChordFloat.index t))%nat with j by lia.
  - intros m threshold i j. split.
    + intros (l & Hl & Hf & Ht). apply lines_in in Hl.
      destruct Hl as (i' & j' & Hij & Hgt & ->). simpl in Hf, Ht. subst. tauto.
    + intros [Hij Hgt]. eexists. split.
      * apply lines_in. exists i, j. repeat split; try lia; assumption.
      * split; reflexivity.
  - vm_compute. reflexivity.
  - vm_compute. reflexivity.
Qed.

(** A table of counts at threshold 0.2: the count 5 is a ninth of the
    largest cell and gets no chord, the count 10 gets one, and both are
    in the sizes of their nodes. *)
Lemma threshold_on_normalised_value_witness :
  let t := ChordFloat.mkTable [0; 1]%nat [0; 1]%nat [[40; 10]; [5; 45]]%Q in
  ~ (exists c, In c (ChordFloat.chords t (2 # 10)) /\
               Chord.source c = 1%nat /\ Chord.target c = (2 + 0)%nat) /\
  (exists c, In c (ChordFloat.chords t (2 # 10)) /\
             Chord.source c = 0%nat /\ Chord.target c = (2 + 1)%nat) /\
  nth 1 (ChordFloat.node_sizes t) 0%Q = 50%Q /\
  nth (2 + 0) (ChordFloat.node_sizes t) 0%Q = 45%Q.
Proof.
  intros t.
  destruct (proj1 threshold_on_normalised_value t (2 # 10) 1%nat 0%nat)
    as (H1 & _ & _ & H4 & H5); [simpl; lia|simpl; lia|].
  destruct (proj1 threshold_on_normalised_value t (2 # 10) 0%nat 1%nat)
    as (H1' & _); [simpl; lia|simpl; lia|].
  split; [|split; [|split]].
  - intros Hd. apply (H1 45%Q) in Hd; [|reflexivity|reflexivity].
    vm_compute in Hd. discriminate.
  - apply (H1' 45%Q); reflexivity.
  - exact H4.
  - exact H5.
Defined.

(** C7, as stated: in [create_matplotlib_chord] the threshold is compared
    with the cell divided by the largest cell, so a cell of 0.15 under a
    threshold of 0.16 is drawn when the largest cell is 0.2; and the
    matrix of P, Q, R at threshold 0.1 gives seven chords from a row node
    to a column node (the diagonal and both directions), not the two
    pairs. *)
Lemma scaled_cell_below_threshold_is_drawn :
  let t := ChordFloat.mkTable [0]%nat [0; 1]%nat [[15 # 100; 20 # 100]]%Q in
  (Qabs (Chord.cell 0%Q (ChordFloat.values t) 0 0) < 16 # 100)%Q /\
  (exists c, In c (ChordFloat.chords t (16 # 100)) /\
             Chord.source c = 0%nat /\ Chord.target c = (1 + 0)%nat) /\
  map (fun c => (Chord.source c, Chord.target c))
      (ChordFloat.chords scenario_table (1 # 10))
  = [(0, 3); (0, 5); (1, 4); (1, 5); (2, 3); (2, 4); (2, 5)]%nat.
Proof.
  intros t. split; [reflexivity|]. split.
  - eexists. split; [vm_compute; left; reflexivity|]. split; reflexivity.
  - vm_compute. reflexivity.
Qed.



(* ================================================================== *)
(** * Further properties of the code *)
(* ================================================================== *)

(** X1.  [cramers_v] and [phi_coefficient] are symmetric: exchanging the
    two series gives the same result, a value or an error. *)
Theorem effect_sizes_symmetric (x y : Series) :
  cramers_v y x = cramers_v x y /\
  phi_coefficient y x = phi_coefficient x y.
Proof. split; [apply cramers_v_sym|apply phi_coefficient_sym]. Qed.

(** X2.  On equal-length series with exactly two values each (a 2 x 2
    table, where [chi2_contingency] applies Yates' correction)
    [cramers_v] and [phi_coefficient] return the same number, and it is
    strictly below [1], however strongly the series are associated. *)
Theorem two_by_two_effect_sizes (x y : Series) :
  length x = length y -> nunique x = 2%nat -> nunique y = 2%nat ->
  exists v, cramers_v x y = Some v /\ phi_coefficient x y = Some v
            /\ (0 <= v < 1)%R.
Proof.
  intros Hlen Hx Hy.
  assert (Hxne : x <> []) by (apply nunique_nonempty; lia).
  assert (Hne : combine x y <> []) by now apply combine_nonempty.
  pose proof (yates_chi_squared_lt x y Hne) as Hlt.
  rewrite combine_snd, combine_length_eq in Hlt by assumption.
  rewrite Hy in Hlt. specialize (Hlt (le_n 2)).
  assert (Hchi : chi2_statistic x y = yates_chi_squared x y).
  { unfold chi2_statistic. rewrite combine_fst, combine_snd by assumption.
    now rewrite Hx, Hy. }
  assert (Hn : (0 < inject_Z (Z.of_nat (length x)))%Q).
  { apply inject_Z_pos. destruct x; [contradiction|simpl length; lia]. }
  assert (Hmd : min_dim_of (crosstab x y) = 1%Z).
  { rewrite min_dim_of_crosstab by assumption. rewrite Hx, Hy. reflexivity. }
  exists (sqrt (Q2R (chi2_statistic x y / inject_Z (Z.of_nat (length x))))).
  split; [|split].
  - rewrite cramers_v_obs by assumption. rewrite Hmd.
    rewrite combine_length_eq by assumption.
    cbn [Z.eqb]. now rewrite Z.mul_1_r.
  - rewrite phi_coefficient_obs by assumption.
    now rewrite combine_length_eq by assumption.
  - apply sqrt_Q2R_lt_1. rewrite Hchi. split.
    + apply Qle_shift_div_l; [assumption|]. rewrite Qmult_0_l.
      rewrite <- Hchi. now apply chi2_statistic_nonneg.
    + apply Qlt_shift_div_r; [assumption|].
      change (inject_Z (Z.of_nat 2)) with 2%Q in Hlt. lra.
Qed.

Lemma two_by_two_effect_sizes_witness :
  exists v, cramers_v [0; 1; 0; 1]%nat [0; 1; 0; 1]%nat = Some v /\
            phi_coefficient [0; 1; 0; 1]%nat [0; 1; 0; 1]%nat = Some v /\
            (0 <= v < 1)%R.
Proof.
  apply (@two_by_two_effect_sizes [0; 1; 0; 1]%nat [0; 1; 0; 1]%nat);
    reflexivity.
Defined.

(** X3.  On equal-length series with at least two values each,
    [phi_coefficient] is [cramers_v] multiplied by
    [sqrt (min (rows, cols) - 1)]: the two differ only by the division by
    [min_dim]. *)
Theorem phi_coefficient_cramers_v (x y : Series) :
  length x = length y -> (2 <= nunique x)%nat -> (2 <= nunique y)%nat ->
  exists v p, cramers_v x y = Some v /\ phi_coefficient x y = Some p /\
    p = (sqrt (IZR (Z.of_nat (Nat.min (nunique x) (nunique y)) - 1)) * v)%R.
Proof.
  intros Hlen Hx Hy.
  assert (Hxne : x <> []) by (apply nunique_nonempty; lia).
  assert (Hne : combine x y <> []) by now apply combine_nonempty.
  set (md := (Z.of_nat (Nat.min (nunique x) (nunique y)) - 1)%Z).
  assert (Hmd : (0 < md)%Z) by (unfold md; lia).
  assert (Hn : (0 < Z.of_nat (length x))%Z)
    by (destruct x; [contradiction|simpl length; lia]).
  do 2 eexists. split; [|split].
  - rewrite cramers_v_obs by assumption.
    rewrite min_dim_of_crosstab by assumption. fold md.
    destruct (Z.eqb_spec md 0); [lia|]. reflexivity.
  - now rewrite phi_coefficient_obs by assumption.
  - rewrite combine_length_eq by assumption.
    rewrite <- sqrt_mult.
    + f_equal. rewrite <- Q2R_inject_Z, <- Q2R_mult. apply Qeq_eqR.
      rewrite inject_Z_mult. field. split.
      * assert (0 < inject_Z md)%Q by now apply inject_Z_pos. lra.
      * assert (0 < inject_Z (Z.of_nat (length x)))%Q by now apply inject_Z_pos. lra.
    + apply IZR_le. lia.
    + rewrite <- RMicromega.Q2R_0. apply Qle_Rle.
      apply Qle_shift_div_l.
      * apply inject_Z_pos. nia.
      * rewrite Qmult_0_l. now apply chi2_statistic_nonneg.
Qed.

Lemma phi_coefficient_cramers_v_witness :
  exists v p, cramers_v [0; 1; 2]%nat [0; 1; 2]%nat = Some v /\
    phi_coefficient [0; 1; 2]%nat [0; 1; 2]%nat = Some p /\
    p = (sqrt (IZR (Z.of_nat (Nat.min (nunique [0; 1; 2]%nat)
                                      (nunique [0; 1; 2]%nat)) - 1)) * v)%R.
Proof.
  apply (@phi_coefficient_cramers_v [0; 1; 2]%nat [0; 1; 2]%nat);
    [reflexivity|vm_compute; lia|vm_compute; lia].
Defined.

(** X4.  The network loop of [main] joins the variables [i] and [j]
    exactly when [i < j < n_vars] and [abs(corr_matrix.iloc[i, j])]
    exceeds the threshold: it reads only the cells above the diagonal,
    never joins a variable to itself, and draws each pair at most once. *)
Theorem network_lines_pairs (m : Network.CorrMatrix) (threshold : Q) :
  (forall i j,
     (exists l, In l (Network.lines m threshold) /\
                Network.from l = i /\ Network.to l = j) <->
     (i < j < length (Network.columns m))%nat /\
     (threshold < Qabs (Network.iloc m i j))%Q) /\
  NoDup (map (fun l => (Network.from l, Network.to l))
             (Network.lines m threshold)).
Proof.
  split; [|apply lines_NoDup].
  intros i j. split.
  - intros (l & Hl & Hf & Ht). apply lines_in in Hl.
    destruct Hl as (i' & j' & Hij & Hgt & ->). simpl in Hf, Ht. subst. tauto.
  - intros [Hij Hgt]. eexists. split.
    + apply lines_in. exists i, j. repeat split; try lia; assumption.
    + split; reflexivity.
Qed.

(** X5.  For a non-negative threshold every line of the network has a
    width above [0.5] and an opacity in [(0.3, 0.9]], and it is red
    exactly when the correlation it stands for is negative. *)
Theorem network_line_style (m : Network.CorrMatrix) (threshold : Q)
        (l : Network.line) :
  (0 <= threshold)%Q ->
  In l (Network.lines m threshold) ->
  ((1 # 2) < Network.linewidth l)%Q /\
  ((3 # 10) < Network.alpha l <= (9 # 10))%Q /\
  (Network.color l = Network.red <->
   (Network.iloc m (Network.from l) (Network.to l) < 0)%Q).
Proof.
  intros Ht Hl. apply lines_in in Hl.
  destruct Hl as (i & j & Hij & Hgt & ->). cbn.
  set (r := Network.iloc m i j) in *. split; [|split].
  - lra.
  - split.
    + apply Q.min_glb_lt; lra.
    + apply Q.le_min_r.
  - destruct (Qle_bool 0 r) eqn:E; simpl.
    + apply Qle_bool_iff in E. split; [discriminate|lra].
    + split; [intros _|reflexivity]. apply Qnot_le_lt. intros H.
      apply Qle_bool_iff in H. congruence.
Qed.

Lemma network_line_style_witness :
  ((1 # 2) < Network.linewidth (Network.mkLine 0 2 (33000 # 10000) Network.blue (600 # 1000)))%Q /\
  ((3 # 10) < Network.alpha (Network.mkLine 0 2 (33000 # 10000) Network.blue (600 # 1000))
   <= (9 # 10))%Q /\
  (Network.color (Network.mkLine 0 2 (33000 # 10000) Network.blue (600 # 1000))
   = Network.red <->
   (Network.iloc scenario 0 2 < 0)%Q).
Proof.
  apply (@network_line_style scenario Network.threshold
           (Network.mkLine 0 2 (33000 # 10000) Network.blue (600 # 1000))).
  - vm_compute. discriminate.
  - vm_compute. left. reflexivity.
Defined.

(** X6.  Lowering the threshold of the network loop keeps every line:
    a line drawn at threshold [t2] is also drawn at any [t1 <= t2], with
    the same colour and opacity and a width larger by [8 * (t2 - t1)]. *)
Theorem network_threshold_monotone (m : Network.CorrMatrix) (t1 t2 : Q)
        (l2 : Network.line) :
  (t1 <= t2)%Q ->
  In l2 (Network.lines m t2) ->
  exists l1, In l1 (Network.lines m t1) /\
    Network.from l1 = Network.from l2 /\ Network.to l1 = Network.to l2 /\
    Network.color l1 = Network.color l2 /\
    Network.alpha l1 = Network.alpha l2 /\
    (Network.linewidth l1 == Network.linewidth l2 + (t2 - t1) * 8)%Q.
Proof.
  intros Ht Hl. apply lines_in in Hl.
  destruct Hl as (i & j & Hij & Hgt & ->).
  eexists. split.
  - apply lines_in. exists i, j. split; [exact Hij|]. split; [lra|reflexivity].
  - cbn. repeat split; try reflexivity. ring.
Qed.

Lemma network_threshold_monotone_witness :
  exists l1, In l1 (Network.lines scenario (5 # 100)) /\
    Network.from l1 = 0%nat /\ Network.to l1 = 2%nat /\
    Network.color l1 = Network.blue /\
    Network.alpha l1 = (600 # 1000) /\
    (Network.linewidth l1 == (33000 # 10000) + (Network.threshold - (5 # 100)) * 8)%Q.
Proof.
  apply (@network_threshold_monotone scenario (5 # 100) Network.threshold
           (Network.mkLine 0 2 (33000 # 10000) Network.blue (600 # 1000))).
  - vm_compute. discriminate.
  - vm_compute. left. reflexivity.
Defined.



(** X8.  When the largest cell [m] of the table is positive, the chord
    between row [i] and column [j] is drawn exactly when the count of the
    cell exceeds [threshold * m]: the threshold is relative to the
    largest cell, not a count. *)
Theorem chord_drawn_iff (t : DataFrame) (threshold m : Q) (i j : nat) :
  Chord.data_max t = Some m -> (0 < m)%Q ->
  (i < length (index t))%nat -> (j < length (columns t))%nat ->
  ((exists c, In c (Chord.chords t threshold) /\
              Chord.source c = i /\
              Chord.target c = (length (index t) + j)%nat) <->
   (threshold * m < inject_Z (Chord.cell 0%Z (values t) i j))%Q).
Proof.
  intros Em Hm Hi Hj.
  pose proof (data_norm_cell t i j Em Hm) as Hv.
  assert (Hiff : (threshold < Chord.cell 0 (Chord.data_norm t) i j
                  <-> threshold * m
                      < inject_Z (Chord.cell 0%Z (values t) i j))%Q).
  { rewrite Hv. split; intros H.
    - apply (Qmult_lt_compat_r _ _ m) in H; [|assumption].
      setoid_replace (inject_Z (Chord.cell 0%Z (values t) i j) / m * m)%Q
        with (inject_Z (Chord.cell 0%Z (values t) i j)) in H
        by (field; lra).
      exact H.
    - apply Qlt_shift_div_l; assumption. }
  split.
  - intros (c & Hc & Hs & Ht). apply chords_in in Hc.
    destruct Hc as (i' & j' & Hi' & Hj' & Hgt & ->). simpl in Hs, Ht.
    assert (j' = j) by lia. subst i' j'. now apply Hiff.
  - intros H. eexists. split.
    + apply chords_in. exists i, j. repeat split; try assumption.
      now apply Hiff.
    + split; reflexivity.
Qed.

Lemma chord_drawn_iff_witness :
  (exists c, In c (Chord.chords (crosstab [0; 0; 1; 1; 1]%nat [0; 1; 0; 1; 1]%nat) (6 # 10)) /\
             Chord.source c = 0%nat /\
             Chord.target c = (length (index (crosstab [0; 0; 1; 1; 1]%nat [0; 1; 0; 1; 1]%nat)) + 1)%nat) <->
  ((6 # 10) * 2 < inject_Z (Chord.cell 0%Z (values (crosstab [0; 0; 1; 1; 1]%nat [0; 1; 0; 1; 1]%nat)) 0 1))%Q.
Proof.
  apply (@chord_drawn_iff (crosstab [0; 0; 1; 1; 1]%nat [0; 1; 0; 1; 1]%nat) (6 # 10) 2 0 1).
  - reflexivity.
  - reflexivity.
  - simpl. lia.
  - simpl. lia.
Defined.



(** X10.  A table without a positive cell (in particular an empty or an
    all-zero one, which is left unnormalised) gives no chord at any
    non-negative threshold. *)
Theorem no_positive_cell_no_chord (t : DataFrame) (threshold : Q) :
  (forall z, In z (concat (values t)) -> (z <= 0)%Z) ->
  (0 <= threshold)%Q ->
  Chord.chords t threshold = [].
Proof.
  intros Hall Ht.
  assert (Hdata : forall v, In v (concat (Chord.data t)) -> (v <= 0)%Q).
  { intros v Hv. apply in_concat in Hv. destruct Hv as (row & Hrow & Hv).
    unfold Chord.data in Hrow. apply in_map_iff in Hrow.
    destruct Hrow as (zrow & <- & Hz). apply in_map_iff in Hv.
    destruct Hv as (z & <- & Hz').
    change 0%Q with (inject_Z 0). rewrite <- Zle_Qle.
    apply Hall, in_concat. now exists zrow. }
  assert (Hnorm : Chord.data_norm t = Chord.data t).
  { unfold Chord.data_norm. destruct (Chord.data_max t) as [m|] eqn:Em;
      [|reflexivity].
    unfold Chord.data_max in Em. apply max_list_spec in Em.
    destruct Em as [Hin _]. apply Hdata in Hin.
    apply Qle_bool_iff in Hin. now rewrite Hin. }
  destruct (Chord.chords t threshold) as [|c l] eqn:E; [reflexivity|].
  exfalso.
  assert (Hc : In c (Chord.chords t threshold)) by (rewrite E; now left).
  apply chords_in in Hc. destruct Hc as (i & j & _ & _ & Hgt & _).
  rewrite Hnorm in Hgt.
  destruct (cell_cases 0%Q (Chord.data t) i j) as [Hin|H0].
  - apply Hdata in Hin. lra.
  - rewrite H0 in Hgt. lra.
Qed.

Lemma no_positive_cell_no_chord_witness :
  Chord.chords (mkDataFrame [0; 1]%nat [0; 1]%nat [[0; 0]; [0; 0]]%Z)
               Chord.default_threshold = [].
Proof.
  apply no_positive_cell_no_chord.
  - simpl. intros z Hz. intuition lia.
  - vm_compute. discriminate.
Defined.

(** X11.  Node [i] of [n_cats] sits at an angle in [[0, 2 pi)], and,
    unless it sits at exactly half a turn ([2 * i = n_cats], where the
    comparison with [np.pi] is decided by the rounding of [np.linspace]),
    its label is rotated by [360 * i / n_cats] degrees, plus [180]
    exactly for the nodes past the half turn ([2 * i > n_cats]). *)
Theorem node_label_rotation (n_cats i : nat) :
  (i < n_cats)%nat -> (2 * i <> n_cats)%nat ->
  (0 <= Chord.angles n_cats i < 2 * PI)%R /\
  Chord.label_rotation (Chord.angles n_cats i) =
  (360 * INR i / INR n_cats
   + (if (n_cats <? 2 * i)%nat then 180 else 0))%R.
Proof.
  intros Hi Htie. pose proof PI_RGT_0 as Hpi.
  assert (Hn : (0 < INR n_cats)%R) by (apply lt_0_INR; lia).
  assert (Hi0 : (0 <= INR i)%R) by apply pos_INR.
  assert (Hlt : (INR i < INR n_cats)%R) by now apply lt_INR.
  assert (Hang : Chord.angles n_cats i = (INR i / INR n_cats * (2 * PI))%R).
  { unfold Chord.angles. field. lra. }
  assert (Hq : (0 <= INR i / INR n_cats < 1)%R).
  { split.
    - apply Rmult_le_pos; [assumption|]. left. now apply Rinv_0_lt_compat.
    - apply Rmult_lt_reg_r with (INR n_cats); [assumption|].
      unfold Rdiv. rewrite Rmult_assoc, Rinv_l by lra. lra. }
  split.
  - rewrite Hang. set (q := (INR i / INR n_cats)%R) in *. split; nra.
  - unfold Chord.label_rotation, Chord.degrees.
    assert (Hdeg : (Chord.angles n_cats i * 180 / PI
                    = 360 * INR i / INR n_cats)%R).
    { rewrite Hang. field. split; lra. }
    rewrite Hdeg.
    destruct (Nat.ltb_spec n_cats (2 * i)) as [H2|H2].
    + destruct (Rlt_dec PI (Chord.angles n_cats i)) as [_|Hn']; [reflexivity|].
      exfalso. apply Hn'. rewrite Hang.
      assert (INR n_cats < 2 * INR i)%R.
      { replace 2%R with (INR 2) by reflexivity. rewrite <- mult_INR.
        now apply lt_INR. }
      assert (1 / 2 < INR i / INR n_cats)%R.
      { apply Rmult_lt_reg_r with (INR n_cats); [assumption|].
        unfold Rdiv at 2. rewrite Rmult_assoc, Rinv_l by lra. lra. }
      set (q := (INR i / INR n_cats)%R) in *. nra.
    + destruct (Rlt_dec PI (Chord.angles n_cats i)) as [Hp|_]; [|lra].
      exfalso. rewrite Hang in Hp.
      assert (2 * INR i <= INR n_cats)%R.
      { replace 2%R with (INR 2) by reflexivity. rewrite <- mult_INR.
        now apply le_INR. }
      assert (INR i / INR n_cats <= 1 / 2)%R.
      { apply Rmult_le_reg_r with (INR n_cats); [assumption|].
        unfold Rdiv at 1. rewrite Rmult_assoc, Rinv_l by lra. lra. }
      set (q := (INR i / INR n_cats)%R) in *. nra.
Qed.

Lemma node_label_rotation_witness :
  (0 <= Chord.angles 4 3 < 2 * PI)%R /\
  Chord.label_rotation (Chord.angles 4 3) =
  (360 * INR 3 / INR 4 + (if (4 <? 2 * 3)%nat then 180 else 0))%R.
Proof. apply (@node_label_rotation 4 3); lia. Defined.

(** X12.  The point estimate that [cramers_v_with_ci] returns is the
    value of [cramers_v] on the same series: for non-empty equal-length
    series, a confidence level in [[0, 1]] and a random source that
    honours its contract, both return and the two numbers are equal. *)
Theorem bootstrap_point_estimate (RS : Numpy.RandomState)
        (x y : Series) (confidence : Q) (st : Numpy.rng_state) :
  Numpy.choice_returns RS ->
  length x = length y -> x <> [] -> (0 <= confidence <= 1)%Q ->
  exists v ci st',
    cramers_v_with_ci x y confidence st = Some ((v, ci), st') /\
    cramers_v x y = Some v.
Proof.
  intros Hch same_length Hx Hc.
  assert (Hne : combine x y <> []) by now apply combine_nonempty.
  rewrite (cramers_v_obs x y Hne). cbv zeta.
  rewrite min_dim_of_crosstab by assumption.
  rewrite combine_length_eq by assumption.
  set (md := (Z.of_nat (Nat.min (nunique x) (nunique y)) - 1)%Z).
  destruct (Z.eqb_spec md 0) as [Hmd|Hmd].
  - exists 0%R, (0%R, 0%R), st. split; [|reflexivity].
    now apply cramers_v_with_ci_degenerate.
  - destruct (@draw_resamples_total RS x y same_length Hch 1000
                (Numpy.seed 42) Hx) as (rs & st' & Hd & _ & Hv).
    destruct (@cramers_v_with_ci_bootstrap RS x y confidence same_length Hx
                st st' rs Hmd Hc Hd Hv) as (lo & hi & _ & _ & _ & Hr).
    eexists. exists (lo, hi), st'. split; [exact Hr|reflexivity].
Qed.

Lemma bootstrap_point_estimate_witness :
  exists v ci st',
    @cramers_v_with_ci LCG_RandomState [0; 1; 0; 1; 2]%nat [0; 1; 1; 0; 2]%nat (95 # 100) 7%Z
    = Some ((v, ci), st') /\
    cramers_v [0; 1; 0; 1; 2]%nat [0; 1; 1; 0; 2]%nat = Some v.
Proof.
  apply (@bootstrap_point_estimate LCG_RandomState [0; 1; 0; 1; 2]%nat [0; 1; 1; 0; 2]%nat (95 # 100) 7%Z).
  - exact LCG_choice_returns.
  - reflexivity.
  - discriminate.
  - split; vm_compute; discriminate.
Defined.

(** X13.  On a table with at least two rows and two columns
    [cramers_v_with_ci] re-seeds the random state with 42 before the
    first draw: its result, and the random state it leaves behind, do not
    depend on the state the random generator was in when it was called. *)
Theorem bootstrap_reseeds (RS : Numpy.RandomState)
        (x y : Series) (confidence : Q) (st1 st2 : Numpy.rng_state) :
  length x = length y -> (2 <= nunique x)%nat -> (2 <= nunique y)%nat ->
  cramers_v_with_ci x y confidence st1 = cramers_v_with_ci x y confidence st2.
Proof.
  intros same_length Hx Hy. unfold cramers_v_with_ci.
  destruct (Scipy.chi2_contingency (values (crosstab x y))); [|reflexivity].
  cbn [bind]. rewrite min_dim_of_crosstab by assumption.
  destruct (Z.eqb_spec (Z.of_nat (Nat.min (nunique x) (nunique y)) - 1) 0);
    [lia|reflexivity].
Qed.

Lemma bootstrap_reseeds_witness :
  @cramers_v_with_ci LCG_RandomState [0; 1; 0; 1; 2]%nat [0; 1; 1; 0; 2]%nat (95 # 100) 7%Z
  = @cramers_v_with_ci LCG_RandomState [0; 1; 0; 1; 2]%nat [0; 1; 1; 0; 2]%nat (95 # 100) 11%Z.
Proof.
  apply (@bootstrap_reseeds LCG_RandomState [0; 1; 0; 1; 2]%nat [0; 1; 1; 0; 2]%nat (95 # 100) 7%Z 11%Z).
  - reflexivity.
  - vm_compute. lia.
  - vm_compute. lia.
Defined.

(** X14.  On a table with at least two rows and two columns, a
    confidence level below [-1] or above [1] (a percentage such as 95
    passed for 0.95) makes [cramers_v_with_ci] raise: [np.percentile]
    rejects a percentile outside [[0, 100]]. *)
Theorem bootstrap_confidence_out_of_range (RS : Numpy.RandomState)
        (x y : Series) (confidence : Q) (st : Numpy.rng_state) :
  length x = length y -> (2 <= nunique x)%nat -> (2 <= nunique y)%nat ->
  (confidence < -1 \/ 1 < confidence)%Q ->
  cramers_v_with_ci x y confidence st = None.
Proof.
  intros same_length Hx Hy Hc. unfold cramers_v_with_ci.
  destruct (Scipy.chi2_contingency (values (crosstab x y))); [|reflexivity].
  cbn [bind]. rewrite min_dim_of_crosstab by assumption.
  destruct (Z.eqb_spec (Z.of_nat (Nat.min (nunique x) (nunique y)) - 1) 0);
    [lia|].
  destruct (bootstrap_loop _ _ _ _ _) as [[vs st']|]; [|reflexivity].
  cbn [bind fst snd].
  rewrite percentile_out_of_range; [reflexivity|].
  assert (Hal : ((1 - confidence) / 2 == (1 - confidence) * (1 # 2))%Q) by field.
  rewrite Hal. lra.
Qed.

Lemma bootstrap_confidence_out_of_range_witness :
  @cramers_v_with_ci LCG_RandomState [0; 1; 0; 1; 2]%nat [0; 1; 1; 0; 2]%nat 95 7%Z = None.
Proof.
  apply (@bootstrap_confidence_out_of_range LCG_RandomState [0; 1; 0; 1; 2]%nat [0; 1; 1; 0; 2]%nat 95 7%Z).
  - reflexivity.
  - vm_compute. lia.
  - vm_compute. lia.
  - right. reflexivity.
Defined.

(** X15.  A higher confidence level gives a wider interval around the
    same point estimate: for [0 <= c1 <= c2 <= 1] the interval at [c1]
    lies within the interval at [c2]. *)
Theorem bootstrap_interval_widens (RS : Numpy.RandomState)
        (x y : Series) (c1 c2 : Q) (st : Numpy.rng_state) :
  Numpy.choice_returns RS -> length x = length y -> x <> [] ->
  (0 <= c1)%Q -> (c1 <= c2)%Q -> (c2 <= 1)%Q ->
  exists v l1 u1 l2 u2 s1 s2,
    cramers_v_with_ci x y c1 st = Some ((v, (l1, u1)), s1) /\
    cramers_v_with_ci x y c2 st = Some ((v, (l2, u2)), s2) /\
    (l2 <= l1 /\ l1 <= u1 /\ u1 <= u2)%R.
Proof.
  intros Hch same_length Hx H0 H12 H1.
  set (md := (Z.of_nat (Nat.min (nunique x) (nunique y)) - 1)%Z).
  destruct (Z.eq_dec md 0) as [Hmd|Hmd].
  - exists 0%R, 0%R, 0%R, 0%R, 0%R, st, st.
    rewrite !cramers_v_with_ci_degenerate by assumption.
    repeat split; lra.
  - destruct (@draw_resamples_total RS x y same_length Hch 1000
                (Numpy.seed 42) Hx) as (rs & st' & Hd & Hlen & Hv).
    assert (Hc1 : (0 <= c1 <= 1)%Q) by (split; lra).
    assert (Hc2 : (0 <= c2 <= 1)%Q) by (split; lra).
    destruct (@cramers_v_with_ci_bootstrap RS x y c1 same_length Hx
                st st' rs Hmd Hc1 Hd Hv) as (l1 & u1 & Hl1 & Hu1 & Hlu1 & Hr1).
    destruct (@cramers_v_with_ci_bootstrap RS x y c2 same_length Hx
                st st' rs Hmd Hc2 Hd Hv) as (l2 & u2 & Hl2 & Hu2 & Hlu2 & Hr2).
    fold md in Hl1, Hu1, Hl2, Hu2.
    set (vb := map (resampled_statistic x y md) rs) in *.
    assert (Hne : vb <> []).
    { unfold vb. destruct rs; [discriminate Hlen|discriminate]. }
    assert (Ha1 : ((1 - c1) / 2 == (1 - c1) * (1 # 2))%Q) by field.
    assert (Ha2 : ((1 - c2) / 2 == (1 - c2) * (1 # 2))%Q) by field.
    destruct (@percentile_mono vb ((1 - c2) / 2 * 100) ((1 - c1) / 2 * 100) Hne)
      as (a & b & Ea & Eb & Hab); try (rewrite ?Ha1, ?Ha2; lra).
    destruct (@percentile_mono vb ((1 - (1 - c1) / 2) * 100)
                ((1 - (1 - c2) / 2) * 100) Hne)
      as (c & d & Ec & Ed & Hcd); try (rewrite ?Ha1, ?Ha2; lra).
    rewrite Hl2 in Ea. rewrite Hl1 in Eb. rewrite Hu1 in Ec. rewrite Hu2 in Ed.
    inversion Ea; inversion Eb; inversion Ec; inversion Ed; subst.
    eexists. exists b, c, a, d, st', st'.
    split; [exact Hr1|]. split; [exact Hr2|]. repeat split; assumption.
Qed.

Lemma bootstrap_interval_widens_witness :
  exists v l1 u1 l2 u2 s1 s2,
    @cramers_v_with_ci LCG_RandomState [0; 1; 0; 1; 2]%nat [0; 1; 1; 0; 2]%nat (90 # 100) 7%Z
    = Some ((v, (l1, u1)), s1) /\
    @cramers_v_with_ci LCG_RandomState [0; 1; 0; 1; 2]%nat [0; 1; 1; 0; 2]%nat (95 # 100) 7%Z
    = Some ((v, (l2, u2)), s2) /\
    (l2 <= l1 /\ l1 <= u1 /\ u1 <= u2)%R.
Proof.
  apply (@bootstrap_interval_widens LCG_RandomState [0; 1; 0; 1; 2]%nat [0; 1; 1; 0; 2]%nat
           (90 # 100) (95 # 100) 7%Z).
  - exact LCG_choice_returns.
  - reflexivity.
  - discriminate.
  - vm_compute. discriminate.
  - vm_compute. discriminate.
  - vm_compute. discriminate.
Defined.

(** X16.  For a frame whose listed columns all have the same non-zero
    length, [build_effect_size_matrix] returns a symmetric matrix both
    with [cramers_v] and with [phi_coefficient]; the cells of the first
    lie in [[0, 1]], those of the second are non-negative. *)
Theorem effect_size_matrices_symmetric (df : Frame)
        (variables : list String.string) (n : nat) :
  (forall v, In v variables -> exists s, df v = Some s /\ length s = n) ->
  (0 < n)%nat ->
  (exists M, build_effect_size_matrix df variables cramers_v = Some M /\
     forall i j, (i < length variables)%nat -> (j < length variables)%nat ->
       cell_at M i j = cell_at M j i /\ (0 <= cell_at M i j <= 1)%R) /\
  (exists M, build_effect_size_matrix df variables phi_coefficient = Some M /\
     forall i j, (i < length variables)%nat -> (j < length variables)%nat ->
       cell_at M i j = cell_at M j i /\ (0 <= cell_at M i j)%R).
Proof.
  intros Hcols Hn.
  assert (Hne : forall s : Series, length s = n -> s <> []).
  { intros s Hs ->. simpl in Hs. lia. }
  split.
  - apply (@build_symmetric df variables n cramers_v
             (fun v => (0 <= v <= 1)%R) Hcols); [|lra].
    intros xi xj Li Lj.
    destruct (@cramers_v_range xi xj) as (v & Hv & Hr);
      [congruence|now apply Hne|].
    exists v. split; [exact Hv|]. split; [|exact Hr].
    rewrite (cramers_v_sym xi xj). exact Hv.
  - apply (@build_symmetric df variables n phi_coefficient
             (fun v => (0 <= v)%R) Hcols); [|lra].
    intros xi xj Li Lj.
    assert (Hobs : combine xi xj <> []).
    { apply combine_nonempty; [congruence|now apply Hne]. }
    eexists. split; [now apply phi_coefficient_obs|]. split; [|apply sqrt_pos].
    rewrite (phi_coefficient_sym xi xj). now apply phi_coefficient_obs.
Qed.

Lemma effect_size_matrices_symmetric_witness :
  let df := fun v : String.string =>
              if String.eqb v "YSO_CLASS"%string then Some [0; 0; 1; 1; 2]%nat
              else Some [0; 1; 1; 2; 2]%nat in
  let variables := ["YSO_CLASS"; "Variability"]%string in
  (exists M, build_effect_size_matrix df variables cramers_v = Some M /\
     forall i j, (i < length variables)%nat -> (j < length variables)%nat ->
       cell_at M i j = cell_at M j i /\ (0 <= cell_at M i j <= 1)%R) /\
  (exists M, build_effect_size_matrix df variables phi_coefficient = Some M /\
     forall i j, (i < length variables)%nat -> (j < length variables)%nat ->
       cell_at M i j = cell_at M j i /\ (0 <= cell_at M i j)%R).
Proof.
  intros df variables.
  apply (@effect_size_matrices_symmetric df variables 5).
  - intros v _. unfold df.
    destruct (String.eqb v "YSO_CLASS"%string); eexists; split; reflexivity.
  - lia.
Defined.

(** X17.  The loops of [main] that fill [cramers_matrix_yso_var] never
    raise: every pair of row labels of the cross-tabulation selects at
    least one row, so the matrix gets one row and one column per class,
    with [1] on the diagonal, symmetric, and every cell in [[0, 1]]. *)
Theorem cramers_matrix_yso_var_sound (yso var : Series) :
  exists M, cramers_matrix_yso_var yso var = Some M /\
    length M = nunique (map fst (combine yso var)) /\
    forall a b, (a < length M)%nat -> (b < length M)%nat ->
      cell_at M a a = 1%R /\ cell_at M a b = cell_at M b a /\
      (0 <= cell_at M a b <= 1)%R.
Proof.
  set (labels := index (crosstab yso var)).
  destruct (@mapM_exists _ _
              (fun i => mapM (fun j => cramers_matrix_cell yso var i j) labels)
              labels) as (M & HM).
  { intros i Hi. apply mapM_exists. intros j _.
    destruct (@cramers_matrix_cell_range yso var i j Hi) as (v & Hv & _).
    now exists v. }
  exists M. split; [exact HM|].
  assert (Hlen : length M = length labels) by apply (mapM_length _ _ HM).
  split; [rewrite Hlen; reflexivity|].
  assert (Hcell : forall a b, (a < length labels)%nat ->
            (b < length labels)%nat ->
            cramers_matrix_cell yso var (nth a labels 0%nat) (nth b labels 0%nat)
            = Some (cell_at M a b)).
  { intros a b Ha Hb.
    pose proof (@mapM_nth _ _ _ _ _ a 0%nat [] HM Ha) as Hrow.
    simpl in Hrow.
    exact (@mapM_nth _ _ _ _ _ b 0%nat 0%R Hrow Hb). }
  intros a b Ha Hb. rewrite Hlen in Ha, Hb.
  assert (Hin : In (nth a labels 0%nat) labels) by now apply nth_In.
  destruct (@cramers_matrix_cell_range yso var (nth a labels 0%nat)
            (nth a labels 0%nat) Hin)
    as (v & Hv & _ & Hd & _).
  rewrite (Hcell a a Ha Ha) in Hv. inversion Hv.
  destruct (@cramers_matrix_cell_range yso var (nth a labels 0%nat)
            (nth b labels 0%nat) Hin)
    as (w & Hab & Hba & _ & Hr).
  rewrite (Hcell a b Ha Hb) in Hab. rewrite (Hcell b a Hb Ha) in Hba.
  inversion Hab. inversion Hba. repeat split.
  - rewrite H0. now apply Hd.
  - congruence.
  - rewrite H1. apply Hr.
  - rewrite H1. apply Hr.
Qed.



(** X19.  For non-empty equal-length series [chi2_test] returns the
    statistic that [cramers_v] is computed from, with
    [(rows - 1) * (cols - 1)] degrees of freedom; there is no degree of
    freedom exactly when one series is constant, and the test then
    reports a statistic of [0] with p-value [1]. *)
Theorem chi2_test_result (sf : Q -> Z -> R) (x y : Series) :
  length x = length y -> x <> [] ->
  let dof := ((Z.of_nat (nunique x) - 1) * (Z.of_nat (nunique y) - 1))%Z in
  exists p,
    chi2_test sf x y = Some (chi2_statistic x y, p, dof) /\
    (dof = 0%Z <-> constant_series x \/ constant_series y) /\
    (constant_series x \/ constant_series y ->
     chi2_statistic x y = 0%Q /\ p = 1%R).
Proof.
  intros Hlen Hx dof.
  assert (Hne : combine x y <> []) by now apply combine_nonempty.
  assert (Hy : y <> []) by (destruct x, y; simpl in *; congruence).
  pose proof (nunique_pos Hx) as Hnx. pose proof (nunique_pos Hy) as Hny.
  assert (Hdof : Scipy.dof (values (crosstab x y)) = dof).
  { rewrite crosstab_dof by assumption.
    now rewrite combine_fst, combine_snd by assumption. }
  assert (Hiff : dof = 0%Z <-> constant_series x \/ constant_series y).
  { rewrite <- !nunique_one. unfold dof. nia. }
  eexists. split; [|split; [exact Hiff|]].
  - unfold chi2_test. rewrite chi2_contingency_crosstab by assumption.
    cbn [bind]. rewrite Hdof. reflexivity.
  - intros Hc. split.
    + unfold chi2_statistic. rewrite combine_fst, combine_snd by assumption.
      rewrite <- !nunique_one in Hc.
      destruct Hc as [->| ->]; [reflexivity|].
      now rewrite orb_true_r.
    + apply Hiff in Hc. now rewrite Hc.
Qed.

Lemma chi2_test_result_witness :
  let x := [3; 3; 3]%nat in
  let y := [0; 1; 2]%nat in
  let sf := fun (_ : Q) (_ : Z) => 0%R in
  let dof := ((Z.of_nat (nunique x) - 1) * (Z.of_nat (nunique y) - 1))%Z in
  exists p,
    chi2_test sf x y = Some (chi2_statistic x y, p, dof) /\
    (dof = 0%Z <-> constant_series x \/ constant_series y) /\
    (constant_series x \/ constant_series y ->
     chi2_statistic x y = 0%Q /\ p = 1%R).
Proof.
  apply (@chi2_test_result (fun _ _ => 0%R) [3; 3; 3]%nat [0; 1; 2]%nat).
  - reflexivity.
  - discriminate.
Defined.

(** X20.  On a frame that has the columns YSO_CLASS and LCType,
    [flag_rare_categories] returns, and its report is exact: a category
    is listed under a column, with a count [n], exactly when it occurs in
    that column [n] times and [n < 30]; a column without a rare category
    has no entry (no entry is empty). *)
Theorem flag_rare_categories_spec (df : Frame) (yso lc : Series) :
  df "YSO_CLASS"%string = Some yso -> df "LCType"%string = Some lc ->
  exists report,
    flag_rare_categories df = Some report /\
    (forall col rare, In (col, rare) report -> rare <> []) /\
    (forall cat n,
       (exists rare, In ("YSO_CLASS"%string, rare) report /\ In (cat, n) rare)
       <-> In cat yso /\ n = count_value cat yso /\ (n < 30)%Z) /\
    (forall cat n,
       (exists rare, In ("LCType"%string, rare) report /\ In (cat, n) rare)
       <-> In cat lc /\ n = count_value cat lc /\ (n < 30)%Z).
Proof.
  intros Hy Hl. pose proof (@flag_rare_report df yso lc Hy Hl) as R.
  cbv zeta in R. rewrite R. clear R. eexists. split; [reflexivity|].
  set (r1 := filter (fun p => (snd p <? rare_threshold)%Z) (value_counts yso)).
  set (r2 := filter (fun p => (snd p <? rare_threshold)%Z) (value_counts lc)).
  split; [|split].
  - intros col r Hin. apply in_app_or in Hin.
    destruct Hin as [Hin|Hin].
    + destruct r1; simpl in Hin; [destruct Hin|].
      destruct Hin as [Hin|[]]. inversion Hin. discriminate.
    + destruct r2; simpl in Hin; [destruct Hin|].
      destruct Hin as [Hin|[]]. inversion Hin. discriminate.
  - intros cat n. rewrite <- rare_in. fold r1. split.
    + intros (r & Hin & Hc). apply in_app_or in Hin.
      destruct Hin as [Hin|Hin].
      * destruct (0 <? length r1)%nat; [|destruct Hin].
        destruct Hin as [Hin|[]]. inversion Hin. now subst r.
      * destruct (0 <? length r2)%nat; [|destruct Hin].
        destruct Hin as [Hin|[]]. inversion Hin.
    + intros Hc. exists r1. split; [|exact Hc].
      apply in_or_app. left. rewrite (positive_length_in _ _ Hc). now left.
  - intros cat n. rewrite <- rare_in. fold r2. split.
    + intros (r & Hin & Hc). apply in_app_or in Hin.
      destruct Hin as [Hin|Hin].
      * destruct (0 <? length r1)%nat; [|destruct Hin].
        destruct Hin as [Hin|[]]. inversion Hin.
      * destruct (0 <? length r2)%nat; [|destruct Hin].
        destruct Hin as [Hin|[]]. inversion Hin. now subst r.
    + intros Hc. exists r2. split; [|exact Hc].
      apply in_or_app. right. rewrite (positive_length_in _ _ Hc). now left.
Qed.

Lemma flag_rare_categories_spec_witness :
  let df := fun v : String.string =>
              if String.eqb v "YSO_CLASS"%string then Some [0; 0; 1]%nat
              else Some [0; 1; 1]%nat in
  exists report,
    flag_rare_categories df = Some report /\
    (forall col rare, In (col, rare) report -> rare <> []) /\
    (forall cat n,
       (exists rare, In ("YSO_CLASS"%string, rare) report /\ In (cat, n) rare)
       <-> In cat [0; 0; 1]%nat /\ n = count_value cat [0; 0; 1]%nat
           /\ (n < 30)%Z) /\
    (forall cat n,
       (exists rare, In ("LCType"%string, rare) report /\ In (cat, n) rare)
       <-> In cat [0; 1; 1]%nat /\ n = count_value cat [0; 1; 1]%nat
           /\ (n < 30)%Z).
Proof.
  intros df.
  apply (@flag_rare_categories_spec df [0; 0; 1]%nat [0; 1; 1]%nat);
    reflexivity.
Defined.

(** X21.  For a series with at least one row, [get_imbalance_stats]
    returns finite numbers: the ratio of the largest to the smallest
    count is at least [1], and the share of the most frequent category
    lies between [100 / k] and [100] percent, [k] being the number of
    categories. *)
Theorem imbalance_stats_bounds (series : Series) :
  series <> [] ->
  exists p r,
    max_pct (get_imbalance_stats series) = Some p /\
    ratio (get_imbalance_stats series) = Some r /\
    (1 <= r)%Q /\
    (p <= 100)%Q /\ (100 <= p * inject_Z (Z.of_nat (nunique series)))%Q.
Proof.
  intros Hne. unfold get_imbalance_stats. cbn [max_pct ratio].
  set (counts := map snd (value_counts series)).
  assert (Hlen : length counts = nunique series).
  { unfold counts. now rewrite length_map, value_counts_length. }
  pose proof (nunique_pos Hne) as Hk.
  destruct (Chord.maxZ_list counts) as [M|] eqn:EM.
  2:{ destruct counts; [simpl in Hlen; lia|discriminate]. }
  destruct (minZ_list counts) as [m|] eqn:Em.
  2:{ destruct counts; [simpl in Hlen; lia|discriminate]. }
  destruct (maxZ_list_spec _ EM) as [HM HMle].
  destruct (minZ_list_spec _ Em) as [Hm Hmle].
  apply value_counts_counts in HM. destruct HM as (v & Hv & ->).
  apply value_counts_counts in Hm. destruct Hm as (w & Hw & ->).
  pose proof (count_value_pos _ _ Hw) as Hw1.
  pose proof (count_value_le v series) as HvN.
  assert (Hwv : (count_value w series <= count_value v series)%Z).
  { apply HMle. apply value_counts_counts. now exists w. }
  assert (Hsum : (Z.of_nat (length series)
                  <= Z.of_nat (nunique series) * count_value v series)%Z).
  { rewrite <- (value_counts_sum series), <- Hlen. now apply sumZ_le_max. }
  set (N := Z.of_nat (length series)) in *.
  set (k := Z.of_nat (nunique series)) in *.
  set (a := count_value v series) in *. set (b := count_value w series) in *.
  assert (HN : (0 < N)%Z) by lia.
  assert (QN : (0 < inject_Z N)%Q) by now apply inject_Z_pos.
  assert (Qb : (0 < inject_Z b)%Q) by (apply inject_Z_pos; lia).
  do 2 eexists. cbn [bind]. split; [reflexivity|]. split; [reflexivity|].
  split; [|split].
  - apply Qle_shift_div_l; [assumption|]. rewrite Qmult_1_l.
    now rewrite <- Zle_Qle.
  - apply Qle_shift_div_r; [assumption|].
    assert (inject_Z a <= inject_Z N)%Q by now rewrite <- Zle_Qle.
    lra.
  - assert (E : (100 * inject_Z a / inject_Z N * inject_Z k
                 == 100 * (inject_Z k * inject_Z a) / inject_Z N)%Q)
      by (field; lra).
    rewrite E. apply Qle_shift_div_l; [assumption|].
    assert (inject_Z N <= inject_Z k * inject_Z a)%Q
      by (rewrite <- inject_Z_mult, <- Zle_Qle; lia).
    lra.
Qed.

Lemma imbalance_stats_bounds_witness :
  exists p r,
    max_pct (get_imbalance_stats [0; 0; 1]%nat) = Some p /\
    ratio (get_imbalance_stats [0; 0; 1]%nat) = Some r /\
    (1 <= r)%Q /\
    (p <= 100)%Q /\
    (100 <= p * inject_Z (Z.of_nat (nunique [0; 0; 1]%nat)))%Q.
Proof. apply (@imbalance_stats_bounds [0; 0; 1]%nat). discriminate. Defined.



(** X23.  When [create_matplotlib_chord] is given the cross-tabulation of
    two non-empty equal-length series, the normalisation of the node
    sizes never divides by zero: there is one size per category of either
    series, every size lies in [(0, 0.3]], and one of them is [0.3]. *)
Theorem crosstab_node_sizes_visible (x y : Series) :
  length x = length y -> x <> [] ->
  exists sizes,
    Chord.node_sizes_norm (crosstab x y) = Some sizes /\
    length sizes = (nunique x + nunique y)%nat /\
    (exists s, In s sizes /\ (s == 3 # 10)%Q) /\
    forall s, In s sizes -> (0 < s <= 3 # 10)%Q.
Proof.
  intros Hlen Hx.
  assert (Hy : y <> []) by (destruct x, y; simpl in *; congruence).
  pose proof (nunique_pos Hx) as Hnx.
  assert (Hl : length (Chord.node_sizes (crosstab x y))
               = (nunique x + nunique y)%nat).
  { unfold Chord.node_sizes. rewrite length_map, length_seq.
    unfold crosstab, nunique. cbn [index columns].
    now rewrite combine_fst, combine_snd by assumption. }
  unfold Chord.node_sizes_norm.
  destruct (Chord.maxZ_list (Chord.node_sizes (crosstab x y))) as [m|] eqn:Em.
  2:{ destruct (Chord.node_sizes (crosstab x y)); [simpl in Hl; lia|discriminate]. }
  destruct (maxZ_list_spec _ Em) as [Hin Hle].
  pose proof (crosstab_node_sizes_pos x y m Hin) as Hm.
  cbn [bind]. destruct (Z.eqb_spec m 0) as [E|_]; [lia|].
  assert (Qm : (0 < inject_Z m)%Q) by now apply inject_Z_pos.
  eexists. split; [reflexivity|]. split; [now rewrite length_map|]. split.
  - exists (inject_Z m / inject_Z m * (3 # 10))%Q. split.
    + apply in_map_iff. now exists m.
    + field. lra.
  - intros s Hs. apply in_map_iff in Hs. destruct Hs as (z & <- & Hz).
    pose proof (crosstab_node_sizes_pos x y z Hz) as Hz0.
    specialize (Hle z Hz).
    assert (Qz : (0 < inject_Z z)%Q) by now apply inject_Z_pos.
    assert (Qle' : (inject_Z z <= inject_Z m)%Q) by now rewrite <- Zle_Qle.
    assert (H1 : (0 < inject_Z z / inject_Z m)%Q)
      by (apply Qlt_shift_div_l; [assumption|lra]).
    assert (H2 : (inject_Z z / inject_Z m <= 1)%Q)
      by (apply Qle_shift_div_r; [assumption|lra]).
    set (q := (inject_Z z / inject_Z m)%Q) in *. split; lra.
Qed.

Lemma crosstab_node_sizes_visible_witness :
  exists sizes,
    Chord.node_sizes_norm (crosstab [0; 0; 1; 1; 1]%nat [0; 1; 0; 1; 1]%nat)
    = Some sizes /\
    length sizes = (nunique [0; 0; 1; 1; 1]%nat + nunique [0; 1; 0; 1; 1]%nat)%nat /\
    (exists s, In s sizes /\ (s == 3 # 10)%Q) /\
    forall s, In s sizes -> (0 < s <= 3 # 10)%Q.
Proof.
  apply (@crosstab_node_sizes_visible [0; 0; 1; 1; 1]%nat [0; 1; 0; 1; 1]%nat).
  - reflexivity.
  - discriminate.
Defined.


